(** * sketch2mask/metrics.py: a shallow embedding of the metric functions

    The file follows [src/sketch2mask/metrics.py] function by function.

    Numbers.  The Python code computes in IEEE floating point.  Here a
    finite float is idealised as an exact rational of [Qc] (canonical
    rationals, so that equal numbers are equal terms), and the one
    non-number the code produces on purpose, [float('nan')] in
    [compute_miou], is a constructor of its own.  Rounding is therefore
    outside the model; everything else (which sums are formed, in which
    order arrays are indexed, which divisor is used, when an exception is
    raised) is as in the source.

    Library functions of numpy, torch and os are modelled from their
    documented behaviour under their own names ([np_cov], [torch_trapz],
    [os_walk], ...).  Functions whose result is not determined by their
    arguments in the source (the Inception network applied to a decoded
    image, [scipy.linalg.sqrtm], [np.random.choice], the unstable
    [torch.argsort]) are Section variables. *)

From Stdlib Require Import String Ascii.
From Stdlib Require Import List Bool Arith ZArith QArith Qcanon.
From Stdlib Require Import Lia Permutation Sorted.
Import ListNotations.

Open Scope Z_scope.

(** ** Python values shared by the metrics *)

(** The exceptions the module raises itself, with their messages, and the
    ones raised on its behalf by the interpreter or by torch. *)
Inductive exn : Type :=
| ValueError (msg : string)
| ZeroDivisionError
| IndexError
| OSError
| RuntimeError (msg : string).

(** A call either returns a value or raises. *)
Inductive result (A : Type) : Type :=
| Ok (a : A)
| Raise (e : exn).
Arguments Ok {A} a.
Arguments Raise {A} e.

Definition bind {A B : Type} (r : result A) (k : A -> result B) : result B :=
  match r with
  | Ok a => k a
  | Raise e => Raise e
  end.

Notation "x <- r ;; k" := (bind r (fun x => k))
  (at level 61, r at next level, right associativity).

(** A Python float as far as [compute_miou] uses it: a number or NaN. *)
Inductive float : Type :=
| Real (q : Qc)
| NaN.

Definition of_Z (z : Z) : Qc := Q2Qc (inject_Z z).
Definition of_nat (n : nat) : Qc := of_Z (Z.of_nat n).

(** [range(n)] for a Python int [n]: empty when [n <= 0]. *)
Definition range (n : Z) : list Z := map Z.of_nat (seq 0 (Z.to_nat n)).

(** Sum of an array of numbers. *)
Definition qsum (l : list Qc) : Qc := fold_right Qcplus (Q2Qc 0) l.

(** Position-wise combination of two arrays of the same length. *)
Fixpoint map2 {A B C : Type} (f : A -> B -> C) (l : list A) (l' : list B) : list C :=
  match l, l' with
  | a :: t, b :: t' => f a b :: map2 f t t'
  | _, _ => []
  end.

(** ** Notation of the specification *)

(** The sum of [f 0], ..., [f (n - 1)], for the formulas the
    specification writes with indices. *)
Fixpoint sum_below (n : nat) (f : nat -> Qc) : Qc :=
  match n with
  | O => Q2Qc 0
  | S n' => (sum_below n' f + f n')%Qc
  end.

(** ** Mean IoU: [compute_miou] *)

Module MeanIoU.

(** Label grids are rows of integer labels; boolean masks have the same
    layout.  The functions below act element by element, so the same
    definitions read a (B, H, W) tensor as the list of its rows. *)
Definition grid := list (list Z).
Definition mask := list (list bool).

Definition same_shape {A B : Type} (g : list (list A)) (h : list (list B)) : Prop :=
  map (@length A) g = map (@length B) h.

(** [t == cls] *)
Definition tensor_eq (t : grid) (cls : Z) : mask := map (map (fun v => Z.eqb v cls)) t.
(** [a & b] and [a | b] for two masks of one shape, entry by entry.
    The two tensors of [compute_miou] are both (B, H, W); for masks of
    different shapes torch broadcasts or raises, which [map2] does not
    follow, so the theorems about [compute_miou] are stated for grids of
    one shape. *)
Definition tensor_and (a b : mask) : mask := map2 (map2 andb) a b.
Definition tensor_or (a b : mask) : mask := map2 (map2 orb) a b.
(** [m.sum().item()]: the number of [True] entries. *)
Definition tensor_sum (m : mask) : Z :=
  fold_right (fun row acc => fold_right (fun (b : bool) s => (if b then 1 else 0) + s) 0 row + acc) 0 m.

Definition intersection (pred_masks true_masks : grid) (cls : Z) : Z :=
  tensor_sum (tensor_and (tensor_eq pred_masks cls) (tensor_eq true_masks cls)).

Definition union (pred_masks true_masks : grid) (cls : Z) : Z :=
  tensor_sum (tensor_or (tensor_eq pred_masks cls) (tensor_eq true_masks cls)).

(** The body of the loop over [cls]: the entry appended to
    [iou_per_class]. *)
Definition iou (pred_masks true_masks : grid) (cls : Z) : float :=
  let i := intersection pred_masks true_masks cls in
  let u := union pred_masks true_masks cls in
  if u =? 0 then NaN else Real (of_Z i / of_Z u)%Qc.

(** [np.nanmean]: NaN entries are dropped, the rest is averaged; the mean
    of an empty remainder is NaN (numpy warns and returns nan). *)
Definition np_nanmean (l : list float) : float :=
  let kept := flat_map (fun x => match x with Real q => [q] | NaN => [] end) l in
  match kept with
  | [] => NaN
  | _ => Real (qsum kept / of_nat (length kept))%Qc
  end.

Definition compute_miou (pred_masks true_masks : grid) (num_classes : Z) : float :=
  let iou_per_class := map (iou pred_masks true_masks) (range num_classes) in
  np_nanmean iou_per_class.

(** *** The specification's reading, position by position *)

(** The positions (row, column) of a grid, and the label a grid
    carries at a position. *)
Definition positions (g : grid) : list (nat * nat) :=
  flat_map (fun i => map (fun j => (i, j)) (seq 0 (length (nth i g [])))) (seq 0 (length g)).

Definition label_at (g : grid) (ij : nat * nat) : Z := nth (snd ij) (nth (fst ij) g []) 0.

(** The number of positions that lie in both regions labelled [c], and
    in at least one of them. *)
Definition intersection_size (p t : grid) (c : Z) : Z :=
  Z.of_nat (length (filter (fun ij => (label_at p ij =? c) && (label_at t ij =? c))
                           (positions p))).

Definition union_size (p t : grid) (c : Z) : Z :=
  Z.of_nat (length (filter (fun ij => (label_at p ij =? c) || (label_at t ij =? c))
                           (positions p))).

(** The classes 0, ..., C - 1 whose union is not empty, in order. *)
Definition classes_present (p t : grid) (C : Z) : list Z :=
  filter (fun c => negb (union_size p t c =? 0)) (map Z.of_nat (seq 0 (Z.to_nat C))).

(** The mean of intersection/union over the classes with a non-empty
    union; NaN when there is no such class. *)
Definition mean_iou (p t : grid) (C : Z) : float :=
  let cs := classes_present p t C in
  match cs with
  | [] => NaN
  | _ => Real (sum_below (length cs)
                         (fun k => of_Z (intersection_size p t (nth k cs 0%Z))
                                   / of_Z (union_size p t (nth k cs 0%Z)))
               / of_nat (length cs))%Qc
  end.

(** *** The same quantities over the list of label pairs *)

(** All (predicted, true) label pairs of two grids of the same shape. *)
Definition pixels (p t : grid) : list (Z * Z) := concat (map2 (@combine Z Z) p t).

Definition count {A : Type} (f : A -> bool) (l : list A) : Z :=
  Z.of_nat (length (filter f l)).

(** Size of the intersection and of the union of the two regions
    labelled [c]. *)
Definition overlap (p t : grid) (c : Z) : Z * Z :=
  (count (fun '(a, b) => (a =? c) && (b =? c)) (pixels p t),
   count (fun '(a, b) => (a =? c) || (b =? c)) (pixels p t)).

(** The classes of [0, C) with a non-empty union. *)
Definition defined_classes (p t : grid) (C : Z) : list Z :=
  filter (fun c => negb (snd (overlap p t c) =? 0)) (range C).

Definition class_score (p t : grid) (c : Z) : Qc :=
  (of_Z (fst (overlap p t c)) / of_Z (snd (overlap p t c)))%Qc.

(** Mean of the defined per-class scores; NaN when there is none. *)
Definition mean_defined_iou (p t : grid) (C : Z) : float :=
  match defined_classes p t C with
  | [] => NaN
  | cs => Real (qsum (map (class_score p t) cs) / of_nat (length cs))%Qc
  end.

End MeanIoU.


(** ** Average precision: [precision_recall_curve_torch] and [compute_ap] *)

Module AveragePrecision.

Open Scope Qc_scope.

(** A torch tensor: its shape and its elements in row-major order. *)
Record tensor (A : Type) : Type := mkTensor { shape : list nat; data : list A }.
Arguments mkTensor {A} shape data.
Arguments shape {A} t.
Arguments data {A} t.

(** A 2-D float tensor given by its rows; [size1] is [t.size(1)], which
    the rows alone do not determine when there is none. *)
Record matrix : Type := mkMatrix { size1 : nat; rows : list (list Qc) }.

(** [1e-8] *)
Definition eps : Qc := Q2Qc (1 # 100000000).

(** [t.size(1)] *)
Definition size_1 {A : Type} (t : tensor A) : nat := nth 1%nat (shape t) 0%nat.

(** [t.view(-1)] *)
Definition view_flat {A : Type} (t : tensor A) : list A := data t.

(** [pred.permute(0, 2, 3, 1).reshape(-1, pred.size(1))] for a tensor of
    shape (B, C, H, W): row [(b*H + h)*W + w] holds, for each class [c],
    the element at [(b, c, h, w)], that is at offset
    [((b*C + c)*H + h)*W + w] of the data.  Any other rank makes
    [permute] raise, and with no class [reshape] cannot infer the
    number of rows. *)
Definition permute_reshape (pred : tensor Qc) : result matrix :=
  match shape pred with
  | [B; C; H; W] =>
      let hw := (H * W)%nat in
      if (C =? 0)%nat
      then Raise (RuntimeError "cannot reshape tensor of 0 elements into shape [-1, 0]")
      else
        Ok (mkMatrix C
              (map (fun p =>
                      map (fun c => nth (((p / hw) * C + c) * hw + p mod hw)%nat (data pred) 0)
                          (seq 0 C))
                   (seq 0 (B * hw))))
  | _ => Raise (RuntimeError "permute: number of dims does not match")
  end.

(** [torch.nn.functional.one_hot(t, num_classes=C).float()] on the CPU. *)
Definition one_hot (t : list Z) (num_classes : nat) : result matrix :=
  match t with
  | [] =>
      if (num_classes =? 0)%nat
      then Raise (RuntimeError "Can not infer total number of classes from empty tensor.")
      else Ok (mkMatrix num_classes [])
  | _ :: _ =>
      if existsb (fun v => v <? 0)%Z t
      then Raise (RuntimeError "Class values must be non-negative.")
      else if forallb (fun v => v <? Z.of_nat num_classes)%Z t
      then Ok (mkMatrix num_classes
                 (map (fun v => map (fun c => if (v =? Z.of_nat c)%Z then 1 else 0)
                                    (seq 0 num_classes)) t))
      else Raise (RuntimeError "Class values must be smaller than num_classes.")
  end.

(** [t[:, j]] *)
Definition column (t : matrix) (j : nat) : list Qc := map (fun r => nth j r 0) (rows t).

(** [t[idx]] for an index tensor [idx]; an index past the end raises. *)
Definition index_select (t : list Qc) (idx : list nat) : result (list Qc) :=
  if forallb (fun i => i <? length t)%nat idx
  then Ok (map (fun i => nth i t 0) idx)
  else Raise IndexError.

(** [torch.cumsum(t, dim=0)] *)
Fixpoint cumsum_from (acc : Qc) (t : list Qc) : list Qc :=
  match t with
  | [] => []
  | x :: r => (acc + x) :: cumsum_from (acc + x) r
  end.
Definition torch_cumsum (t : list Qc) : list Qc := cumsum_from 0 t.

(** [torch.stack(l, dim=0).mean(dim=0)]: the arrays of [l] have one
    length; entry [k] of the result is the mean of their entries [k].
    [torch.stack] refuses an empty list and arrays of unequal length. *)
Definition stack_mean (l : list (list Qc)) : result (list Qc) :=
  match l with
  | [] => Raise (RuntimeError "stack expects a non-empty TensorList")
  | a :: _ =>
      if forallb (fun b => (length b =? length a)%nat) l
      then Ok (map (fun k => qsum (map (fun b => nth k b 0) l) / of_nat (length l))
                   (seq 0 (length a)))
      else Raise (RuntimeError "stack expects each tensor to be equal size")
  end.

(** [torch.trapz(y, x)]: [((x[1:] - x[:-1]) * (y[1:] + y[:-1])).sum() / 2]. *)
Definition torch_trapz (y x : list Qc) : Qc :=
  qsum (map2 Qcmult (map2 Qcminus (tl x) (removelast x))
                    (map2 Qcplus (tl y) (removelast y))) / of_Z 2.

Section Ranking.

(** [torch.argsort(t, descending=True)].  The sort is not stable, so
    the order among equal probabilities is the library's choice. *)
Variable argsort : list Qc -> list nat.

(** The per-class body of [precision_recall_curve_torch]. *)
Definition class_curve (real_one_hot pred_probs : matrix) (class_idx : nat)
  : result (list Qc * list Qc * list Qc) :=
  let real := column real_one_hot class_idx in
  let pred := column pred_probs class_idx in
  let sorted_indices := argsort pred in
  real <- index_select real sorted_indices ;;
  pred <- index_select pred sorted_indices ;;
  let tp := torch_cumsum real in
  let fp := torch_cumsum (map (fun r => 1 - r) real) in
  let precision := map2 (fun t f => t / (t + f + eps)) tp fp in
  let recall := map (fun t => t / (qsum real + eps)) tp in
  let thresholds := pred in
  Ok (precision, recall, thresholds).

(** The loop over [class_idx], filling the three lists. *)
Fixpoint class_curves (real_one_hot pred_probs : matrix) (classes : list nat)
  : result (list (list Qc) * list (list Qc) * list (list Qc)) :=
  match classes with
  | [] => Ok ([], [], [])
  | class_idx :: rest =>
      c <- class_curve real_one_hot pred_probs class_idx ;;
      r <- class_curves real_one_hot pred_probs rest ;;
      let '(precision, recall, thresholds) := c in
      let '(precision_list, recall_list, thresholds_list) := r in
      Ok (precision :: precision_list, recall :: recall_list, thresholds :: thresholds_list)
  end.

Definition precision_recall_curve_torch (real_one_hot pred_probs : matrix)
  : result (list Qc * list Qc * list Qc) :=
  l <- class_curves real_one_hot pred_probs (seq 0 (size1 real_one_hot)) ;;
  let '(precision_list, recall_list, thresholds_list) := l in
  precision <- stack_mean precision_list ;;
  recall <- stack_mean recall_list ;;
  thresholds <- stack_mean thresholds_list ;;
  Ok (precision, recall, thresholds).

(** The body of the loop of [compute_ap]: the AP of one sample. *)
Definition sample_ap (real : tensor Z) (pred : tensor Qc) : result Qc :=
  let real_flat := view_flat real in
  pred_flat <- permute_reshape pred ;;
  real_one_hot <- one_hot real_flat (size_1 pred) ;;
  c <- precision_recall_curve_torch real_one_hot pred_flat ;;
  let '(precision, recall, _) := c in
  Ok (torch_trapz precision recall).

(** The loop over [zip(real_masks, pred_probs)], carrying [ap_score]
    and [total_samples]. *)
Fixpoint ap_loop (pairs : list (tensor Z * tensor Qc)) (ap_score : Qc) (total_samples : nat)
  : result (Qc * nat) :=
  match pairs with
  | [] => Ok (ap_score, total_samples)
  | (real, pred) :: rest =>
      a <- sample_ap real pred ;;
      ap_loop rest (ap_score + a) (S total_samples)
  end.

Definition compute_ap (real_masks : list (tensor Z)) (pred_probs : list (tensor Qc))
  : result Qc :=
  r <- ap_loop (combine real_masks pred_probs) 0 0%nat ;;
  let '(ap_score, total_samples) := r in
  Ok (if (0 <? total_samples)%nat then ap_score / of_nat total_samples else ap_score).

(** *** The specification's reading of one sample

    A sample is a (B, H, W) grid of labels and a (B, C, H, W) grid of
    probabilities; its pixels are the positions (b, h, w) in row-major
    order. *)

(** The positions (b, h, w) of a (B, H, W) grid. *)
Definition pixel_coords (B H W : nat) : list (nat * nat * nat) :=
  flat_map (fun b => flat_map (fun h => map (fun w => (b, h, w)) (seq 0 W)) (seq 0 H))
           (seq 0 B).

Definition num_classes (pred : tensor Qc) : nat :=
  match shape pred with [_; C; _; _] => C | _ => 0%nat end.

Definition num_pixels (pred : tensor Qc) : nat :=
  match shape pred with [B; _; H; W] => (B * (H * W))%nat | _ => 0%nat end.

(** The predicted probability of class [c] at each pixel. *)
Definition class_probs (pred : tensor Qc) (c : nat) : list Qc :=
  match shape pred with
  | [B; C; H; W] =>
      map (fun '(b, h, w) => nth (((b * C + c) * H + h) * W + w)%nat (data pred) 0)
          (pixel_coords B H W)
  | _ => []
  end.

(** The true labels of the pixels, ranked for class [c]: by the
    order [argsort] gives the probabilities of that class. *)
Definition ranked_labels (real : tensor Z) (pred : tensor Qc) (c : nat) : list Z :=
  map (fun i => nth i (data real) 0%Z) (argsort (class_probs pred c)).

Definition ranked_probs (pred : tensor Qc) (c : nat) : list Qc :=
  map (fun i => nth i (class_probs pred c) 0) (argsort (class_probs pred c)).

Definition positive (c : nat) (label : Z) : bool := (label =? Z.of_nat c)%Z.

(** A test on labels as a 0/1 number, as in a one-hot column. *)
Definition indicator (f : Z -> bool) (label : Z) : Qc := if f label then 1 else 0.

(** True and false positives among the [k + 1] top-ranked pixels, and
    the number of pixels whose true label is [c]. *)
Definition tp (real : tensor Z) (pred : tensor Qc) (c k : nat) : nat :=
  length (filter (positive c) (firstn (S k) (ranked_labels real pred c))).
Definition fp (real : tensor Z) (pred : tensor Qc) (c k : nat) : nat :=
  length (filter (fun l => negb (positive c l)) (firstn (S k) (ranked_labels real pred c))).
Definition total_positives (real : tensor Z) (c : nat) : nat :=
  length (filter (positive c) (data real)).

Definition precision_at (real : tensor Z) (pred : tensor Qc) (c k : nat) : Qc :=
  of_nat (tp real pred c k) / (of_nat (tp real pred c k) + of_nat (fp real pred c k) + eps).
Definition recall_at (real : tensor Z) (pred : tensor Qc) (c k : nat) : Qc :=
  of_nat (tp real pred c k) / (of_nat (total_positives real c) + eps).

(** The mean over the classes of a per-class quantity at rank [k]. *)
Definition blended (pred : tensor Qc) (f : nat -> nat -> Qc) (k : nat) : Qc :=
  qsum (map (fun c => f c k) (seq 0 (num_classes pred))) / of_nat (num_classes pred).

(** The trapezoidal rule over the [n] points [(x k, y k)]. *)
Definition trapezoid (y x : nat -> Qc) (n : nat) : Qc :=
  qsum (map (fun k => (x (S k) - x k) * ((y k + y (S k)) / of_Z 2)) (seq 0 (n - 1))).

(** The AP of a sample: the area under its blended curve. *)
Definition blended_ap (real : tensor Z) (pred : tensor Qc) : Qc :=
  trapezoid (blended pred (precision_at real pred)) (blended pred (recall_at real pred))
            (num_pixels pred).

(** The arithmetic mean of the per-sample APs ([0] for no sample). *)
Definition mean_ap (pairs : list (tensor Z * tensor Qc)) : Qc :=
  match pairs with
  | [] => 0
  | _ => qsum (map (fun '(real, pred) => blended_ap real pred) pairs) / of_nat (length pairs)
  end.

(** The pair of samples at position [k] of the two sequences, and the
    arithmetic mean of the APs of the pairs at the positions below [n]
    ([0] for [n = 0]). *)
Definition pair_at (real_masks : list (tensor Z)) (pred_probs : list (tensor Qc)) (k : nat)
  : tensor Z * tensor Qc :=
  (nth k real_masks (mkTensor [] []), nth k pred_probs (mkTensor [] [])).

Definition mean_ap_of_first (n : nat) (real_masks : list (tensor Z))
           (pred_probs : list (tensor Qc)) : Qc :=
  if (n =? 0)%nat then 0
  else sum_below n (fun k => blended_ap (fst (pair_at real_masks pred_probs k))
                                        (snd (pair_at real_masks pred_probs k)))
       / of_nat n.

(** A sample the loop body accepts: a (B, C, H, W) probability tensor
    with at least one class, a label tensor with one label per pixel,
    and every label a class index. *)
Definition well_formed (s : tensor Z * tensor Qc) : Prop :=
  let '(real, pred) := s in
  (exists B C H W, shape pred = [B; C; H; W] /\ (0 < C)%nat)
  /\ length (data real) = num_pixels pred
  /\ Forall (fun l => (0 <= l < Z.of_nat (num_classes pred))%Z) (data real).

(** What the library promises of [argsort] on an array: a permutation
    of its indices along which the values do not increase. *)
Definition argsort_descending (l : list Qc) : Prop :=
  Permutation (argsort l) (seq 0 (length l))
  /\ StronglySorted (fun a b => b <= a) (map (fun i => nth i l 0) (argsort l)).

Definition ranked (s : tensor Z * tensor Qc) : Prop :=
  forall c, (c < num_classes (snd s))%nat -> argsort_descending (class_probs (snd s) c).

End Ranking.

(** One sort the contract admits, for running the functions on an
    example: insertion by descending value, earlier index first among
    equal values. *)
Fixpoint insert_descending (l : list Qc) (i : nat) (sorted : list nat) : list nat :=
  match sorted with
  | [] => [i]
  | j :: rest =>
      match nth j l 0 ?= nth i l 0 with
      | Lt => i :: sorted
      | _ => j :: insert_descending l i rest
      end
  end.

Definition insertion_argsort (l : list Qc) : list nat :=
  fold_left (fun sorted i => insert_descending l i sorted) (seq 0 (length l)) [].

(** A sample of one image with two pixels and two classes: labels
    [0, 1]; class 0 is given probabilities 3/10 and 4/5, class 1 the
    probabilities 7/10 and 1/5. *)
Definition example_real : tensor Z := mkTensor [1; 1; 2]%nat [0; 1]%Z.
Definition example_pred : tensor Qc :=
  mkTensor [1; 2; 1; 2]%nat [Q2Qc (3 # 10); Q2Qc (4 # 5); Q2Qc (7 # 10); Q2Qc (1 # 5)].

End AveragePrecision.

(** ** Feature extraction: [extract_features] *)

Module FeatureExtraction.

Open Scope string_scope.

(** What [os] finds below a directory: files, and directories with
    their own entries, in the order the system lists them. *)
Inductive node : Type :=
| File (name : string)
| Dir (name : string) (entries : list node).

Definition node_name (n : node) : string :=
  match n with File s => s | Dir s _ => s end.

Definition is_dir (n : node) : bool :=
  match n with File _ => false | Dir _ _ => true end.

(** [str.lower] on the ASCII letters; bytes of other characters are
    left alone, and none of them lowers to a letter of the suffixes. *)
Definition lower_ascii (c : ascii) : ascii :=
  let n := nat_of_ascii c in
  if ((65 <=? n) && (n <=? 90))%nat then ascii_of_nat (n + 32) else c.

Fixpoint lower (s : string) : string :=
  match s with
  | EmptyString => EmptyString
  | String c r => String (lower_ascii c) (lower r)
  end.

(** [s.endswith(suffix)] *)
Definition endswith (s suffix : string) : bool :=
  let n := String.length s in
  let k := String.length suffix in
  ((k <=? n)%nat && String.eqb (substring (n - k) k s) suffix)%bool.

(** [file.lower().endswith(('png', 'jpg', 'jpeg'))] *)
Definition has_image_suffix (file : string) : bool :=
  existsb (endswith (lower file)) ["png"; "jpg"; "jpeg"].

(** [os.path.join(a, b)] of [posixpath]. *)
Definition os_path_join (a b : string) : string :=
  if String.prefix "/" b then b
  else if (String.eqb a "" || endswith a "/")%bool then a ++ b
  else a ++ "/" ++ b.

(** [os.listdir]: the names of all entries, directories included. *)
Definition os_listdir (entries : list node) : list string := map node_name entries.

(** [os.walk], top-down: a triple (root, dirs, files) for a directory,
    then the triples of its subdirectories in turn. *)
Definition walk_entry (root : string) (entries : list node)
  : string * list string * list string :=
  (root,
   map node_name (filter is_dir entries),
   map node_name (filter (fun n => negb (is_dir n)) entries)).

Fixpoint walk_node (parent : string) (n : node) : list (string * list string * list string) :=
  match n with
  | File _ => []
  | Dir name entries =>
      let root := os_path_join parent name in
      walk_entry root entries :: flat_map (walk_node root) entries
  end.

Definition os_walk (top : string) (entries : list node)
  : list (string * list string * list string) :=
  walk_entry top entries :: flat_map (walk_node top) entries.

(** [[os.path.join(root, f) for f in names if f.lower().endswith(...)]] *)
Definition matching_paths (root : string) (names : list string) : list string :=
  map (os_path_join root) (filter has_image_suffix names).

(** What the function prints. *)
Inductive event : Type :=
| Processing (count : nat) (image_folder : string)
| Warning (img_path : string).

Section Extract.

(** The file system: the entries below a path, [None] when the path
    is not a directory. *)
Variable tree : string -> option (list node).

(** Lines 37-39 for one path: open and decode the image, transform
    it, and run the network; [Some row] is the (1, D) feature array,
    [None] stands for any exception raised on the way. *)
Variable featurize : string -> option (list Qc).

(** Lines 19-27: the list [image_files].  [os.walk] yields nothing for
    a path that is not a directory, [os.listdir] raises. *)
Definition image_files (image_folder : string) (recursive : bool) : result (list string) :=
  if recursive then
    Ok (flat_map (fun '(root, _, files) => matching_paths root files)
                 (match tree image_folder with
                  | Some entries => os_walk image_folder entries
                  | None => []
                  end))
  else
    match tree image_folder with
    | Some entries => Ok (matching_paths image_folder (os_listdir entries))
    | None => Raise OSError
    end.

(** Lines 35-42: the loop over [image_files], returning [features] and
    the warnings printed. *)
Fixpoint extract_loop (files : list string) : list (list (list Qc)) * list event :=
  match files with
  | [] => ([], [])
  | img_path :: rest =>
      let '(features, out) := extract_loop rest in
      match featurize img_path with
      | Some feat => ([feat] :: features, out)
      | None => (features, Warning img_path :: out)
      end
  end.

(** [np.concatenate(features, axis=0)]; the network's output has one
    dimension for all images, so the shapes always agree. *)
Definition np_concatenate (features : list (list (list Qc))) : list (list Qc) :=
  concat features.

(** The function: what it prints, and what it returns or raises. *)
Definition extract_features (image_folder : string) (recursive : bool)
  : list event * result (list (list Qc)) :=
  match image_files image_folder recursive with
  | Raise e => ([], Raise e)
  | Ok files =>
      if (length files =? 0)%nat then
        ([], Raise (ValueError ("Error: No image files found in " ++ image_folder ++ ".")))
      else
        let '(features, out) := extract_loop files in
        let printed := Processing (length files) image_folder :: out in
        if (length features =? 0)%nat then
          (printed,
           Raise (ValueError ("Error: Unable to extract features from " ++ image_folder
                                ++ ". Check for corrupted images.")))
        else (printed, Ok (np_concatenate features))
  end.

(** *** The specification's reading *)

(** The feature rows of the files that decode, in order, and the files
    that do not. *)
Definition decoded (files : list string) : list (list Qc) :=
flat_map (fun p => match featurize p with Some feat => [feat] | None => [] end) files.

Definition undecodable (files : list string) : list string :=
filter (fun p => match featurize p with Some _ => false | None => true end) files.

End Extract.







(** A folder and a decoder for examples: two image files and a text
    file, the first image being unreadable. *)
Definition example_images : list node := [File "a.PNG"; File "b.jpg"; File "c.txt"].
Definition example_featurize (img_path : string) : option (list Qc) :=
  if String.eqb img_path "d/a.PNG" then None else Some [of_Z 1; of_Z 2].


(** A folder with images at three depths: an image and a text file at the
    top, and a subdirectory holding an image, a text file and a deeper
    subdirectory with one more image. *)
Definition example_nested : list node :=
[File "a.PNG"; File "notes.txt";
 Dir "sub" [File "b.Jpeg"; File "c.txt"; Dir "deep" [File "d.jpg"]]].

End FeatureExtraction.

(** ** Distances between feature sets: [calculate_fid], [calculate_kid] *)

Module Distance.

Import FeatureExtraction.
Open Scope Qc_scope.

(** A 2-D array of floats, by rows. *)
Definition array2 := list (list Qc).

(** [a.shape[0]] and [a.shape[1]] of a non-empty array. *)
Definition shape0 (a : array2) : nat := length a.
Definition shape1 (a : array2) : nat := length (hd [] a).

(** [a.T] *)
Definition np_T (a : array2) : array2 :=
  map (fun j => map (fun r => nth j r 0) a) (seq 0 (shape1 a)).

(** [u @ v] for two vectors. *)
Definition vdot (u v : list Qc) : Qc := qsum (map2 Qcmult u v).

(** [np.dot(a, b)] and [a @ b] for 2-D arrays: rows of [a] against
    columns of [b]. *)
Definition np_dot (a b : array2) : array2 :=
  map (fun r => map (vdot r) (np_T b)) a.

(** Element-wise operations. *)
Definition ew (f : Qc -> Qc) (a : array2) : array2 := map (map f) a.
Definition ew2 (f : Qc -> Qc -> Qc) (a b : array2) : array2 := map2 (map2 f) a b.

(** [a.sum()] and [np.trace(a)] *)
Definition np_sum (a : array2) : Qc := qsum (map qsum a).
Definition np_trace (a : array2) : Qc :=
  qsum (map (fun i => nth i (nth i a []) 0) (seq 0 (Nat.min (shape0 a) (shape1 a)))).

(** [a.mean(axis=0)] *)
Definition mean_axis0 (a : array2) : list Qc :=
  map (fun col => qsum col / of_nat (shape0 a)) (np_T a).

(** [np.cov(m, rowvar=False)] with numpy's defaults ([bias=False], so
    [ddof = 1]): the array is transposed to one row per variable, the
    row averages are subtracted, and the product with the transpose is
    scaled by [1 / fact], [fact = N - ddof].  With [fact <= 0] numpy
    fills the result with NaN, and for a single variable [squeeze]
    leaves a 0-d array; neither is a 2-D array of numbers: [None]. *)
Definition np_cov (m : array2) : option array2 :=
  let X := np_T m in
  let ddof := 1%Z in
  let fact := (Z.of_nat (shape1 X) - ddof)%Z in
  if ((fact <=? 0)%Z || (shape0 X <=? 1)%nat)%bool then None
  else
    let avg := map (fun r => qsum r / of_nat (shape1 X)) X in
    let X := map2 (fun r a => map (fun v => v - a) r) X avg in
    let X_T := np_T X in
    let c := np_dot X X_T in
    Some (ew (fun v => v * (1 / of_Z fact)) c).

(** What [scipy.linalg.sqrtm] returns: an array of real or of complex
    dtype, the latter by its real and imaginary parts. *)
Inductive sqrtm_array : Type :=
| RealArray (re : array2)
| ComplexArray (re im : array2).

(** [np.iscomplexobj(a)]; [a.real]; and the real parts of the entries,
    which for an array of real dtype are its entries. *)
Definition np_iscomplexobj (a : sqrtm_array) : bool :=
  match a with RealArray _ => false | ComplexArray _ _ => true end.
Definition np_real (a : sqrtm_array) : sqrtm_array :=
  match a with RealArray re => RealArray re | ComplexArray re _ => RealArray re end.
Definition real_part (a : sqrtm_array) : array2 :=
  match a with RealArray re => re | ComplexArray re _ => re end.

(** *** The specification's reading of the Gaussian summary *)

(** An [n] by [d] array. *)
Definition rect (n d : nat) (a : array2) : Prop :=
  length a = n /\ Forall (fun r => length r = d) a.

(** Feature [j] of every row, and the mean of a list of numbers. *)
Definition feature (m : array2) (j : nat) : list Qc := map (fun r => nth j r 0) m.
Definition mean (l : list Qc) : Qc := qsum l / of_nat (length l).

(** The covariance of features [i] and [j] over the rows of [m], the
    rows being the observations, for a given divisor. *)
Definition covariance (divisor : Qc) (m : array2) (i j : nat) : Qc :=
  qsum (map (fun r => (nth i r 0 - mean (feature m i)) * (nth j r 0 - mean (feature m j))) m)
  / divisor.

Definition covariance_matrix (divisor : Qc) (m : array2) : array2 :=
  map (fun i => map (fun j => covariance divisor m i j) (seq 0 (shape1 m))) (seq 0 (shape1 m)).

(** Divisor N: the population covariance.  Divisor N - 1: the sample
    covariance. *)
Definition population_covariance (m : array2) : array2 :=
  covariance_matrix (of_nat (shape0 m)) m.
Definition sample_covariance (m : array2) : array2 :=
  covariance_matrix (of_nat (shape0 m) - 1) m.

Definition mean_vector (m : array2) : list Qc :=
  map (fun j => mean (feature m j)) (seq 0 (shape1 m)).

(** [||mu1 - mu2||^2 + trace(sigma1 + sigma2 - 2 root)] for [d]
    features, entry by entry. *)
Definition frechet (d : nat) (mu1 mu2 : list Qc) (sigma1 sigma2 root : array2) : Qc :=
  let entry := fun (a : array2) i => nth i (nth i a []) 0 in
  qsum (map (fun i => (nth i mu1 0 - nth i mu2 0) ^ 2) (seq 0 d))
  + qsum (map (fun i => entry sigma1 i + entry sigma2 i - of_Z 2 * entry root i) (seq 0 d)).

(** Every row of [a] moved by the vector [c]. *)
Definition translate (c : list Qc) (a : array2) : array2 :=
  map (fun r => map2 Qcplus r c) a.

Section Fid.

Variable tree : string -> option (list node).
Variable featurize : string -> option (list Qc).

(** [scipy.linalg.sqrtm(a, disp=False)[0]] *)
Variable sqrtm : array2 -> sqrtm_array.

(** Lines 73-86: the score from the two feature matrices.  A
    covariance that is not a 2-D array of numbers makes [@] (0-d
    operand) or [sqrtm] (non-finite input) raise [ValueError]. *)
Definition fid_score (real_features gen_features : array2) : result Qc :=
  let mu_real := mean_axis0 real_features in
  let mu_gen := mean_axis0 gen_features in
  match np_cov real_features, np_cov gen_features with
  | Some sigma_real, Some sigma_gen =>
      let diff := map2 Qcminus mu_real mu_gen in
      let covmean := sqrtm (np_dot sigma_real sigma_gen) in
      let covmean := if np_iscomplexobj covmean then np_real covmean else covmean in
      Ok (vdot diff diff
          + np_trace (ew2 Qcminus (ew2 Qcplus sigma_real sigma_gen)
                                  (ew (fun v => of_Z 2 * v) (real_part covmean))))
  | _, _ => Raise (ValueError "covariance is not a finite 2-D array")
  end.

Definition calculate_fid (real_images_folder gen_images_folder : string) : result Qc :=
  real_features <- snd (extract_features tree featurize real_images_folder true) ;;
  gen_features <- snd (extract_features tree featurize gen_images_folder false) ;;
  fid_score real_features gen_features.

End Fid.

Section Kid.

Variable tree : string -> option (list node).
Variable featurize : string -> option (list Qc).

(** The state of numpy's global random generator, and
    [np.random.choice(a, size, replace=False)] as a function of it:
    [choice g a size] is the index array drawn and the next state. *)
Variable rng : Type.
Variable choice : rng -> nat -> nat -> list nat * rng.

(** [a[idx]]: the rows of [a] at the indices [idx]. *)
Definition take_rows (a : array2) (idx : list nat) : array2 :=
  map (fun i => nth i a []) idx.

(** Lines 127-137: one pass of the loop body, from the generator
    state to the subset estimate and the next state. *)
Definition kid_subset (real_features gen_features : array2) (m n : nat) (g : rng)
  : Qc * rng :=
  let '(idx_real, g) := choice g (shape0 real_features) m in
  let '(idx_gen, g) := choice g (shape0 gen_features) m in
  let x := take_rows gen_features idx_gen in
  let y := take_rows real_features idx_real in
  let poly := fun v => (v / of_nat n + 1) ^ 3 in
  let a := ew2 Qcplus (ew poly (np_dot x (np_T x))) (ew poly (np_dot y (np_T y))) in
  let b := ew poly (np_dot x (np_T y)) in
  let subset_estimate :=
    (np_sum a - np_trace a) / (of_nat m - 1) - of_Z 2 * np_sum b / of_nat m in
  (subset_estimate, g).

(** Lines 124-138: the loop over [range(num_subsets)], adding to [t]. *)
Fixpoint kid_loop (real_features gen_features : array2) (m n : nat)
         (passes : nat) (t : Qc) (g : rng) : Qc * rng :=
  match passes with
  | O => (t, g)
  | S passes' =>
      let '(subset_estimate, g) := kid_subset real_features gen_features m n g in
      kid_loop real_features gen_features m n passes' (t + subset_estimate) g
  end.

(** Lines 113-142: the score from the two feature matrices.  With
    [num_subsets = 0] the division is of the Python float [0.0] by the
    int [0], which raises. *)
Definition kid_score (real_features gen_features : array2)
           (num_subsets max_subset_size : Z) (g : rng) : result Qc :=
  let num_real := Z.of_nat (shape0 real_features) in
  let num_gen := Z.of_nat (shape0 gen_features) in
  let m := Z.min (Z.min num_real num_gen) max_subset_size in
  if (m <? 2)%Z then Raise (ValueError "Not enough samples to compute KID.")
  else
    let n := shape1 real_features in
    let '(t, _) := kid_loop real_features gen_features (Z.to_nat m) n
                            (Z.to_nat num_subsets) 0 g in
    if (num_subsets * m =? 0)%Z then Raise ZeroDivisionError
    else Ok (t / of_Z (num_subsets * m)).

Definition calculate_kid (real_images_folder gen_images_folder : string)
           (num_subsets max_subset_size : Z) (g : rng) : result Qc :=
  real_features <- snd (extract_features tree featurize real_images_folder true) ;;
  gen_features <- snd (extract_features tree featurize gen_images_folder false) ;;
  kid_score real_features gen_features num_subsets max_subset_size g.

(** *** The specification's reading of the subset estimate *)

(** The subset size: [min(|real|, |gen|, max_subset_size)]. *)
Definition subset_size (real_features gen_features : array2) (max_subset_size : Z) : Z :=
  Z.min (Z.min (Z.of_nat (length real_features)) (Z.of_nat (length gen_features)))
        max_subset_size.

(** The specification's formulas, written with indices: [u.v] over [n]
    coordinates and the polynomial kernel [k(u,v) = (u.v / n + 1)^3]. *)
Definition inner_product (n : nat) (u v : list Qc) : Qc :=
  sum_below n (fun k => nth k u 0 * nth k v 0).

Definition polynomial_kernel (n : nat) (u v : list Qc) : Qc :=
  (inner_product n u v / of_nat n + 1) ^ 3.

(** Row [i] of a sample: the row of the feature matrix at the [i]-th
    index drawn. *)
Definition sampled_row (features : array2) (idx : list nat) (i : nat) : list Qc :=
  nth (nth i idx 0%nat) features [].

(** [(sum(a) - trace(a)) / (m - 1) - 2 sum(b) / m] for the [m] by [m]
    kernel matrices [a = K(x,x) + K(y,y)] and [b = K(x,y)] of the
    sampled generated rows [x 0], ..., [x (m - 1)] and the sampled real
    rows [y 0], ..., [y (m - 1)]. *)
Definition subset_estimate (n m : nat) (x y : nat -> list Qc) : Qc :=
  let a := fun i j => polynomial_kernel n (x i) (x j) + polynomial_kernel n (y i) (y j) in
  let b := fun i j => polynomial_kernel n (x i) (y j) in
  let sum := fun (f : nat -> nat -> Qc) => sum_below m (fun i => sum_below m (f i)) in
  let trace := fun (f : nat -> nat -> Qc) => sum_below m (fun i => f i i) in
  (sum a - trace a) / (of_nat m - 1) - of_Z 2 * sum b / of_nat m.

(** *** The same estimate over the sampled arrays *)

(** The polynomial kernel [k(u, v) = (u.v / n + 1)^3]. *)
Definition kernel (n : nat) (u v : list Qc) : Qc := (vdot u v / of_nat n + 1) ^ 3.

(** The estimate from the sampled generated rows [x] and the sampled
    real rows [y], written over the entries of the [m] by [m] kernel
    matrices [a = K(x,x) + K(y,y)] and [b = K(x,y)]:
    [(sum(a) - trace(a)) / (m - 1) - 2 sum(b) / m]. *)
Definition estimate (n m : nat) (x y : array2) : Qc :=
  let at_ := fun (s : array2) i => nth i s [] in
  let a := fun i j => kernel n (at_ x i) (at_ x j) + kernel n (at_ y i) (at_ y j) in
  let b := fun i j => kernel n (at_ x i) (at_ y j) in
  let total := fun (f : nat -> nat -> Qc) =>
    qsum (map (fun i => qsum (map (fun j => f i j) (seq 0 m))) (seq 0 m)) in
  (total a - qsum (map (fun i => a i i) (seq 0 m))) / (of_nat m - 1)
  - of_Z 2 * total b / of_nat m.

(** The index samples of the passes of the loop, in order: for each
    pass the indices into the real set and into the generated set. *)
Fixpoint draws (num_real num_gen m passes : nat) (g : rng) : list (list nat * list nat) :=
  match passes with
  | O => []
  | S passes' =>
      let '(idx_real, g) := choice g num_real m in
      let '(idx_gen, g) := choice g num_gen m in
      (idx_real, idx_gen) :: draws num_real num_gen m passes' g
  end.

(** A size-[m] sample of [0, a) drawn without replacement. *)
Definition sample_without_replacement (a m : nat) (idx : list nat) : Prop :=
  length idx = m /\ NoDup idx /\ Forall (fun i => (i < a)%nat) idx.

End Kid.

(** A sampler the contract of [choice] admits, for running the
    functions on an example: the state is a counter, and the sample is
    the run of [size] consecutive indices at the offset it selects. *)
Definition window_choice (g : nat) (a size : nat) : list nat * nat :=
  (seq (g mod (a - size + 1)) size, S g).

(** For examples: the principal square root of a diagonal matrix whose
    entries are squares of rationals, taken entry by entry. *)
Definition root_entry (q : Qc) : Qc := Q2Qc (Z.sqrt (Qnum q) # Pos.sqrt (Qden q)).
Definition diagonal_sqrtm (a : array2) : sqrtm_array := RealArray (ew root_entry a).

(** The corners of a square of side 2, and of a square of side 4. *)
Definition square_real : array2 :=
  [[of_Z 0; of_Z 0]; [of_Z 2; of_Z 0]; [of_Z 0; of_Z 2]; [of_Z 2; of_Z 2]].
Definition square_gen : array2 :=
  [[of_Z 0; of_Z 0]; [of_Z 4; of_Z 0]; [of_Z 0; of_Z 4]; [of_Z 4; of_Z 4]].

(** Two small feature sets of dimension 2. *)
Definition example_real_features : array2 :=
  [[of_Z 1; of_Z 0]; [of_Z 0; of_Z 1]; [of_Z 1; of_Z 1]].
Definition example_gen_features : array2 :=
  [[of_Z 1; of_Z 0]; [of_Z 0; of_Z 2]].

Arguments kid_subset {rng} choice real_features gen_features m n g.
Arguments kid_loop {rng} choice real_features gen_features m n passes t g.
Arguments kid_score {rng} choice real_features gen_features num_subsets max_subset_size g.
Arguments calculate_kid tree featurize {rng} choice real_images_folder gen_images_folder
  num_subsets max_subset_size g.
Arguments draws {rng} choice num_real num_gen m passes g.

End Distance.

(** ** Face verification: [compute_fvv] *)

Module FaceVerification.

Open Scope Qc_scope.

(** An image with one value per pixel, and one with a list of channel
    values per pixel, both by rows.  Pixel values are integers. *)
Definition gray_image := list (list Z).
Definition rgb_image := list (list (list Z)).

(** [np.stack((img,) * 3, axis=-1)]: every pixel becomes three channels
    holding its value. *)
Definition np_stack3 (img : gray_image) : rgb_image :=
  map (map (fun v => [v; v; v])) img.

(** [a.astype(np.uint8)] on integers: the value modulo 256. *)
Definition astype_uint8 (img : rgb_image) : rgb_image :=
  map (map (map (fun v => v mod 256)%Z)) img.

Section Fvv.

(** [face_recognition.face_encodings]: one embedding per face found in
    the image, none when no face is found. *)
Variable face_encodings : rgb_image -> list (list Qc).

(** The square root inside [np.linalg.norm]. *)
Variable sqrt : Qc -> Qc.

(** [np.linalg.norm(v)] for a vector. *)
Definition np_linalg_norm (v : list Qc) : Qc := sqrt (qsum (map (fun x => x * x) v)).

(** The loop over [image_pairs]: the list [distances] it builds. *)
Fixpoint fvv_distances (image_pairs : list (rgb_image * gray_image)) : list Qc :=
  match image_pairs with
  | [] => []
  | (img1, img2) :: rest =>
      let img2 := astype_uint8 (np_stack3 img2) in
      let encodings1 := face_encodings img1 in
      let encodings2 := face_encodings img2 in
      match encodings1, encodings2 with
      | embedding1 :: _, embedding2 :: _ =>
          let distance := np_linalg_norm (map2 Qcminus embedding1 embedding2) in
          distance :: fvv_distances rest
      | _, _ => fvv_distances rest
      end
  end.

Definition compute_fvv (image_pairs : list (rgb_image * gray_image)) : result Qc :=
  let distances := fvv_distances image_pairs in
  if (length distances =? 0)%nat
  then Raise (ValueError "No valid face pairs for comparison.")
  else Ok (qsum distances / of_nat (length distances)).

(** *** Reading aids for the properties *)

(** A pair in which a face is found in both images. *)
Definition both_faces (p : rgb_image * gray_image) : bool :=
  match face_encodings (fst p), face_encodings (astype_uint8 (np_stack3 (snd p))) with
  | _ :: _, _ :: _ => true
  | _, _ => false
  end.

(** The distance between the first faces of a pair. *)
Definition first_face_distance (p : rgb_image * gray_image) : Qc :=
  np_linalg_norm
    (map2 Qcminus (hd [] (face_encodings (fst p)))
                  (hd [] (face_encodings (astype_uint8 (np_stack3 (snd p)))))).

End Fvv.

(** An encoder and a root for examples: a face is found where the top
    left pixel is not black, its embedding being that pixel;
    the root is taken of squares of rationals. *)
Definition example_face_encodings (img : rgb_image) : list (list Qc) :=
  match img with
  | (px :: _) :: _ => if (hd 0 px =? 0)%Z then [] else [map of_Z px]
  | _ => []
  end.
Definition example_sqrt (q : Qc) : Qc := Q2Qc (Z.sqrt (Qnum q) # Pos.sqrt (Qden q)).

End FaceVerification.

(** * Theorems *)

(** ** Arithmetic of the number model *)

Lemma of_nat_S (n : nat) : of_nat (S n) = (of_nat n + 1)%Qc.
Proof.
  unfold of_nat, of_Z, Qcplus. apply Qc_is_canon. cbn [this Q2Qc].
  rewrite !Qred_correct, Nat2Z.inj_succ. unfold Z.succ.
  rewrite inject_Z_plus. reflexivity.
Qed.

Lemma Real_eq (q q' : Qc) : (this q == this q')%Q -> Real q = Real q'.
Proof. intros H. f_equal. apply Qc_is_canon. exact H. Qed.

Lemma filter_none {A : Type} (f : A -> bool) (l : list A) :
  (forall x, In x l -> f x = false) -> filter f l = [].
Proof.
  induction l as [|a l IH]; intros H; [reflexivity|].
  simpl. rewrite (H a (or_introl eq_refl)). apply IH.
  intros x Hx. apply H. right. exact Hx.
Qed.

(** ** Lists indexed by [seq] *)

Lemma seq_from (a n : nat) : seq a n = map (fun r => (a + r)%nat) (seq 0 n).
Proof.
  revert a. induction n as [|n IH]; intros a; [reflexivity|].
  simpl. rewrite Nat.add_0_r. f_equal.
  rewrite (IH (S a)), (IH 1%nat), map_map. apply map_ext. intros r. lia.
Qed.

Lemma seq_blocks (B M : nat) :
  seq 0 (B * M) = flat_map (fun b => map (fun r => (b * M + r)%nat) (seq 0 M)) (seq 0 B).
Proof.
  induction B as [|B IH]; [reflexivity|].
  rewrite seq_S, flat_map_app. simpl flat_map. rewrite app_nil_r, <- IH.
  replace (S B * M)%nat with (B * M + M)%nat by lia.
  rewrite seq_app. simpl Nat.add. rewrite (seq_from (B * M)). reflexivity.
Qed.

Lemma nth_map_seq {A : Type} (f : nat -> A) (d : A) (n k : nat) :
  (k < n)%nat -> nth k (map f (seq 0 n)) d = f k.
Proof.
  intros H. rewrite nth_indep with (d' := f 0%nat) by (rewrite length_map, length_seq; lia).
  rewrite map_nth, seq_nth by lia. reflexivity.
Qed.

Lemma map_nth_seq {A : Type} (l : list A) (d : A) :
  map (fun i => nth i l d) (seq 0 (length l)) = l.
Proof.
  induction l as [|a l IH]; [reflexivity|].
  cbn [length seq map nth]. f_equal.
  rewrite (seq_from 1), map_map. exact IH.
Qed.

Lemma map2_map_map {A B C D : Type} (f : B -> C -> D) (g : A -> B) (h : A -> C) (l : list A) :
  map2 f (map g l) (map h l) = map (fun x => f (g x) (h x)) l.
Proof. induction l as [|a l IH]; simpl; [reflexivity|]. rewrite IH. reflexivity. Qed.

Lemma qsum_cons (x : Qc) (l : list Qc) : qsum (x :: l) = (x + qsum l)%Qc.
Proof. reflexivity. Qed.

Lemma qsum_map_scale (A : Type) (f : A -> Qc) (c : Qc) (l : list A) :
  qsum (map (fun a => f a * c)%Qc l) = (qsum (map f l) * c)%Qc.
Proof.
  induction l as [|a l IH]; cbn [map]; rewrite ?qsum_cons.
  - unfold qsum. simpl. ring.
  - rewrite IH. ring.
Qed.

Lemma qsum_app (l l' : list Qc) : qsum (l ++ l') = (qsum l + qsum l')%Qc.
Proof.
  induction l as [|a l IH]; cbn [app]; rewrite ?qsum_cons.
  - change (qsum []) with (Q2Qc 0). ring.
  - rewrite IH. ring.
Qed.

(** ** Sums written with indices *)

Lemma sum_below_ext (n : nat) (f g : nat -> Qc) :
  (forall k, (k < n)%nat -> f k = g k) -> sum_below n f = sum_below n g.
Proof.
  induction n as [|n IH]; intros H; [reflexivity|].
  cbn [sum_below]. rewrite IH, H by (intros; try apply H; lia). reflexivity.
Qed.

Lemma qsum_seq_sum_below (f : nat -> Qc) (n : nat) :
  qsum (map f (seq 0 n)) = sum_below n f.
Proof.
  induction n as [|n IH]; [reflexivity|].
  rewrite seq_S, map_app, qsum_app, IH. cbn [map Nat.add sum_below]. rewrite qsum_cons.
  change (qsum []) with (Q2Qc 0). ring.
Qed.

Lemma qsum_map_sum_below {A : Type} (f : A -> Qc) (d : A) (l : list A) :
  qsum (map f l) = sum_below (length l) (fun k => f (nth k l d)).
Proof.
  rewrite <- qsum_seq_sum_below. rewrite <- (map_nth_seq l d) at 1.
  rewrite map_map. reflexivity.
Qed.

Lemma flat_map_map {A B C : Type} (f : A -> B) (g : B -> list C) (l : list A) :
  flat_map g (map f l) = flat_map (fun a => g (f a)) l.
Proof. induction l as [|a l IH]; [reflexivity|]. cbn [map flat_map]. rewrite IH. reflexivity. Qed.

Lemma map_flat_map {A B C : Type} (f : B -> C) (g : A -> list B) (l : list A) :
  map f (flat_map g l) = flat_map (fun a => map f (g a)) l.
Proof.
  induction l as [|a l IH]; [reflexivity|].
  cbn [flat_map]. rewrite map_app, IH. reflexivity.
Qed.

(** The pairs of two lists of one length, by index. *)
Lemma combine_by_index {A B : Type} (d : A) (d' : B) (l : list A) (l' : list B) :
  length l = length l' ->
  combine l l' = map (fun j => (nth j l d, nth j l' d')) (seq 0 (length l)).
Proof.
  intros H. rewrite <- (map_nth_seq (combine l l') (d, d')) at 1.
  rewrite length_combine, <- H, Nat.min_id. apply map_ext. intros j.
  apply combine_nth. exact H.
Qed.

Lemma nth_combine {A B : Type} (d : A) (d' : B) (l : list A) (l' : list B) (k : nat) :
  (k < Nat.min (length l) (length l'))%nat ->
  nth k (combine l l') (d, d') = (nth k l d, nth k l' d').
Proof.
  revert l' k. induction l as [|a l IH]; intros [|b l'] k H; cbn [length] in H; try lia.
  destruct k as [|k]; [reflexivity|]. cbn [combine nth]. apply IH. lia.
Qed.

(** ** Mean IoU *)

Module MeanIoU_Facts.

Import MeanIoU.

Lemma count_app {A : Type} (f : A -> bool) (l l' : list A) :
  count f (l ++ l') = count f l + count f l'.
Proof. unfold count. rewrite filter_app, length_app. lia. Qed.

Lemma count_cons {A : Type} (f : A -> bool) (a : A) (l : list A) :
  count f (a :: l) = (if f a then 1 else 0) + count f l.
Proof. unfold count. simpl. destruct (f a); simpl length; lia. Qed.

(** Counting the [True] entries of a combined mask row is counting the
    label pairs that satisfy the combined test. *)
Lemma row_sum_count (op : bool -> bool -> bool) (c : Z) (r r' : list Z) :
  fold_right (fun (b : bool) s => (if b then 1 else 0) + s) 0
             (map2 op (map (fun v => v =? c) r) (map (fun v => v =? c) r'))
  = count (fun '(a, b) => op (a =? c) (b =? c)) (combine r r').
Proof.
  revert r'. induction r as [|a r IH]; intros [|b r']; simpl; try reflexivity.
  rewrite count_cons, IH. reflexivity.
Qed.

Lemma tensor_sum_count (op : bool -> bool -> bool) (c : Z) (p t : grid) :
  tensor_sum (map2 (map2 op) (tensor_eq p c) (tensor_eq t c))
  = count (fun '(a, b) => op (a =? c) (b =? c)) (pixels p t).
Proof.
  unfold pixels, tensor_eq. revert t.
  induction p as [|r p IH]; intros [|r' t]; simpl; try reflexivity.
  rewrite count_app, <- IH, <- row_sum_count. reflexivity.
Qed.

Lemma intersection_overlap (p t : grid) (c : Z) :
  intersection p t c = fst (overlap p t c).
Proof. apply (tensor_sum_count andb). Qed.

Lemma union_overlap (p t : grid) (c : Z) :
  union p t c = snd (overlap p t c).
Proof. apply (tensor_sum_count orb). Qed.

Lemma iou_overlap (p t : grid) (c : Z) :
  iou p t c = if snd (overlap p t c) =? 0 then NaN else Real (class_score p t c).
Proof.
  unfold iou, class_score. rewrite intersection_overlap, union_overlap. reflexivity.
Qed.

(** The entries [np.nanmean] keeps are the scores of the classes with a
    non-empty union, in class order. *)
Lemma kept_scores (p t : grid) (cs : list Z) :
  flat_map (fun x => match x with Real q => [q] | NaN => [] end) (map (iou p t) cs)
  = map (class_score p t) (filter (fun c => negb (snd (overlap p t c) =? 0)) cs).
Proof.
  induction cs as [|c cs IH]; [reflexivity|].
  cbn [map flat_map filter]. rewrite iou_overlap, IH.
  destruct (snd (overlap p t c) =? 0); reflexivity.
Qed.

Lemma compute_miou_mean_defined (p t : grid) (C : Z) :
  compute_miou p t C = mean_defined_iou p t C.
Proof.
  unfold compute_miou, np_nanmean, mean_defined_iou, defined_classes.
  rewrite kept_scores.
  destruct (filter _ (range C)) as [|c cs]; [reflexivity|].
  cbn [map length]. rewrite length_map. reflexivity.
Qed.

Lemma in_range (c C : Z) : In c (range C) <-> 0 <= c < C.
Proof.
  unfold range. rewrite in_map_iff. split.
  - intros [n [<- Hn]]. apply in_seq in Hn. lia.
  - intros H. exists (Z.to_nat c). split; [lia|]. apply in_seq. lia.
Qed.

(** The positions of a grid with one more row in front. *)
Lemma positions_cons (r : list Z) (g : grid) :
  positions (r :: g)
  = map (fun j => (0%nat, j)) (seq 0 (length r))
    ++ map (fun ij => (S (fst ij), snd ij)) (positions g).
Proof.
  unfold positions. cbn [length seq flat_map nth]. f_equal.
  rewrite <- seq_shift, flat_map_map, map_flat_map. apply flat_map_ext. intros i.
  cbn [nth]. rewrite map_map. reflexivity.
Qed.

(** On grids of one shape the label pairs the element-wise operations
    meet are the labels of the two grids at each position. *)
Lemma pixels_positions (p t : grid) :
  same_shape p t ->
  pixels p t = map (fun ij => (label_at p ij, label_at t ij)) (positions p).
Proof.
  unfold same_shape, pixels. revert t.
  induction p as [|r p IH]; intros [|r' t] H; try discriminate H; [reflexivity|].
  cbn [map] in H. injection H as Hr Hp.
  cbn [map2 concat]. rewrite positions_cons, map_app, !map_map. f_equal.
  - rewrite (combine_by_index 0 0 r r' Hr). reflexivity.
  - rewrite (IH t Hp). reflexivity.
Qed.

Lemma count_map {A B : Type} (f : B -> bool) (g : A -> B) (l : list A) :
  count f (map g l) = Z.of_nat (length (filter (fun a => f (g a)) l)).
Proof.
  unfold count. f_equal. induction l as [|a l IH]; [reflexivity|].
  cbn [map filter]. destruct (f (g a)); cbn [length]; rewrite IH; reflexivity.
Qed.

Lemma overlap_sizes (p t : grid) (c : Z) :
  same_shape p t -> overlap p t c = (intersection_size p t c, union_size p t c).
Proof.
  intros H. unfold overlap, intersection_size, union_size.
  rewrite (pixels_positions p t H), !count_map. reflexivity.
Qed.

Lemma intersection_by_position (p t : grid) (c : Z) :
  same_shape p t -> intersection p t c = intersection_size p t c.
Proof. intros H. rewrite intersection_overlap, (overlap_sizes p t c H). reflexivity. Qed.

Lemma union_by_position (p t : grid) (c : Z) :
  same_shape p t -> union p t c = union_size p t c.
Proof. intros H. rewrite union_overlap, (overlap_sizes p t c H). reflexivity. Qed.

Lemma iou_by_position (p t : grid) (c : Z) :
  same_shape p t ->
  iou p t c = if union_size p t c =? 0 then NaN
              else Real (of_Z (intersection_size p t c) / of_Z (union_size p t c))%Qc.
Proof.
  intros H. unfold iou.
  rewrite (intersection_by_position p t c H), (union_by_position p t c H). reflexivity.
Qed.

Lemma defined_classes_present (p t : grid) (C : Z) :
  same_shape p t -> defined_classes p t C = classes_present p t C.
Proof.
  intros H. unfold defined_classes, classes_present, range. apply filter_ext. intros c.
  rewrite (overlap_sizes p t c H). reflexivity.
Qed.

Lemma compute_miou_mean_iou (p t : grid) (C : Z) :
  same_shape p t -> compute_miou p t C = mean_iou p t C.
Proof.
  intros H. rewrite compute_miou_mean_defined. unfold mean_defined_iou, mean_iou.
  rewrite (defined_classes_present p t C H).
  destruct (classes_present p t C) as [|c cs] eqn:Hcs; [reflexivity|].
  f_equal. f_equal. rewrite (qsum_map_sum_below (class_score p t) 0).
  apply sum_below_ext. intros k _. unfold class_score.
  rewrite (overlap_sizes p t _ H). reflexivity.
Qed.

Lemma classes_present_nil (p t : grid) (C : Z) :
  classes_present p t C = [] <-> forall c, 0 <= c < C -> union_size p t c = 0.
Proof.
  unfold classes_present. fold (range C). split.
  - intros Hnil c Hc. apply in_range in Hc.
    destruct (Z.eqb_spec (union_size p t c) 0) as [Hz|Hz]; [exact Hz|].
    assert (Hin : In c (filter (fun c => negb (union_size p t c =? 0)) (range C))).
    { apply filter_In. split; [exact Hc|]. destruct (Z.eqb_spec (union_size p t c) 0); [lia|].
      reflexivity. }
    rewrite Hnil in Hin. contradiction.
  - intros Hall. apply filter_none. intros c Hc. apply in_range in Hc.
    rewrite (Hall c Hc). reflexivity.
Qed.

Lemma classes_present_next (p t : grid) (C : Z) :
  0 <= C -> union_size p t C = 0 -> classes_present p t (C + 1) = classes_present p t C.
Proof.
  intros HC Hz. unfold classes_present.
  replace (Z.to_nat (C + 1)) with (S (Z.to_nat C)) by lia.
  rewrite seq_S, map_app, filter_app. cbn [Nat.add map filter].
  rewrite Z2Nat.id by exact HC. rewrite Hz. cbn [Z.eqb negb]. apply app_nil_r.
Qed.

(** C4. For label grids of one shape and a class count [C]: the two
    counts the code takes for a class are the numbers of positions at
    which both grids, and at which at least one of the grids, carry
    the label of the class; the score of a class is the quotient
    intersection/union of these numbers, or NaN when the union is
    empty; the result is the mean of the quotients over the classes of
    [0, C) with a non-empty union only; it is NaN exactly when every
    class of [0, C) has an empty union; and a further class with an
    empty union leaves the result as it is, counting neither as 0 nor
    as 1. *)
Theorem miou_ignores_undefined_classes (pred_masks true_masks : grid) (C : Z)
  (Hshape : same_shape pred_masks true_masks) :
  (forall c, intersection pred_masks true_masks c = intersection_size pred_masks true_masks c
             /\ union pred_masks true_masks c = union_size pred_masks true_masks c
             /\ iou pred_masks true_masks c
                = if union_size pred_masks true_masks c =? 0 then NaN
                  else Real (of_Z (intersection_size pred_masks true_masks c)
                             / of_Z (union_size pred_masks true_masks c))%Qc)
  /\ compute_miou pred_masks true_masks C = mean_iou pred_masks true_masks C
  /\ (compute_miou pred_masks true_masks C = NaN
      <-> forall c, 0 <= c < C -> union_size pred_masks true_masks c = 0)
  /\ (0 <= C -> union_size pred_masks true_masks C = 0 ->
      compute_miou pred_masks true_masks (C + 1) = compute_miou pred_masks true_masks C).
Proof.
  split; [|split; [|split]].
  - intros c. split; [apply intersection_by_position; exact Hshape|].
    split; [apply union_by_position; exact Hshape | apply iou_by_position; exact Hshape].
  - apply compute_miou_mean_iou. exact Hshape.
  - rewrite (compute_miou_mean_iou _ _ _ Hshape), <- classes_present_nil.
    unfold mean_iou. destruct (classes_present pred_masks true_masks C); split; intros H;
      try reflexivity; discriminate H.
  - intros HC Hz. rewrite !(compute_miou_mean_iou _ _ _ Hshape). unfold mean_iou.
    rewrite (classes_present_next _ _ _ HC Hz). reflexivity.
Qed.

(** The theorem at the grids of the worked example, where a third
    class occurs in neither grid. *)
Lemma miou_ignores_undefined_classes_witness :
  same_shape [[0; 1]; [1; 1]] [[0; 0]; [1; 1]]
  /\ compute_miou [[0; 1]; [1; 1]] [[0; 0]; [1; 1]] 2
     = mean_iou [[0; 1]; [1; 1]] [[0; 0]; [1; 1]] 2
  /\ (0 <= 2 -> union_size [[0; 1]; [1; 1]] [[0; 0]; [1; 1]] 2 = 0 ->
      compute_miou [[0; 1]; [1; 1]] [[0; 0]; [1; 1]] (2 + 1)
      = compute_miou [[0; 1]; [1; 1]] [[0; 0]; [1; 1]] 2).
Proof.
  assert (Hshape : same_shape [[0; 1]; [1; 1]] [[0; 0]; [1; 1]]) by reflexivity.
  split; [exact Hshape|].
  pose proof (miou_ignores_undefined_classes [[0; 1]; [1; 1]] [[0; 0]; [1; 1]] 2 Hshape) as H.
  exact (conj (proj1 (proj2 H)) (proj2 (proj2 (proj2 H)))).
Defined.

(** C9. On pred = [[0,1],[1,1]], true = [[0,0],[1,1]] and C = 2 the
    code finds intersection 1 and union 2 for class 0 (IoU 1/2),
    intersection 2 and union 3 for class 1 (IoU 2/3), and returns their
    mean 7/12. *)
Theorem miou_worked_example :
  let pred_masks := [[0; 1]; [1; 1]] in
  let true_masks := [[0; 0]; [1; 1]] in
  intersection pred_masks true_masks 0 = 1
  /\ union pred_masks true_masks 0 = 2
  /\ iou pred_masks true_masks 0 = Real (of_Z 1 / of_Z 2)%Qc
  /\ intersection pred_masks true_masks 1 = 2
  /\ union pred_masks true_masks 1 = 3
  /\ iou pred_masks true_masks 1 = Real (of_Z 2 / of_Z 3)%Qc
  /\ compute_miou pred_masks true_masks 2 = Real (of_Z 7 / of_Z 12)%Qc.
Proof.
  cbv zeta. repeat split; try reflexivity; apply Real_eq; vm_compute; reflexivity.
Qed.

(** A class that occurs in neither grid changes nothing: with a third
    class the mean is still taken over the two classes present.  With
    no class of [0, C) present there is nothing to average. *)
Example miou_absent_class :
  compute_miou [[0; 1]; [1; 1]] [[0; 0]; [1; 1]] 3 = Real (of_Z 7 / of_Z 12)%Qc
  /\ compute_miou [[5; 5]] [[5; 5]] 2 = NaN.
Proof. split; [apply Real_eq; vm_compute; reflexivity | reflexivity]. Qed.

End MeanIoU_Facts.

(** ** Average precision *)

Module AveragePrecision_Facts.

Import AveragePrecision.
Open Scope Qc_scope.

Lemma cumsum_from_count (f : Z -> bool) (acc : Qc) (l : list Z) :
  cumsum_from acc (map (indicator f) l)
  = map (fun k => acc + of_nat (length (filter f (firstn (S k) l)))) (seq 0 (length l)).
Proof.
  revert acc. induction l as [|a l IH]; intros acc; [reflexivity|].
  cbn [map cumsum_from length seq]. rewrite IH. f_equal.
  - cbn [firstn filter]. unfold indicator. destruct (f a); cbn [length].
    + rewrite of_nat_S. reflexivity.
    + reflexivity.
  - rewrite (seq_from 1), map_map. apply map_ext. intros k.
    cbn [Nat.add firstn filter]. unfold indicator. destruct (f a); cbn [length].
    + rewrite (of_nat_S (length _)). ring.
    + ring.
Qed.

Lemma of_nat_0 : of_nat 0 = 0.
Proof. apply Qc_is_canon. reflexivity. Qed.

Lemma torch_cumsum_count (f : Z -> bool) (l : list Z) :
  torch_cumsum (map (indicator f) l)
  = map (fun k => of_nat (length (filter f (firstn (S k) l)))) (seq 0 (length l)).
Proof.
  unfold torch_cumsum. rewrite cumsum_from_count. apply map_ext. intros k. ring.
Qed.

Lemma qsum_indicator (f : Z -> bool) (l : list Z) :
  qsum (map (indicator f) l) = of_nat (length (filter f l)).
Proof.
  induction l as [|a l IH]; cbn [map filter]; rewrite ?qsum_cons.
  - symmetry. apply of_nat_0.
  - rewrite IH. unfold indicator. destruct (f a); cbn [length].
    + rewrite of_nat_S. ring.
    + ring.
Qed.

Lemma filter_length_perm {A : Type} (f : A -> bool) (l l' : list A) :
  Permutation l l' -> length (filter f l) = length (filter f l').
Proof.
  induction 1 as [|x l l' _ IH|x y l|l l' l'' _ IH1 _ IH2]; cbn [filter].
  - reflexivity.
  - destruct (f x); cbn [length]; congruence.
  - destruct (f x), (f y); reflexivity.
  - congruence.
Qed.

Lemma perm_in_range (idx : list nat) (n : nat) :
  Permutation idx (seq 0 n) -> forallb (fun i => (i <? n)%nat) idx = true.
Proof.
  intros H. apply forallb_forall. intros i Hi. apply Nat.ltb_lt.
  apply (Permutation_in _ H) in Hi. apply in_seq in Hi. lia.
Qed.

(** Re-indexing a list along a permutation of its indices permutes it. *)
Lemma reindex_perm {A : Type} (d : A) (l : list A) (idx : list nat) :
  Permutation idx (seq 0 (length l)) -> Permutation (map (fun i => nth i l d) idx) l.
Proof.
  intros H. apply Permutation_trans with (map (fun i => nth i l d) (seq 0 (length l))).
  - apply Permutation_map. exact H.
  - rewrite map_nth_seq. apply Permutation_refl.
Qed.

Lemma trapz_seq (y x : nat -> Qc) (n : nat) :
  torch_trapz (map y (seq 0 n)) (map x (seq 0 n)) = trapezoid y x n.
Proof.
  unfold torch_trapz, trapezoid.
  assert (Htl : forall f : nat -> Qc,
             tl (map f (seq 0 n)) = map (fun k => f (S k)) (seq 0 (n - 1))).
  { intros f. destruct n as [|n]; [reflexivity|].
    replace (S n - 1)%nat with n by lia.
    cbn [seq map tl]. rewrite (seq_from 1), map_map. reflexivity. }
  assert (Hrl : forall f : nat -> Qc,
             removelast (map f (seq 0 n)) = map f (seq 0 (n - 1))).
  { intros f. destruct n as [|n]; [reflexivity|].
    replace (S n - 1)%nat with n by lia.
    rewrite seq_S, map_app. cbn [map Nat.add]. rewrite removelast_last. reflexivity. }
  rewrite !Htl, !Hrl, !map2_map_map.
  unfold Qcdiv. rewrite <- qsum_map_scale. f_equal.
  apply map_ext. intros k. ring.
Qed.

Lemma map_seq_blocks {A : Type} (g : nat -> A) (B M : nat) :
  map g (seq 0 (B * M))
  = flat_map (fun b => map (fun r => g (b * M + r)%nat) (seq 0 M)) (seq 0 B).
Proof.
  rewrite seq_blocks, map_flat_map. apply flat_map_ext. intros b.
  rewrite map_map. reflexivity.
Qed.

(** Column [c] of the permuted and reshaped tensor lists the
    probabilities of class [c] pixel by pixel. *)
Lemma permute_reshape_ok (pred : tensor Qc) (B C H W : nat) :
  shape pred = [B; C; H; W] -> (0 < C)%nat ->
  exists m,
    permute_reshape pred = Ok m
    /\ length (rows m) = (B * (H * W))%nat
    /\ forall c, (c < C)%nat -> column m c = class_probs pred c.
Proof.
  intros Hs HC. unfold permute_reshape, class_probs. rewrite Hs.
  destruct (Nat.eqb_spec C 0); [lia|].
  eexists. split; [reflexivity|]. cbn [rows]. split.
  { rewrite length_map, length_seq. reflexivity. }
  intros c Hc.
  unfold column, pixel_coords. cbn [rows]. rewrite map_map.
  erewrite map_ext; [| intros p; rewrite nth_map_seq by exact Hc; reflexivity].
  rewrite (map_seq_blocks
             (fun p => nth (((p / (H * W)) * C + c) * (H * W) + p mod (H * W))%nat
                           (data pred) 0)), map_flat_map.
  apply flat_map_ext. intros b.
  rewrite map_flat_map.
  rewrite (map_ext_in _ (fun r => nth ((b * C + c) * (H * W) + r)%nat (data pred) 0)).
  2:{ intros r Hr. apply in_seq in Hr.
      assert (Hpos : (H * W <> 0)%nat) by lia.
      rewrite (Nat.add_comm (b * (H * W)) r), Nat.div_add, Nat.Div0.mod_add by exact Hpos.
      rewrite Nat.div_small, Nat.mod_small by lia. reflexivity. }
  rewrite map_seq_blocks. apply flat_map_ext. intros h.
  rewrite map_map. apply map_ext. intros w. f_equal. ring.
Qed.

(** With every label a class index, the one-hot encoding succeeds and
    its column [c] marks the pixels labelled [c]. *)
Lemma one_hot_ok (labels : list Z) (C : nat) :
  (0 < C)%nat -> Forall (fun l => (0 <= l < Z.of_nat C)%Z) labels ->
  exists m,
    one_hot labels C = Ok m
    /\ size1 m = C
    /\ forall c, (c < C)%nat -> column m c = map (indicator (positive c)) labels.
Proof.
  intros HC Hl. unfold one_hot.
  assert (Hcol : forall c, (c < C)%nat ->
            column (mkMatrix C (map (fun v => map (fun c' => if (v =? Z.of_nat c')%Z then 1 else 0)
                                                 (seq 0 C)) labels)) c
            = map (indicator (positive c)) labels).
  { intros c Hc. unfold column. cbn [rows]. rewrite map_map. apply map_ext. intros v.
    rewrite nth_map_seq by exact Hc. reflexivity. }
  destruct labels as [|l labels].
  - destruct (Nat.eqb_spec C 0); [lia|].
    eexists. split; [reflexivity|]. split; [reflexivity|]. intros c _. reflexivity.
  - replace (existsb (fun v => (v <? 0)%Z) (l :: labels)) with false.
    2:{ symmetry. apply not_true_is_false. intros He. apply existsb_exists in He.
        destruct He as [v [Hin Hv]]. rewrite Forall_forall in Hl. specialize (Hl v Hin). lia. }
    replace (forallb (fun v => (v <? Z.of_nat C)%Z) (l :: labels)) with true.
    2:{ symmetry. apply forallb_forall. intros v Hin.
        rewrite Forall_forall in Hl. specialize (Hl v Hin). lia. }
    eexists. split; [reflexivity|]. split; [reflexivity|]. exact Hcol.
Qed.

Section Pipeline.

Variable argsort : list Qc -> list nat.

(** One class: the arrays the loop body builds are the precision and
    recall of the specification at every rank. *)
Lemma class_curve_spec (real : tensor Z) (pred : tensor Qc)
      (real_one_hot pred_probs : matrix) (c N : nat) :
  column real_one_hot c = map (indicator (positive c)) (data real) ->
  column pred_probs c = class_probs pred c ->
  length (data real) = N ->
  length (class_probs pred c) = N ->
  Permutation (argsort (class_probs pred c)) (seq 0 N) ->
  class_curve argsort real_one_hot pred_probs c
  = Ok (map (precision_at argsort real pred c) (seq 0 N),
        map (recall_at argsort real pred c) (seq 0 N),
        ranked_probs argsort pred c).
Proof.
  intros Hr Hp Hn Hm Hperm. unfold class_curve. rewrite Hr, Hp.
  unfold index_select. rewrite length_map, Hn, Hm, (perm_in_range _ _ Hperm).
  cbn [bind].
  set (idx := argsort (class_probs pred c)) in *.
  assert (Hsorted : map (fun i => nth i (map (indicator (positive c)) (data real)) 0) idx
                    = map (indicator (positive c)) (ranked_labels argsort real pred c)).
  { unfold ranked_labels. fold idx. rewrite map_map. apply map_ext_in. intros i Hi.
    apply (Permutation_in _ Hperm), in_seq in Hi.
    rewrite nth_indep with (d' := indicator (positive c) 0%Z) by (rewrite length_map; lia).
    apply map_nth. }
  rewrite Hsorted.
  assert (Hlen : length (ranked_labels argsort real pred c) = N).
  { unfold ranked_labels. fold idx.
    rewrite length_map, (Permutation_length Hperm), length_seq. reflexivity. }
  assert (Hneg : map (fun r => 1 - r) (map (indicator (positive c))
                                          (ranked_labels argsort real pred c))
                 = map (indicator (fun l => negb (positive c l)))
                       (ranked_labels argsort real pred c)).
  { rewrite map_map. apply map_ext. intros l. unfold indicator.
    destruct (positive c l); cbn [negb]; ring. }
  rewrite Hneg, !torch_cumsum_count, Hlen, map2_map_map, map_map, qsum_indicator.
  assert (Htotal : length (filter (positive c) (ranked_labels argsort real pred c))
                   = total_positives real c).
  { unfold total_positives. apply filter_length_perm.
    unfold ranked_labels. fold idx. apply reindex_perm. rewrite Hn. exact Hperm. }
  rewrite Htotal. reflexivity.
Qed.

(** The loop over the classes. *)
Lemma class_curves_spec (real : tensor Z) (pred : tensor Qc)
      (real_one_hot pred_probs : matrix) (N : nat) (classes : list nat) :
  (forall c, In c classes ->
     class_curve argsort real_one_hot pred_probs c
     = Ok (map (precision_at argsort real pred c) (seq 0 N),
           map (recall_at argsort real pred c) (seq 0 N),
           ranked_probs argsort pred c)) ->
  class_curves argsort real_one_hot pred_probs classes
  = Ok (map (fun c => map (precision_at argsort real pred c) (seq 0 N)) classes,
        map (fun c => map (recall_at argsort real pred c) (seq 0 N)) classes,
        map (ranked_probs argsort pred) classes).
Proof.
  induction classes as [|c classes IH]; intros H; [reflexivity|].
  cbn [class_curves map]. rewrite (H c (or_introl eq_refl)). cbn [bind].
  rewrite IH by (intros c' Hc'; apply H; right; exact Hc'). reflexivity.
Qed.

(** Stacking per-class arrays of one length and averaging over the
    classes gives, at every rank, the mean over the classes. *)
Lemma stack_mean_spec (f : nat -> nat -> Qc) (C N : nat) :
  (0 < C)%nat ->
  stack_mean (map (fun c => map (f c) (seq 0 N)) (seq 0 C))
  = Ok (map (fun k => qsum (map (fun c => f c k) (seq 0 C)) / of_nat C) (seq 0 N)).
Proof.
  intros HC. unfold stack_mean.
  destruct C as [|C]; [lia|].
  change (seq 0 (S C)) with (0%nat :: seq 1 C) at 1. cbn [map].
  change (map (f 0%nat) (seq 0 N) :: map (fun c => map (f c) (seq 0 N)) (seq 1 C))
    with (map (fun c => map (f c) (seq 0 N)) (seq 0 (S C))).
  replace (forallb _ _) with true.
  2:{ symmetry. apply forallb_forall. intros b Hb. apply in_map_iff in Hb.
      destruct Hb as [c [<- _]]. rewrite !length_map. apply Nat.eqb_refl. }
  rewrite !length_map, !length_seq. f_equal.
  apply map_ext_in. intros k Hk. apply in_seq in Hk.
  rewrite map_map. f_equal. f_equal. apply map_ext. intros c.
  apply nth_map_seq. lia.
Qed.

Lemma stack_mean_defined (l : list (list Qc)) (N : nat) :
  l <> [] -> Forall (fun a => length a = N) l -> exists v, stack_mean l = Ok v.
Proof.
  intros Hne Hall. unfold stack_mean. destruct l as [|a l]; [congruence|].
  replace (forallb _ _) with true; [eexists; reflexivity|].
  symmetry. apply forallb_forall. intros b Hb. apply Nat.eqb_eq.
  rewrite Forall_forall in Hall.
  rewrite (Hall b Hb), (Hall a (or_introl eq_refl)). reflexivity.
Qed.

Lemma num_classes_shape (pred : tensor Qc) (B C H W : nat) :
  shape pred = [B; C; H; W] ->
  num_classes pred = C /\ num_pixels pred = (B * (H * W))%nat /\ size_1 pred = C.
Proof. intros Hs. unfold num_classes, num_pixels, size_1. rewrite Hs. repeat split. Qed.

(** The loop body on a well-formed, ranked sample: the area under the
    blended curve. *)
Lemma sample_ap_spec (real : tensor Z) (pred : tensor Qc) :
  well_formed (real, pred) -> ranked argsort (real, pred) ->
  sample_ap argsort real pred = Ok (blended_ap argsort real pred).
Proof.
  intros [[B [C [H [W [Hs HC]]]]] [Hlen Hlab]] Hrank.
  destruct (num_classes_shape pred B C H W Hs) as [HnC [HnP Hs1]].
  rewrite HnC in Hlab. rewrite HnP in Hlen.
  destruct (permute_reshape_ok pred B C H W Hs HC) as [mp [Hp [Hrows Hpc]]].
  destruct (one_hot_ok (data real) C HC Hlab) as [mr [Hr [Hsz Hrc]]].
  assert (Hprobs : forall c, (c < C)%nat -> length (class_probs pred c) = (B * (H * W))%nat).
  { intros c Hc. rewrite <- (Hpc c Hc). unfold column. rewrite length_map. exact Hrows. }
  assert (Hperm : forall c, (c < C)%nat ->
             Permutation (argsort (class_probs pred c)) (seq 0 (B * (H * W)))).
  { intros c Hc. rewrite <- (Hprobs c Hc). apply (Hrank c). cbn [snd]. lia. }
  unfold sample_ap, view_flat. rewrite Hp, Hs1, Hr. cbn [bind].
  unfold precision_recall_curve_torch. rewrite Hsz.
  rewrite (class_curves_spec real pred mr mp (B * (H * W))).
  2:{ intros c Hc. apply in_seq in Hc.
      apply class_curve_spec;
        [apply Hrc | apply Hpc | exact Hlen | apply Hprobs | apply Hperm]; lia. }
  cbn [bind].
  rewrite (stack_mean_spec (precision_at argsort real pred)) by exact HC.
  rewrite (stack_mean_spec (recall_at argsort real pred)) by exact HC.
  cbn [bind].
  destruct (stack_mean_defined (map (ranked_probs argsort pred) (seq 0 C)) (B * (H * W)))
    as [th Hth].
  { destruct C; [lia|]. discriminate. }
  { apply Forall_forall. intros a Ha. apply in_map_iff in Ha.
    destruct Ha as [c [<- Hc]]. apply in_seq in Hc.
    unfold ranked_probs. rewrite length_map.
    rewrite (Permutation_length (Hperm c ltac:(lia))). apply length_seq. }
  rewrite Hth. cbn [bind]. rewrite trapz_seq.
  unfold blended_ap, blended. rewrite HnC, HnP. reflexivity.
Qed.

(** The loop over the pairs adds the per-sample values and counts
    the pairs. *)
Lemma ap_loop_spec (ap : tensor Z -> tensor Qc -> Qc)
      (pairs : list (tensor Z * tensor Qc)) (acc : Qc) (n : nat) :
  Forall (fun s => sample_ap argsort (fst s) (snd s) = Ok (ap (fst s) (snd s))) pairs ->
  ap_loop argsort pairs acc n
  = Ok (acc + qsum (map (fun '(real, pred) => ap real pred) pairs), (n + length pairs)%nat).
Proof.
  revert acc n. induction pairs as [|[real pred] pairs IH]; intros acc n H.
  - cbn [ap_loop map length]. f_equal. f_equal; [unfold qsum; simpl; ring | lia].
  - inversion H as [|s l Hs Hl]; subst. cbn [fst snd] in Hs.
    cbn [ap_loop]. rewrite Hs. cbn [bind]. rewrite IH by exact Hl.
    cbn [map length]. rewrite qsum_cons. f_equal. f_equal; [ring | lia].
Qed.

Lemma compute_ap_mean (real_masks : list (tensor Z)) (pred_probs : list (tensor Qc)) :
  Forall well_formed (combine real_masks pred_probs) ->
  Forall (ranked argsort) (combine real_masks pred_probs) ->
  compute_ap argsort real_masks pred_probs
  = Ok (mean_ap argsort (combine real_masks pred_probs)).
Proof.
  intros Hwf Hrk. unfold compute_ap.
  rewrite (ap_loop_spec (blended_ap argsort)).
  2:{ rewrite Forall_forall in *. intros [real pred] Hin.
      apply sample_ap_spec; [apply (Hwf _ Hin) | apply (Hrk _ Hin)]. }
  cbn [bind]. unfold mean_ap.
  destruct (combine real_masks pred_probs) as [|s pairs].
  - reflexivity.
  - cbn [length Nat.add Nat.ltb Nat.leb]. f_equal.
    set (total := qsum _). f_equal. ring.
Qed.

Lemma combine_map_map {A B C : Type} (f : A -> B) (g : A -> C) (l : list A) :
  combine (map f l) (map g l) = map (fun a => (f a, g a)) l.
Proof. induction l as [|a l IH]; simpl; [reflexivity|]. rewrite IH. reflexivity. Qed.

(** The ranked (label, probability) pairs of a class are the pixels of
    the sample in another order. *)
Lemma ranking_permutes_pixels (real : tensor Z) (pred : tensor Qc) (c : nat) :
  length (data real) = length (class_probs pred c) ->
  Permutation (argsort (class_probs pred c)) (seq 0 (length (class_probs pred c))) ->
  Permutation (combine (ranked_labels argsort real pred c) (ranked_probs argsort pred c))
              (combine (data real) (class_probs pred c)).
Proof.
  intros Hlen Hperm. unfold ranked_labels, ranked_probs. rewrite combine_map_map.
  rewrite (map_ext _ (fun i => nth i (combine (data real) (class_probs pred c)) (0%Z, 0))).
  2:{ intros i. symmetry. apply combine_nth. exact Hlen. }
  apply reindex_perm. rewrite length_combine, Hlen, Nat.min_id. exact Hperm.
Qed.

(** C3. For well-formed samples, with [argsort] ranking every class by
    descending probability: the ranked pixels of a class are the
    sample's pixels sorted by descending predicted probability; the
    per-sample AP the code computes (one-hot columns re-indexed along
    the ranking, cumulative sums for tp and fp, tp/(tp+fp+1e-8) and
    tp/(sum+1e-8), mean over the stacked classes, [trapz]) is the
    trapezoidal area under the curve whose precision and recall at
    each rank are the means over the classes of tp/(tp+fp+1e-8) and
    tp/(total positives+1e-8), with tp and fp counted along the
    ranking; and the returned score is the arithmetic mean of the
    per-sample APs. *)
Theorem ap_blends_classes_before_integration
        (real_masks : list (tensor Z)) (pred_probs : list (tensor Qc))
        (Hwf : Forall well_formed (combine real_masks pred_probs))
        (Hrk : Forall (ranked argsort) (combine real_masks pred_probs)) :
  Forall (fun s =>
            (forall c, (c < num_classes (snd s))%nat ->
               StronglySorted (fun a b => b <= a) (ranked_probs argsort (snd s) c)
               /\ Permutation (combine (ranked_labels argsort (fst s) (snd s) c)
                                       (ranked_probs argsort (snd s) c))
                              (combine (data (fst s)) (class_probs (snd s) c)))
            /\ sample_ap argsort (fst s) (snd s) = Ok (blended_ap argsort (fst s) (snd s)))
         (combine real_masks pred_probs)
  /\ compute_ap argsort real_masks pred_probs
     = Ok (mean_ap argsort (combine real_masks pred_probs)).
Proof.
  split; [| apply compute_ap_mean; assumption].
  rewrite Forall_forall in *. intros [real pred] Hin. cbn [fst snd].
  specialize (Hwf _ Hin). specialize (Hrk _ Hin). split.
  - intros c Hc. destruct (Hrk c Hc) as [Hperm Hsorted]. split; [exact Hsorted|].
    apply ranking_permutes_pixels; [| exact Hperm].
    destruct Hwf as [[B [C [H [W [Hs HC]]]]] [Hlen _]].
    destruct (num_classes_shape pred B C H W Hs) as [HnC [HnP _]].
    destruct (permute_reshape_ok pred B C H W Hs HC) as [mp [_ [Hrows Hpc]]].
    rewrite Hlen, HnP, <- (Hpc c ltac:(cbn [snd] in Hc; lia)).
    unfold column. rewrite length_map. symmetry. exact Hrows.
  - apply sample_ap_spec; assumption.
Qed.

(** C8. On empty input sequences the loop body never runs and the
    function returns 0, without raising. *)
Theorem ap_of_empty_input (real_masks : list (tensor Z)) (pred_probs : list (tensor Qc)) :
  compute_ap argsort [] [] = Ok 0
  /\ compute_ap argsort [] pred_probs = Ok 0
  /\ compute_ap argsort real_masks [] = Ok 0.
Proof.
  repeat split. unfold compute_ap. destruct real_masks; reflexivity.
Qed.

(** The pairs [zip] yields are the pairs at the positions below the
    shorter length. *)
Lemma combine_pairs_at (real_masks : list (tensor Z)) (pred_probs : list (tensor Qc)) :
  combine real_masks pred_probs
  = map (pair_at real_masks pred_probs)
        (seq 0 (Nat.min (length real_masks) (length pred_probs))).
Proof.
  rewrite <- (map_nth_seq (combine real_masks pred_probs) (mkTensor [] [], mkTensor [] [])) at 1.
  rewrite length_combine. apply map_ext_in. intros k Hk. apply in_seq in Hk.
  apply nth_combine. lia.
Qed.

(** C10. With sequences of different lengths, [zip] stops at the
    shorter one.  Whatever the two sequences hold, the call returns
    (or raises) what it does on the two sequences cut to
    n = min(|real_masks|, |pred_probs|) entries; and when the first [n]
    pairs are well-formed samples, ranked by [argsort], it returns the
    arithmetic mean of the APs of these [n] pairs alone, whatever the
    surplus entries of the longer sequence are, and raises nothing. *)
Theorem ap_ignores_surplus_entries
        (real_masks : list (tensor Z)) (pred_probs : list (tensor Qc)) :
  let n := Nat.min (length real_masks) (length pred_probs) in
  compute_ap argsort real_masks pred_probs
  = compute_ap argsort (firstn n real_masks) (firstn n pred_probs)
  /\ ((forall k, (k < n)%nat ->
         well_formed (pair_at real_masks pred_probs k)
         /\ ranked argsort (pair_at real_masks pred_probs k)) ->
      compute_ap argsort real_masks pred_probs
      = Ok (mean_ap_of_first argsort n real_masks pred_probs)).
Proof.
  intros n. split.
  - assert (Hcut : combine (firstn n real_masks) (firstn n pred_probs)
                   = combine real_masks pred_probs).
    { rewrite <- combine_firstn. apply firstn_all2. rewrite length_combine. apply Nat.le_refl. }
    unfold compute_ap. rewrite Hcut. reflexivity.
  - intros Hfirst. rewrite compute_ap_mean.
    + f_equal. unfold mean_ap, mean_ap_of_first. rewrite combine_pairs_at. fold n.
      destruct n as [|n']; [reflexivity|].
      rewrite <- qsum_seq_sum_below.
      set (l := seq 0 (S n')).
      replace (of_nat (S n')) with (of_nat (length (map (pair_at real_masks pred_probs) l)))
        by (unfold l; rewrite length_map, length_seq; reflexivity).
      assert (Hne : map (pair_at real_masks pred_probs) l <> []) by (unfold l; discriminate).
      rewrite map_map.
      destruct (map (pair_at real_masks pred_probs) l) as [|s rest] eqn:Hl; [congruence|].
      cbn [Nat.eqb].
      rewrite (map_ext _ (fun k => blended_ap argsort (fst (pair_at real_masks pred_probs k))
                                                (snd (pair_at real_masks pred_probs k))));
        [reflexivity|].
      intros k. destruct (pair_at real_masks pred_probs k). reflexivity.
    + rewrite combine_pairs_at. apply Forall_forall. intros s Hs.
      apply in_map_iff in Hs. destruct Hs as [k [<- Hk]]. apply in_seq in Hk.
      apply Hfirst. fold n in Hk. lia.
    + rewrite combine_pairs_at. apply Forall_forall. intros s Hs.
      apply in_map_iff in Hs. destruct Hs as [k [<- Hk]]. apply in_seq in Hk.
      apply Hfirst. fold n in Hk. lia.
Qed.

End Pipeline.

Lemma example_well_formed : well_formed (example_real, example_pred).
Proof.
  split; [exists 1%nat, 2%nat, 1%nat, 2%nat; split; [reflexivity | lia]|].
  split; [reflexivity|].
  cbn. repeat (apply Forall_cons; [lia|]). apply Forall_nil.
Qed.

Lemma example_ranked : ranked insertion_argsort (example_real, example_pred).
Proof.
  intros c Hc. cbn in Hc.
  assert (Hle : forall a b : Q, Qle_bool a b = true -> Q2Qc a <= Q2Qc b).
  { intros a b H. unfold Qcle. cbn [this Q2Qc]. rewrite !Qred_correct.
    apply Qle_bool_iff. exact H. }
  destruct c as [|[|c]]; [| | lia]; split.
  - apply perm_swap.
  - repeat constructor; apply Hle; reflexivity.
  - apply Permutation_refl.
  - repeat constructor; apply Hle; reflexivity.
Qed.

(** The theorem at the two-pixel, two-class example, ranked by
    [insertion_argsort]. *)
Lemma ap_blends_classes_before_integration_witness :
  Forall well_formed (combine [example_real] [example_pred])
  /\ Forall (ranked insertion_argsort) (combine [example_real] [example_pred])
  /\ compute_ap insertion_argsort [example_real] [example_pred]
     = Ok (mean_ap insertion_argsort (combine [example_real] [example_pred])).
Proof.
  assert (Hwf : Forall well_formed (combine [example_real] [example_pred])).
  { apply Forall_cons; [apply example_well_formed | apply Forall_nil]. }
  assert (Hrk : Forall (ranked insertion_argsort) (combine [example_real] [example_pred])).
  { apply Forall_cons; [apply example_ranked | apply Forall_nil]. }
  split; [exact Hwf|]. split; [exact Hrk|].
  apply (ap_blends_classes_before_integration insertion_argsort
           [example_real] [example_pred] Hwf Hrk).
Defined.

(** The theorem on the example sample, followed in the ground-truth
    sequence by a surplus entry that is no sample of any prediction. *)
Lemma ap_ignores_surplus_entries_witness :
  (forall k, (k < 1)%nat ->
     well_formed (pair_at [example_real; mkTensor [1%nat] [7%Z]] [example_pred] k)
     /\ ranked insertion_argsort
               (pair_at [example_real; mkTensor [1%nat] [7%Z]] [example_pred] k))
  /\ compute_ap insertion_argsort [example_real; mkTensor [1%nat] [7%Z]] [example_pred]
     = Ok (mean_ap_of_first insertion_argsort 1
                            [example_real; mkTensor [1%nat] [7%Z]] [example_pred]).
Proof.
  assert (Hfirst : forall k, (k < 1)%nat ->
            well_formed (pair_at [example_real; mkTensor [1%nat] [7%Z]] [example_pred] k)
            /\ ranked insertion_argsort
                      (pair_at [example_real; mkTensor [1%nat] [7%Z]] [example_pred] k)).
  { intros k Hk. assert (k = 0)%nat as -> by lia.
    split; [apply example_well_formed | apply example_ranked]. }
  split; [exact Hfirst|].
  exact (proj2 (ap_ignores_surplus_entries insertion_argsort
                  [example_real; mkTensor [1%nat] [7%Z]] [example_pred]) Hfirst).
Defined.

End AveragePrecision_Facts.

(** ** Feature extraction *)

Module FeatureExtraction_Facts.

Import FeatureExtraction.
Open Scope string_scope.

















Section Enumeration.

Variable tree : string -> option (list node).



End Enumeration.

Section Extraction.

Variable tree : string -> option (list node).
Variable featurize : string -> option (list Qc).

Lemma extract_loop_spec (files : list string) :
  extract_loop featurize files
  = (map (fun feat => [feat]) (decoded featurize files),
     map Warning (undecodable featurize files)).
Proof.
  induction files as [|p files IH]; [reflexivity|].
  cbn [extract_loop decoded undecodable flat_map filter]. rewrite IH.
  destruct (featurize p); reflexivity.
Qed.

Lemma np_concatenate_rows (l : list (list Qc)) :
  np_concatenate (map (fun feat => [feat]) l) = l.
Proof.
  unfold np_concatenate. induction l as [|a l IH]; [reflexivity|].
  cbn [map concat app]. rewrite IH. reflexivity.
Qed.

Lemma decoded_nil (files : list string) :
  decoded featurize files = [] <-> Forall (fun p => featurize p = None) files.
Proof.
  induction files as [|p files IH]; cbn [decoded flat_map].
  - split; [constructor | reflexivity].
  - split.
    + intros H. destruct (featurize p) eqn:Hp; [discriminate|].
      constructor; [exact Hp | apply IH; exact H].
    + intros H. inversion H as [|x l Hp Hl]; subst. rewrite Hp. apply IH. exact Hl.
Qed.

(** The outcome of the function once [image_files] is known. *)
Lemma extract_features_cases (image_folder : string) (recursive : bool) (files : list string) :
  image_files tree image_folder recursive = Ok files ->
  extract_features tree featurize image_folder recursive
  = match files with
    | [] => ([], Raise (ValueError ("Error: No image files found in " ++ image_folder ++ ".")))
    | _ :: _ =>
        (Processing (length files) image_folder :: map Warning (undecodable featurize files),
         match decoded featurize files with
         | [] => Raise (ValueError ("Error: Unable to extract features from " ++ image_folder
                                      ++ ". Check for corrupted images."))
         | rows => Ok rows
         end)
    end.
Proof.
  intros Hf. unfold extract_features. rewrite Hf.
  destruct files as [|p files]; [reflexivity|].
  cbn [length Nat.eqb]. rewrite extract_loop_spec, length_map.
  destruct (decoded featurize (p :: files)) as [|r rows] eqn:Hd; [reflexivity|].
  cbn [length Nat.eqb]. rewrite <- Hd, np_concatenate_rows. reflexivity.
Qed.

(** C7. The function raises its [ValueError] in exactly two cases: no
    matching file was found, or every matching file failed to decode.
    When at least one file decodes, the call returns the rows of the
    files that decode, in order, and prints one warning for each file
    that does not. *)
Theorem extract_features_empty_input (image_folder : string) (recursive : bool) :
  ((exists msg, snd (extract_features tree featurize image_folder recursive)
                = Raise (ValueError msg))
   <-> exists files, image_files tree image_folder recursive = Ok files
                     /\ (files = [] \/ Forall (fun p => featurize p = None) files))
  /\ (forall files,
        image_files tree image_folder recursive = Ok files ->
        Exists (fun p => featurize p <> None) files ->
        extract_features tree featurize image_folder recursive
        = (Processing (length files) image_folder :: map Warning (undecodable featurize files),
           Ok (decoded featurize files))).
Proof.
  split.
  - destruct (image_files tree image_folder recursive) as [files|e] eqn:Hf.
    + rewrite (extract_features_cases _ _ _ Hf). split.
      * intros [msg Hm]. exists files. split; [reflexivity|].
        destruct files as [|p files]; [left; reflexivity|]. right.
        apply decoded_nil. cbn [snd] in Hm.
        destruct (decoded featurize (p :: files)); [reflexivity | discriminate].
      * intros [files' [Heq Hcase]]. injection Heq as <-.
        destruct files as [|p files]; [eexists; reflexivity|].
        destruct Hcase as [Hnil | Hall]; [discriminate|].
        apply decoded_nil in Hall. rewrite Hall. eexists. reflexivity.
    + split.
      * intros [msg Hm]. unfold extract_features in Hm. rewrite Hf in Hm.
        cbn [snd] in Hm. unfold image_files in Hf.
        destruct recursive; [discriminate|].
        destruct (tree image_folder); [discriminate|].
        injection Hf as <-. discriminate.
      * intros [files [Heq _]]. discriminate.
  - intros files Hf Hex. rewrite (extract_features_cases _ _ _ Hf).
    destruct files as [|p files]; [inversion Hex|].
    destruct (decoded featurize (p :: files)) as [|r rows] eqn:Hd; [|reflexivity].
    apply decoded_nil in Hd. apply Exists_exists in Hex. destruct Hex as [q [Hq Hne]].
    rewrite Forall_forall in Hd. elim Hne. apply Hd. exact Hq.
Qed.

End Extraction.

(** The theorem on a folder of two images, one of them unreadable. *)
Lemma extract_features_empty_input_witness :
  let tree := fun _ : string => Some example_images in
  image_files tree "d" false = Ok ["d/a.PNG"; "d/b.jpg"]
  /\ Exists (fun p => example_featurize p <> None) ["d/a.PNG"; "d/b.jpg"]
  /\ extract_features tree example_featurize "d" false
     = ([Processing 2 "d"; Warning "d/a.PNG"], Ok [[of_Z 1; of_Z 2]]).
Proof.
  cbv zeta.
  assert (Hex : Exists (fun p => example_featurize p <> None) ["d/a.PNG"; "d/b.jpg"]).
  { apply Exists_cons_tl. apply Exists_cons_hd. discriminate. }
  split; [reflexivity|]. split; [exact Hex|].
  apply (proj2 (extract_features_empty_input (fun _ => Some example_images)
                  example_featurize "d" false) ["d/a.PNG"; "d/b.jpg"] eq_refl Hex).
Defined.



(** What the two modes select in the example folder: recursive mode
    finds the images at all three depths, whatever the case of their
    extension; non-recursive mode only the one at the top. *)
Example enumeration_examples :
  image_files (fun _ => Some example_nested) "imgs" true
  = Ok ["imgs/a.PNG"; "imgs/sub/b.Jpeg"; "imgs/sub/deep/d.jpg"]
  /\ image_files (fun _ => Some example_nested) "imgs" false = Ok ["imgs/a.PNG"].
Proof. split; reflexivity. Qed.

(** Names the test accepts and rejects: the case of the letters does not
    matter, and no dot is asked for. *)
Example has_image_suffix_examples :
  has_image_suffix "photo.PNG" = true
  /\ has_image_suffix "scan.JpEg" = true
  /\ has_image_suffix "face.jpg" = true
  /\ has_image_suffix "png" = true
  /\ has_image_suffix "notes.txt" = false
  /\ has_image_suffix "photo.png.bak" = false.
Proof. repeat split. Qed.


End FeatureExtraction_Facts.

(** ** Distances between feature sets *)

Module Distance_Facts.

Import FeatureExtraction FeatureExtraction_Facts Distance.
Open Scope Qc_scope.

(** *** Arrays as tables *)

Lemma rect_shape1 (n d : nat) (a : array2) : rect n d a -> (0 < n)%nat -> shape1 a = d.
Proof.
  intros [Hn Hrows] Hpos. unfold shape1. destruct a as [|r a]; [cbn in Hn; lia|].
  inversion Hrows; subst. reflexivity.
Qed.

Lemma rect_row (n d : nat) (a : array2) (i : nat) :
  rect n d a -> (i < n)%nat -> length (nth i a []) = d.
Proof.
  intros [Hn Hrows] Hi. rewrite Forall_forall in Hrows. apply Hrows, nth_In. lia.
Qed.

(** An [n] by [d] array is the table of its entries. *)
Lemma rect_table (n d : nat) (a : array2) :
  rect n d a ->
  a = map (fun i => map (fun j => nth j (nth i a []) 0) (seq 0 d)) (seq 0 n).
Proof.
  intros Hr. destruct Hr as [Hn Hrows].
  rewrite <- (map_nth_seq a []) at 1. rewrite Hn. apply map_ext_in. intros i Hi.
  apply in_seq in Hi. rewrite <- (map_nth_seq (nth i a []) 0) at 1.
  rewrite (rect_row n d a i (conj Hn Hrows)) by lia. reflexivity.
Qed.

Lemma table_rect (f : nat -> nat -> Qc) (n d : nat) :
  rect n d (map (fun i => map (f i) (seq 0 d)) (seq 0 n)).
Proof.
  split; [rewrite length_map, length_seq; reflexivity|].
  apply Forall_forall. intros r Hr. apply in_map_iff in Hr. destruct Hr as [i [<- _]].
  rewrite length_map, length_seq. reflexivity.
Qed.

Lemma table_entry (f : nat -> nat -> Qc) (n d i j : nat) :
  (i < n)%nat -> (j < d)%nat ->
  nth j (nth i (map (fun i => map (f i) (seq 0 d)) (seq 0 n)) []) 0 = f i j.
Proof.
  intros Hi Hj. rewrite (nth_map_seq (fun i => map (f i) (seq 0 d))) by exact Hi.
  apply nth_map_seq. exact Hj.
Qed.

Lemma np_T_table (n d : nat) (a : array2) :
  rect n d a -> (0 < n)%nat ->
  np_T a = map (fun j => map (fun i => nth j (nth i a []) 0) (seq 0 n)) (seq 0 d).
Proof.
  intros Hr Hn. unfold np_T. rewrite (rect_shape1 n d a Hr Hn).
  apply map_ext. intros j. destruct Hr as [Hlen _].
  rewrite <- (map_nth_seq a []) at 1. rewrite map_map, Hlen. reflexivity.
Qed.

Lemma np_T_involutive (n d : nat) (a : array2) :
  rect n d a -> (0 < n)%nat -> (0 < d)%nat -> np_T (np_T a) = a.
Proof.
  intros Hr Hn Hd. rewrite (np_T_table n d a Hr Hn).
  rewrite (np_T_table d n _ (table_rect (fun j i => nth j (nth i a []) 0) d n) Hd).
  etransitivity; [| symmetry; apply (rect_table n d a Hr)].
  apply map_ext_in. intros i Hi. apply in_seq in Hi.
  apply map_ext_in. intros j Hj. apply in_seq in Hj.
  apply (table_entry (fun j i => nth j (nth i a []) 0)); lia.
Qed.

(** [np.dot(a, b.T)] pairs every row of [a] with every row of [b]. *)
Lemma np_dot_T (n d : nat) (a b : array2) :
  rect n d b -> (0 < n)%nat -> (0 < d)%nat ->
  np_dot a (np_T b) = map (fun u => map (vdot u) b) a.
Proof.
  intros Hr Hn Hd. unfold np_dot. rewrite (np_T_involutive n d b Hr Hn Hd). reflexivity.
Qed.

Lemma np_sum_table (f : nat -> nat -> Qc) (n d : nat) :
  np_sum (map (fun i => map (f i) (seq 0 d)) (seq 0 n))
  = qsum (map (fun i => qsum (map (f i) (seq 0 d))) (seq 0 n)).
Proof. unfold np_sum. rewrite map_map. reflexivity. Qed.

Lemma np_trace_table (f : nat -> nat -> Qc) (n : nat) :
  (0 < n)%nat ->
  np_trace (map (fun i => map (f i) (seq 0 n)) (seq 0 n))
  = qsum (map (fun i => f i i) (seq 0 n)).
Proof.
  intros Hn. unfold np_trace.
  rewrite (rect_shape1 n n _ (table_rect f n n) Hn).
  unfold shape0. rewrite length_map, length_seq, Nat.min_id.
  f_equal. apply map_ext_in. intros i Hi. apply in_seq in Hi.
  apply table_entry; lia.
Qed.

Lemma ew2_table (op : Qc -> Qc -> Qc) (f g : nat -> nat -> Qc) (n d : nat) :
  ew2 op (map (fun i => map (f i) (seq 0 d)) (seq 0 n))
         (map (fun i => map (g i) (seq 0 d)) (seq 0 n))
  = map (fun i => map (fun j => op (f i j) (g i j)) (seq 0 d)) (seq 0 n).
Proof.
  unfold ew2. rewrite map2_map_map. apply map_ext. intros i.
  apply map2_map_map.
Qed.

Lemma ew_table (op : Qc -> Qc) (f : nat -> nat -> Qc) (n d : nat) :
  ew op (map (fun i => map (f i) (seq 0 d)) (seq 0 n))
  = map (fun i => map (fun j => op (f i j)) (seq 0 d)) (seq 0 n).
Proof.
  unfold ew. rewrite map_map. apply map_ext. intros i. apply map_map.
Qed.

(** *** FID *)

Lemma of_Z_pred (n : nat) : of_Z (Z.of_nat n - 1) = of_nat n - 1.
Proof.
  unfold of_nat, of_Z, Qcminus, Qcplus, Qcopp. apply Qc_is_canon. cbn [this Q2Qc].
  rewrite !Qred_correct. unfold Z.sub. rewrite inject_Z_plus, inject_Z_opp. reflexivity.
Qed.

Lemma length_feature (m : array2) (j : nat) : length (feature m j) = length m.
Proof. apply length_map. Qed.

Lemma np_T_features (m : array2) :
  np_T m = map (feature m) (seq 0 (shape1 m)).
Proof. reflexivity. Qed.

Lemma mean_axis0_mean_vector (m : array2) : mean_axis0 m = mean_vector m.
Proof.
  unfold mean_axis0, mean_vector. rewrite np_T_features, map_map.
  apply map_ext. intros j. unfold mean, shape0. rewrite length_feature. reflexivity.
Qed.

Lemma vdot_centered (m : array2) (i j : nat) (a b : Qc) :
  vdot (map (fun v => v - a) (feature m i)) (map (fun v => v - b) (feature m j))
  = qsum (map (fun r => (nth i r 0 - a) * (nth j r 0 - b)) m).
Proof.
  unfold vdot, feature. rewrite !map_map, map2_map_map. reflexivity.
Qed.

(** With at least two rows and two features, [np.cov] is the sample
    covariance: divisor N - 1. *)
Lemma np_cov_sample (N D : nat) (m : array2) :
  rect N D m -> (2 <= N)%nat -> (2 <= D)%nat -> np_cov m = Some (sample_covariance m).
Proof.
  intros Hr HN HD. unfold np_cov.
  pose proof (rect_shape1 N D m Hr ltac:(lia)) as Hs1.
  assert (HlenN : length m = N) by (destruct Hr; assumption).
  assert (HX : rect D N (np_T m)).
  { rewrite np_T_features, Hs1. split; [rewrite length_map, length_seq; reflexivity|].
    apply Forall_forall. intros r Hin. apply in_map_iff in Hin. destruct Hin as [j [<- _]].
    rewrite length_feature. exact HlenN. }
  rewrite (rect_shape1 D N _ HX ltac:(lia)).
  replace (shape0 (np_T m)) with D by (destruct HX as [HX _]; symmetry; exact HX).
  destruct (Z.leb_spec (Z.of_nat N - 1) 0); [lia|].
  destruct (Nat.leb_spec D 1); [lia|]. cbn [orb]. f_equal.
  rewrite np_T_features, Hs1, map_map, map2_map_map.
  set (centered := map _ (seq 0 D)).
  assert (Hc : rect D N centered).
  { split; [unfold centered; rewrite length_map, length_seq; reflexivity|].
    apply Forall_forall. intros r Hin. apply in_map_iff in Hin. destruct Hin as [j [<- _]].
    rewrite length_map, length_feature. exact HlenN. }
  rewrite (np_dot_T D N centered centered Hc) by lia.
  unfold centered. rewrite !map_map. unfold ew. rewrite map_map.
  unfold sample_covariance, covariance_matrix. rewrite Hs1.
  apply map_ext. intros i. rewrite !map_map. apply map_ext. intros j.
  rewrite vdot_centered. unfold covariance, mean, shape0.
  rewrite !length_feature, HlenN, of_Z_pred. unfold Qcdiv. ring.
Qed.

Section Fid.

Variable sqrtm : array2 -> sqrtm_array.

(** C1, as the code has it. For feature matrices with at least two
    rows each and one dimension [D >= 2], [sqrtm] returning a [D] by
    [D] array: the covariance of each summary is the sample covariance
    of the rows (divisor N - 1, rows as observations), the mean is the
    mean of the rows, and the score is
    [||mu_real - mu_gen||^2 + trace(Sigma_real + Sigma_gen - 2 root)]
    where [root] is the real part of
    [sqrtm(Sigma_real @ Sigma_gen)], any imaginary part dropped. *)
Theorem fid_uses_sample_covariance (real_features gen_features : array2) (Nr Ng D : nat)
        (Hreal : rect Nr D real_features) (Hgen : rect Ng D gen_features)
        (HNr : (2 <= Nr)%nat) (HNg : (2 <= Ng)%nat) (HD : (2 <= D)%nat)
        (Hroot : rect D D (real_part (sqrtm (np_dot (sample_covariance real_features)
                                                    (sample_covariance gen_features))))) :
  np_cov real_features = Some (sample_covariance real_features)
  /\ np_cov gen_features = Some (sample_covariance gen_features)
  /\ mean_axis0 real_features = mean_vector real_features
  /\ mean_axis0 gen_features = mean_vector gen_features
  /\ fid_score sqrtm real_features gen_features
     = Ok (frechet D (mean_vector real_features) (mean_vector gen_features)
                   (sample_covariance real_features) (sample_covariance gen_features)
                   (real_part (sqrtm (np_dot (sample_covariance real_features)
                                             (sample_covariance gen_features))))).
Proof.
  pose proof (np_cov_sample Nr D real_features Hreal HNr HD) as Hcr.
  pose proof (np_cov_sample Ng D gen_features Hgen HNg HD) as Hcg.
  split; [exact Hcr|]. split; [exact Hcg|].
  split; [apply mean_axis0_mean_vector|]. split; [apply mean_axis0_mean_vector|].
  unfold fid_score. rewrite Hcr, Hcg, !mean_axis0_mean_vector. f_equal.
  set (root := sqrtm _) in *.
  replace (real_part (if np_iscomplexobj root then np_real root else root))
    with (real_part root) by (destruct root; reflexivity).
  pose proof (rect_shape1 Nr D real_features Hreal ltac:(lia)) as Hsr.
  pose proof (rect_shape1 Ng D gen_features Hgen ltac:(lia)) as Hsg.
  unfold frechet. f_equal.
  - unfold mean_vector. rewrite Hsr, Hsg, map2_map_map. unfold vdot.
    rewrite map2_map_map. f_equal. apply map_ext_in. intros i Hi. apply in_seq in Hi.
    rewrite !nth_map_seq by lia. cbn [Qcpower]. ring.
  - rewrite (rect_table D D (real_part root) Hroot) at 1.
    unfold sample_covariance, covariance_matrix. rewrite Hsr, Hsg.
    rewrite (ew2_table Qcplus), (ew_table (fun v => of_Z 2 * v)), (ew2_table Qcminus).
    rewrite np_trace_table by lia.
    f_equal. apply map_ext_in. intros i Hi. apply in_seq in Hi.
    rewrite !(table_entry _ D D i i) by lia. reflexivity.
Qed.

End Fid.

Lemma Ok_eq (q q' : Qc) : (this q == this q')%Q -> Ok q = Ok q'.
Proof. intros H. f_equal. apply Qc_is_canon. exact H. Qed.

(** Arrays are equal when their entries are equal as fractions. *)
Lemma array2_eq (a b : array2) :
  Forall2 (Forall2 (fun x y => (this x == this y)%Q)) a b -> a = b.
Proof.
  intros H. induction H as [|r r' a b Hr _ IH]; [reflexivity|]. f_equal; [|exact IH].
  induction Hr as [|x y r r' Hx _ IHr]; [reflexivity|].
  f_equal; [apply Qc_is_canon; exact Hx | exact IHr].
Qed.

Lemma square_features_rect : rect 4 2 square_real /\ rect 4 2 square_gen.
Proof.
  split; (split; [reflexivity | repeat (apply Forall_cons; [reflexivity|]); apply Forall_nil]).
Qed.

Lemma square_root_rect :
  rect 2 2 (real_part (diagonal_sqrtm (np_dot (sample_covariance square_real)
                                              (sample_covariance square_gen)))).
Proof.
  split; [reflexivity | repeat (apply Forall_cons; [reflexivity|]); apply Forall_nil].
Qed.

(** The theorem on the corners of the two squares. *)
Lemma fid_uses_sample_covariance_witness :
  rect 4 2 square_real /\ rect 4 2 square_gen /\ (2 <= 4)%nat /\ (2 <= 2)%nat
  /\ rect 2 2 (real_part (diagonal_sqrtm (np_dot (sample_covariance square_real)
                                                 (sample_covariance square_gen))))
  /\ np_cov square_real = Some (sample_covariance square_real).
Proof.
  assert (H4 : (2 <= 4)%nat) by lia.
  assert (H2 : (2 <= 2)%nat) by lia.
  split; [exact (proj1 square_features_rect)|].
  split; [exact (proj2 square_features_rect)|].
  split; [exact H4|]. split; [exact H2|]. split; [exact square_root_rect|].
  apply (fid_uses_sample_covariance diagonal_sqrtm square_real square_gen 4 4 2
           (proj1 square_features_rect) (proj2 square_features_rect) H4 H4 H2
           square_root_rect).
Defined.

(** C1 as stated fails: on the corners of a square of side 2 the
    covariance inside FID has the entries 4/3 on its diagonal, the
    population covariance the entries 1; and against the corners of a
    square of side 4 the score is 14/3, where the formula on the
    population summaries gives 4. *)
Lemma fid_covariance_is_not_population :
  np_cov square_real <> Some (population_covariance square_real)
  /\ np_cov square_real = Some [[of_Z 4 / of_Z 3; of_Z 0]; [of_Z 0; of_Z 4 / of_Z 3]]
  /\ fid_score diagonal_sqrtm square_real square_gen = Ok (of_Z 14 / of_Z 3)
  /\ frechet 2 (mean_vector square_real) (mean_vector square_gen)
              (population_covariance square_real) (population_covariance square_gen)
              (real_part (diagonal_sqrtm (np_dot (population_covariance square_real)
                                                 (population_covariance square_gen))))
     = of_Z 4.
Proof.
  split; [|split; [|split]].
  - intros H.
    apply (f_equal (fun o => match o with
                             | Some a => this (nth 0 (nth 0 a []) 0)
                             | None => this 0
                             end)) in H.
    vm_compute in H. discriminate H.
  - rewrite (np_cov_sample 4 2 square_real (proj1 square_features_rect)) by lia.
    apply (f_equal Some). apply array2_eq.
    repeat (apply Forall2_cons || apply Forall2_nil); vm_compute; reflexivity.
  - unfold fid_score.
    rewrite (np_cov_sample 4 2 square_real (proj1 square_features_rect)) by lia.
    rewrite (np_cov_sample 4 2 square_gen (proj2 square_features_rect)) by lia.
    apply Ok_eq. vm_compute. reflexivity.
  - apply Qc_is_canon. vm_compute. reflexivity.
Qed.

(** *** KID *)

Lemma pair_table {A : Type} (f : list Qc -> list Qc -> A) (x y : array2) :
  map (fun u => map (f u) y) x
  = map (fun i => map (fun j => f (nth i x []) (nth j y [])) (seq 0 (length y)))
        (seq 0 (length x)).
Proof.
  rewrite <- (map_nth_seq x []) at 1. rewrite map_map. apply map_ext. intros i.
  rewrite <- (map_nth_seq y []) at 1. rewrite map_map. reflexivity.
Qed.

(** The array expression of the loop body is the estimate written over
    the kernel entries. *)
Lemma estimate_arrays (n m D : nat) (x y : array2) :
  rect m D x -> rect m D y -> (0 < m)%nat -> (0 < D)%nat ->
  let poly := fun v => (v / of_nat n + 1) ^ 3 in
  let a := ew2 Qcplus (ew poly (np_dot x (np_T x))) (ew poly (np_dot y (np_T y))) in
  let b := ew poly (np_dot x (np_T y)) in
  (np_sum a - np_trace a) / (of_nat m - 1) - of_Z 2 * np_sum b / of_nat m
  = estimate n m x y.
Proof.
  intros Hx Hy Hm HD. cbv zeta.
  rewrite (np_dot_T m D x x Hx Hm HD), (np_dot_T m D y y Hy Hm HD),
          (np_dot_T m D x y Hy Hm HD).
  rewrite !pair_table. destruct Hx as [Hlx _]. destruct Hy as [Hly _]. rewrite Hlx, Hly.
  rewrite !(ew_table (fun v => (v / of_nat n + 1) ^ 3)).
  rewrite (ew2_table Qcplus).
  rewrite !np_sum_table, np_trace_table by exact Hm.
  reflexivity.
Qed.

Lemma take_rows_rect (N D m : nat) (a : array2) (idx : list nat) :
  rect N D a -> sample_without_replacement N m idx -> rect m D (take_rows a idx).
Proof.
  intros Ha [Hlen [_ Hin]]. split.
  - unfold take_rows. rewrite length_map. exact Hlen.
  - apply Forall_forall. intros r Hr. unfold take_rows in Hr.
    apply in_map_iff in Hr. destruct Hr as [i [<- Hi]].
    rewrite Forall_forall in Hin. apply (rect_row N D a i Ha). apply Hin. exact Hi.
Qed.

(** The formulas of the specification, written with indices, against
    the same formulas over the sampled arrays. *)
Lemma vdot_inner_product (D : nat) (u v : list Qc) :
  length u = D -> length v = D -> vdot u v = inner_product D u v.
Proof.
  intros Hu Hv. unfold vdot, inner_product.
  rewrite <- (map_nth_seq u 0) at 1. rewrite <- (map_nth_seq v 0) at 1.
  rewrite Hu, Hv, map2_map_map. apply qsum_seq_sum_below.
Qed.

Lemma kernel_polynomial (D : nat) (u v : list Qc) :
  length u = D -> length v = D -> kernel D u v = polynomial_kernel D u v.
Proof.
  intros Hu Hv. unfold kernel, polynomial_kernel.
  rewrite (vdot_inner_product D u v Hu Hv). reflexivity.
Qed.

Lemma take_rows_row (a : array2) (idx : list nat) (i : nat) :
  (i < length idx)%nat -> nth i (take_rows a idx) [] = sampled_row a idx i.
Proof.
  intros Hi. unfold take_rows, sampled_row.
  rewrite nth_indep with (d' := nth 0%nat a []) by (rewrite length_map; exact Hi).
  apply (map_nth (fun k => nth k a [])).
Qed.

Lemma estimate_sums (m : nat) (a a' b b' : nat -> nat -> Qc) :
  (forall i j, (i < m)%nat -> (j < m)%nat -> a i j = a' i j) ->
  (forall i j, (i < m)%nat -> (j < m)%nat -> b i j = b' i j) ->
  (qsum (map (fun i => qsum (map (fun j => a i j) (seq 0 m))) (seq 0 m))
   - qsum (map (fun i => a i i) (seq 0 m))) / (of_nat m - 1)
  - of_Z 2 * qsum (map (fun i => qsum (map (fun j => b i j) (seq 0 m))) (seq 0 m)) / of_nat m
  = (sum_below m (fun i => sum_below m (a' i)) - sum_below m (fun i => a' i i))
    / (of_nat m - 1)
    - of_Z 2 * sum_below m (fun i => sum_below m (b' i)) / of_nat m.
Proof.
  intros Ha Hb. rewrite !qsum_seq_sum_below.
  rewrite (sum_below_ext m (fun i => qsum (map (fun j => a i j) (seq 0 m)))
                         (fun i => sum_below m (a' i))).
  2:{ intros i Hi. rewrite qsum_seq_sum_below. apply sum_below_ext.
      intros j Hj. apply Ha; assumption. }
  rewrite (sum_below_ext m (fun i => a i i) (fun i => a' i i))
    by (intros i Hi; apply Ha; assumption).
  rewrite (sum_below_ext m (fun i => qsum (map (fun j => b i j) (seq 0 m)))
                         (fun i => sum_below m (b' i))).
  2:{ intros i Hi. rewrite qsum_seq_sum_below. apply sum_below_ext.
      intros j Hj. apply Hb; assumption. }
  reflexivity.
Qed.

Lemma estimate_by_index (N N' D m : nat) (gen real : array2) (idx_gen idx_real : list nat) :
  rect N D gen -> rect N' D real ->
  sample_without_replacement N m idx_gen -> sample_without_replacement N' m idx_real ->
  estimate D m (take_rows gen idx_gen) (take_rows real idx_real)
  = subset_estimate D m (sampled_row gen idx_gen) (sampled_row real idx_real).
Proof.
  intros Hg Hr Hig Hir.
  assert (Hx : forall i, (i < m)%nat ->
             nth i (take_rows gen idx_gen) [] = sampled_row gen idx_gen i
             /\ length (sampled_row gen idx_gen i) = D).
  { intros i Hi. destruct Hig as [Hlen [_ Hin]]. split.
    - apply take_rows_row. lia.
    - unfold sampled_row. apply (rect_row N D gen _ Hg).
      rewrite Forall_forall in Hin. apply Hin, nth_In. lia. }
  assert (Hy : forall i, (i < m)%nat ->
             nth i (take_rows real idx_real) [] = sampled_row real idx_real i
             /\ length (sampled_row real idx_real i) = D).
  { intros i Hi. destruct Hir as [Hlen [_ Hin]]. split.
    - apply take_rows_row. lia.
    - unfold sampled_row. apply (rect_row N' D real _ Hr).
      rewrite Forall_forall in Hin. apply Hin, nth_In. lia. }
  unfold estimate, subset_estimate. cbv zeta.
  apply (estimate_sums m
           (fun i j => kernel D (nth i (take_rows gen idx_gen) [])
                                (nth j (take_rows gen idx_gen) [])
                       + kernel D (nth i (take_rows real idx_real) [])
                                  (nth j (take_rows real idx_real) []))
           (fun i j => polynomial_kernel D (sampled_row gen idx_gen i)
                                           (sampled_row gen idx_gen j)
                       + polynomial_kernel D (sampled_row real idx_real i)
                                             (sampled_row real idx_real j))
           (fun i j => kernel D (nth i (take_rows gen idx_gen) [])
                                (nth j (take_rows real idx_real) []))
           (fun i j => polynomial_kernel D (sampled_row gen idx_gen i)
                                           (sampled_row real idx_real j))).
  - intros i j Hi Hj.
    destruct (Hx i Hi) as [-> Hxi]. destruct (Hx j Hj) as [-> Hxj].
    destruct (Hy i Hi) as [-> Hyi]. destruct (Hy j Hj) as [-> Hyj].
    rewrite !kernel_polynomial by assumption. reflexivity.
  - intros i j Hi Hj.
    destruct (Hx i Hi) as [-> Hxi]. destruct (Hy j Hj) as [-> Hyj].
    apply kernel_polynomial; assumption.
Qed.

Section Kid.

Variable rng : Type.
Variable choice : rng -> nat -> nat -> list nat * rng.

(** What numpy promises of [choice(a, size, replace=False)]. *)
Hypothesis choice_without_replacement :
  forall g a size, (size <= a)%nat -> sample_without_replacement a size (fst (choice g a size)).

Variables (real_features gen_features : array2) (D : nat).
Hypothesis real_rect : rect (length real_features) D real_features.
Hypothesis gen_rect : rect (length gen_features) D gen_features.
Hypothesis D_pos : (0 < D)%nat.

Lemma draws_sampled (m passes : nat) (g : rng) :
  (m <= length real_features)%nat -> (m <= length gen_features)%nat ->
  Forall (fun d => sample_without_replacement (length real_features) m (fst d)
                   /\ sample_without_replacement (length gen_features) m (snd d))
         (draws choice (length real_features) (length gen_features) m passes g).
Proof.
  intros Hr Hg. revert g. induction passes as [|passes IH]; intros g; [constructor|].
  cbn [draws].
  pose proof (choice_without_replacement g _ _ Hr) as H1.
  destruct (choice g (length real_features) m) as [idx_real g1].
  pose proof (choice_without_replacement g1 _ _ Hg) as H2.
  destruct (choice g1 (length gen_features) m) as [idx_gen g2].
  constructor; [split; assumption | apply IH].
Qed.

Lemma kid_loop_spec (m n passes : nat) (t : Qc) (g : rng) :
  (0 < m)%nat -> (m <= length real_features)%nat -> (m <= length gen_features)%nat ->
  fst (kid_loop choice real_features gen_features m n passes t g)
  = t + qsum (map (fun d => estimate n m (take_rows gen_features (snd d))
                                     (take_rows real_features (fst d)))
                  (draws choice (length real_features) (length gen_features) m passes g)).
Proof.
  intros Hm Hr Hg. revert t g. induction passes as [|passes IH]; intros t g.
  - cbn. change (qsum []) with (Q2Qc 0). ring.
  - cbn [kid_loop draws]. unfold kid_subset, shape0.
    pose proof (choice_without_replacement g _ _ Hr) as H1.
    destruct (choice g (length real_features) m) as [idx_real g1].
    pose proof (choice_without_replacement g1 _ _ Hg) as H2.
    destruct (choice g1 (length gen_features) m) as [idx_gen g2].
    cbn [fst snd] in *. rewrite IH. cbn [map fst snd]. rewrite qsum_cons.
    rewrite (estimate_arrays n m D);
      [ring | apply (take_rows_rect (length gen_features)); assumption
       | apply (take_rows_rect (length real_features)); assumption | exact Hm | exact D_pos].
Qed.

Lemma draws_length (a b m passes : nat) (g : rng) :
  length (draws choice a b m passes g) = passes.
Proof.
  revert g. induction passes as [|passes IH]; intros g; [reflexivity|].
  cbn [draws]. destruct (choice g a m) as [ir g1]. destruct (choice g1 b m) as [ig g2].
  cbn [length]. rewrite IH. reflexivity.
Qed.

Lemma subset_size_bounds (max_subset_size : Z) :
  (2 <= subset_size real_features gen_features max_subset_size)%Z ->
  let m := Z.to_nat (subset_size real_features gen_features max_subset_size) in
  (2 <= m)%nat /\ (m <= length real_features)%nat /\ (m <= length gen_features)%nat.
Proof. intros H m. unfold m, subset_size in *. lia. Qed.

(** One pass of the loop: the two draws, real set first, and the
    estimate over the sampled rows. *)
Lemma kid_subset_spec (m : nat) (g : rng) :
  (0 < m)%nat -> (m <= length real_features)%nat -> (m <= length gen_features)%nat ->
  let '(idx_real, g1) := choice g (length real_features) m in
  let '(idx_gen, g2) := choice g1 (length gen_features) m in
  kid_subset choice real_features gen_features m D g
  = (subset_estimate D m (sampled_row gen_features idx_gen)
                         (sampled_row real_features idx_real), g2).
Proof.
  intros Hm Hr Hg. unfold kid_subset, shape0.
  pose proof (choice_without_replacement g _ _ Hr) as H1.
  destruct (choice g (length real_features) m) as [idx_real g1].
  pose proof (choice_without_replacement g1 _ _ Hg) as H2.
  destruct (choice g1 (length gen_features) m) as [idx_gen g2].
  cbn [fst] in H1, H2. f_equal.
  rewrite (estimate_arrays D m D);
    [| apply (take_rows_rect (length gen_features)); assumption
     | apply (take_rows_rect (length real_features)); assumption | exact Hm | exact D_pos].
  apply (estimate_by_index (length gen_features) (length real_features)); assumption.
Qed.

(** C2. For feature matrices of one dimension [D > 0] with subset size
    [m >= 2], [choice] sampling without replacement, and [num_subsets]
    not 0.  Every pass draws a size-[m] sample of row indices from the
    real set and then one from the generated set, without replacement,
    and computes, for the generated rows [x] and the real rows [y] at
    these indices, [(sum(a) - trace(a)) / (m - 1) - 2 sum(b) / m] with
    the [m] by [m] kernel matrices [a = K(x,x) + K(y,y)] and
    [b = K(x,y)] of [k(u,v) = (u.v / D + 1)^3]; and the function
    returns the sum of the estimates of its [num_subsets] passes
    divided by [num_subsets * m]. *)
Theorem kid_sums_subset_estimates (num_subsets max_subset_size : Z) (g : rng)
        (Hm : (2 <= subset_size real_features gen_features max_subset_size)%Z)
        (Hsubsets : num_subsets <> 0%Z) :
  let m := Z.to_nat (subset_size real_features gen_features max_subset_size) in
  let passes := Z.to_nat num_subsets in
  let subsets := draws choice (length real_features) (length gen_features) m passes g in
  let x := fun s => sampled_row gen_features (snd (nth s subsets ([], []))) in
  let y := fun s => sampled_row real_features (fst (nth s subsets ([], []))) in
  (forall g0,
      let '(idx_real, g1) := choice g0 (length real_features) m in
      let '(idx_gen, g2) := choice g1 (length gen_features) m in
      kid_subset choice real_features gen_features m D g0
      = (subset_estimate D m (sampled_row gen_features idx_gen)
                             (sampled_row real_features idx_real), g2))
  /\ length subsets = passes
  /\ Forall (fun d => sample_without_replacement (length real_features) m (fst d)
                      /\ sample_without_replacement (length gen_features) m (snd d)) subsets
  /\ kid_score choice real_features gen_features num_subsets max_subset_size g
     = Ok (sum_below passes (fun s => subset_estimate D m (x s) (y s))
           / of_Z (num_subsets * Z.of_nat m)).
Proof.
  intros m passes subsets x y.
  destruct (subset_size_bounds max_subset_size Hm) as [Hm2 [Hmr Hmg]]. fold m in Hm2, Hmr, Hmg.
  pose proof (draws_sampled m passes g Hmr Hmg) as Hsampled. fold subsets in Hsampled.
  pose proof (draws_length (length real_features) (length gen_features) m passes g) as Hlen.
  fold subsets in Hlen.
  split; [|split; [|split]].
  - intros g0. apply kid_subset_spec; [lia | exact Hmr | exact Hmg].
  - exact Hlen.
  - exact Hsampled.
  - unfold kid_score, shape0.
    change (Z.min (Z.min (Z.of_nat (length real_features)) (Z.of_nat (length gen_features)))
                  max_subset_size)
      with (subset_size real_features gen_features max_subset_size).
    destruct (Z.ltb_spec (subset_size real_features gen_features max_subset_size) 2); [lia|].
    fold m.
    rewrite (rect_shape1 _ D real_features real_rect) by lia.
    pose proof (kid_loop_spec m D (Z.to_nat num_subsets) 0 g ltac:(lia) Hmr Hmg) as Hloop.
    destruct (kid_loop choice real_features gen_features m D (Z.to_nat num_subsets) 0 g)
      as [t g'].
    cbn [fst] in Hloop. fold passes subsets in Hloop.
    destruct (Z.eqb_spec (num_subsets * subset_size real_features gen_features max_subset_size) 0);
      [lia|].
    f_equal. rewrite Hloop.
    replace (Z.of_nat m) with (subset_size real_features gen_features max_subset_size)
      by (unfold m; lia).
    rewrite (qsum_map_sum_below _ ([], []) subsets), Hlen.
    rewrite (sum_below_ext passes _ (fun s => subset_estimate D m (x s) (y s)));
      [rewrite Qcplus_0_l; reflexivity|].
    intros s Hs. unfold x, y.
    rewrite Forall_forall in Hsampled.
    destruct (Hsampled (nth s subsets ([], []))) as [Hr Hg];
      [apply nth_In; rewrite Hlen; exact Hs|].
    apply (estimate_by_index (length gen_features) (length real_features)); assumption.
Qed.

End Kid.

Lemma window_choice_without_replacement (g a size : nat) :
  (size <= a)%nat -> sample_without_replacement a size (fst (window_choice g a size)).
Proof.
  intros H. unfold window_choice. cbn [fst]. split; [apply length_seq|].
  split; [apply seq_NoDup|].
  apply Forall_forall. intros i Hi. apply in_seq in Hi.
  pose proof (Nat.mod_upper_bound g (a - size + 1) ltac:(lia)). lia.
Qed.

Lemma example_features_rect :
  rect (length example_real_features) 2 example_real_features
  /\ rect (length example_gen_features) 2 example_gen_features.
Proof.
  split; (split; [reflexivity | repeat (apply Forall_cons; [reflexivity|]); apply Forall_nil]).
Qed.

(** The theorem on the example sets with three subsets of size two. *)
Lemma kid_sums_subset_estimates_witness :
  (2 <= subset_size example_real_features example_gen_features 2)%Z
  /\ 3%Z <> 0%Z
  /\ kid_score window_choice example_real_features example_gen_features 3 2 0%nat
     = Ok (sum_below 3
             (fun s => subset_estimate 2 2
                         (sampled_row example_gen_features
                                      (snd (nth s (draws window_choice 3 2 2 3 0%nat) ([], []))))
                         (sampled_row example_real_features
                                      (fst (nth s (draws window_choice 3 2 2 3 0%nat) ([], [])))))
           / of_Z (3 * 2)).
Proof.
  assert (Hm : (2 <= subset_size example_real_features example_gen_features 2)%Z)
    by (vm_compute; discriminate).
  assert (Hs : 3%Z <> 0%Z) by discriminate.
  split; [exact Hm|]. split; [exact Hs|].
  exact (proj2 (proj2 (proj2
           (kid_sums_subset_estimates nat window_choice window_choice_without_replacement
              example_real_features example_gen_features 2
              (proj1 example_features_rect) (proj2 example_features_rect)
              ltac:(lia) 3%Z 2%Z 0%nat Hm Hs)))).
Defined.

Section KidErrors.

Variable tree : string -> option (list node).
Variable featurize : string -> option (list Qc).
Variable rng : Type.
Variable choice : rng -> nat -> nat -> list nat * rng.

Lemma extract_features_other_error (image_folder : string) (recursive : bool) (e : exn) :
  snd (extract_features tree featurize image_folder recursive) = Raise e ->
  e <> ValueError "Not enough samples to compute KID.".
Proof.
  intros H ->. revert H. unfold extract_features, image_files.
  destruct recursive, (tree image_folder) as [entries|];
    repeat match goal with
           | |- context [if ?b then _ else _] => destruct b
           | |- context [let '(_, _) := ?p in _] => destruct p
           end;
    cbn [snd]; intros H; try discriminate H; injection H as H; discriminate H.
Qed.

(** C6. The function raises its "Not enough samples" [ValueError]
    exactly when m = min(|real|, |gen|, max_subset_size) < 2, both on
    given feature matrices and as a whole (where the matrices are those
    the two extractions return); with m >= 2 the loop runs and, for
    [num_subsets] not 0, a score is returned. *)
Theorem kid_insufficient_samples :
  (forall real_features gen_features num_subsets max_subset_size g,
      kid_score choice real_features gen_features num_subsets max_subset_size g
      = Raise (ValueError "Not enough samples to compute KID.")
      <-> (subset_size real_features gen_features max_subset_size < 2)%Z)
  /\ (forall real_images_folder gen_images_folder num_subsets max_subset_size g,
        calculate_kid tree featurize choice real_images_folder gen_images_folder
                      num_subsets max_subset_size g
        = Raise (ValueError "Not enough samples to compute KID.")
        <-> exists real_features gen_features,
              snd (extract_features tree featurize real_images_folder true) = Ok real_features
              /\ snd (extract_features tree featurize gen_images_folder false) = Ok gen_features
              /\ (subset_size real_features gen_features max_subset_size < 2)%Z)
  /\ (forall real_features gen_features num_subsets max_subset_size g,
        (2 <= subset_size real_features gen_features max_subset_size)%Z ->
        num_subsets <> 0%Z ->
        exists score,
          kid_score choice real_features gen_features num_subsets max_subset_size g = Ok score).
Proof.
  assert (Hscore : forall real_features gen_features num_subsets max_subset_size g,
             kid_score choice real_features gen_features num_subsets max_subset_size g
             = Raise (ValueError "Not enough samples to compute KID.")
             <-> (subset_size real_features gen_features max_subset_size < 2)%Z).
  { intros real gen ns mss g. unfold kid_score, subset_size, shape0.
    destruct (Z.ltb_spec (Z.min (Z.min (Z.of_nat (length real)) (Z.of_nat (length gen))) mss) 2)
      as [Hlt|Hge].
    - split; [intros _; exact Hlt | reflexivity].
    - destruct (kid_loop choice real gen _ _ _ 0 g) as [t g'].
      destruct (_ =? 0)%Z; split; intros H; try discriminate H; lia. }
  split; [exact Hscore|]. split.
  - intros rf gf ns mss g. unfold calculate_kid.
    destruct (snd (extract_features tree featurize rf true)) as [real|e] eqn:Hr; cbn [bind].
    + destruct (snd (extract_features tree featurize gf false)) as [gen|e] eqn:Hg; cbn [bind].
      * rewrite Hscore. split.
        -- intros H. exists real, gen. auto.
        -- intros [real' [gen' [Hr' [Hg' H]]]]. congruence.
      * split.
        -- intros H. injection H as ->. elim (extract_features_other_error gf false _ Hg eq_refl).
        -- intros [real' [gen' [_ [Hg' _]]]]. discriminate.
    + split.
      * intros H. injection H as ->. elim (extract_features_other_error rf true _ Hr eq_refl).
      * intros [real' [gen' [Hr' _]]]. discriminate.
  - intros real gen ns mss g Hm Hns. unfold kid_score, subset_size, shape0 in *.
    destruct (Z.ltb_spec (Z.min (Z.min (Z.of_nat (length real)) (Z.of_nat (length gen))) mss) 2);
      [lia|].
    destruct (kid_loop choice real gen _ _ _ 0 g) as [t g'].
    destruct (Z.eqb_spec (ns * Z.min (Z.min (Z.of_nat (length real)) (Z.of_nat (length gen))) mss)
                         0); [lia|].
    eexists. reflexivity.
Qed.

End KidErrors.

(** The last part of the theorem on the example sets. *)
Lemma kid_insufficient_samples_witness :
  (2 <= subset_size example_real_features example_gen_features 2)%Z
  /\ 3%Z <> 0%Z
  /\ exists score,
       kid_score window_choice example_real_features example_gen_features 3 2 0%nat = Ok score.
Proof.
  assert (Hm : (2 <= subset_size example_real_features example_gen_features 2)%Z)
    by (vm_compute; discriminate).
  assert (Hs : 3%Z <> 0%Z) by discriminate.
  split; [exact Hm|]. split; [exact Hs|].
  apply (proj2 (proj2 (kid_insufficient_samples (fun _ => None) (fun _ => None)
                         nat window_choice))
           example_real_features example_gen_features 3%Z 2%Z 0%nat Hm Hs).
Defined.

End Distance_Facts.

(** * Further properties of the code *)

(** ** Order and sums in the number model *)

Section Order.

Open Scope Qc_scope.

Lemma of_Z_le (a b : Z) : (a <= b)%Z -> of_Z a <= of_Z b.
Proof.
  intros H. unfold of_Z, Qcle. cbn [this Q2Qc]. rewrite !Qred_correct.
  rewrite <- Zle_Qle. exact H.
Qed.

Lemma of_Z_lt (a b : Z) : (a < b)%Z -> of_Z a < of_Z b.
Proof.
  intros H. unfold of_Z, Qclt. cbn [this Q2Qc]. rewrite !Qred_correct.
  rewrite <- Zlt_Qlt. exact H.
Qed.

Lemma of_Z_0 : of_Z 0 = 0.
Proof. apply Qc_is_canon. reflexivity. Qed.

Lemma of_Z_1 : of_Z 1 = 1.
Proof. apply Qc_is_canon. reflexivity. Qed.

Lemma of_Z_mul (a b : Z) : of_Z (a * b) = of_Z a * of_Z b.
Proof.
  unfold of_Z, Qcmult. apply Qc_is_canon. cbn [this Q2Qc].
  rewrite !Qred_correct, inject_Z_mult. reflexivity.
Qed.

Lemma of_nat_le (n m : nat) : (n <= m)%nat -> of_nat n <= of_nat m.
Proof. intros H. apply of_Z_le. lia. Qed.

Lemma of_nat_nonneg (n : nat) : 0 <= of_nat n.
Proof. rewrite <- of_Z_0. apply of_Z_le. lia. Qed.

Lemma of_nat_pos (n : nat) : (0 < n)%nat -> 0 < of_nat n.
Proof. intros H. rewrite <- of_Z_0. apply of_Z_lt. lia. Qed.

Lemma Qc_pos_neq (d : Qc) : 0 < d -> d <> 0.
Proof. intros H Hd. subst. apply (Qclt_not_eq _ _ H). reflexivity. Qed.

Lemma div_mul_cancel (a d : Qc) : d <> 0 -> a / d * d = a.
Proof. intros H. field. exact H. Qed.

Lemma div_le_compat (a b d : Qc) : 0 < d -> a <= b -> a / d <= b / d.
Proof.
  intros Hd H. apply Qcmult_lt_0_le_reg_r with (z := d); [exact Hd|].
  rewrite !div_mul_cancel by (apply Qc_pos_neq; exact Hd). exact H.
Qed.

Lemma div_nonneg (a d : Qc) : 0 < d -> 0 <= a -> 0 <= a / d.
Proof.
  intros Hd H. replace 0 with (0 / d) by (field; apply Qc_pos_neq; exact Hd).
  apply div_le_compat; assumption.
Qed.

Lemma div_le_1 (a d : Qc) : 0 < d -> a <= d -> a / d <= 1.
Proof.
  intros Hd H. replace 1 with (d / d) by (field; apply Qc_pos_neq; exact Hd).
  apply div_le_compat; assumption.
Qed.

Lemma Qcplus_nonneg (a b : Qc) : 0 <= a -> 0 <= b -> 0 <= a + b.
Proof.
  intros Ha Hb. replace 0 with (0 + 0) by ring. apply Qcplus_le_compat; assumption.
Qed.

Lemma lt_add_pos (a e : Qc) : 0 < e -> a < a + e.
Proof.
  intros H. apply (proj2 (Qclt_minus_iff _ _)).
  replace (a + e + - a) with e by ring. exact H.
Qed.

Lemma le_add_nonneg (a e : Qc) : 0 <= e -> a <= a + e.
Proof.
  intros H. apply (proj2 (Qcle_minus_iff _ _)).
  replace (a + e + - a) with e by ring. exact H.
Qed.

Lemma qsum_perm (l l' : list Qc) : Permutation l l' -> qsum l = qsum l'.
Proof.
  induction 1 as [|x l l' _ IH|x y l|l l' l'' _ IH1 _ IH2]; rewrite ?qsum_cons.
  - reflexivity.
  - rewrite IH. reflexivity.
  - ring.
  - congruence.
Qed.

Lemma qsum_le {A : Type} (f g : A -> Qc) (l : list A) :
  (forall x, In x l -> f x <= g x) -> qsum (map f l) <= qsum (map g l).
Proof.
  induction l as [|a l IH]; intros H; cbn [map]; rewrite ?qsum_cons.
  - apply Qcle_refl.
  - apply Qcplus_le_compat; [apply H; left; reflexivity|].
    apply IH. intros x Hx. apply H. right. exact Hx.
Qed.

Lemma qsum_const {A : Type} (c : Qc) (l : list A) :
  qsum (map (fun _ => c) l) = of_nat (length l) * c.
Proof.
  induction l as [|a l IH]; cbn [map length]; rewrite ?qsum_cons.
  - change (qsum []) with (Q2Qc 0). unfold of_nat. cbn [Z.of_nat]. rewrite of_Z_0. ring.
  - rewrite IH, of_nat_S. ring.
Qed.

Lemma qsum_zero {A : Type} (f : A -> Qc) (l : list A) :
  (forall x, In x l -> f x = 0) -> qsum (map f l) = 0.
Proof.
  intros H. rewrite (map_ext_in f (fun _ => 0) l H), qsum_const. ring.
Qed.

Lemma qsum_map_plus {A : Type} (f g : A -> Qc) (l : list A) :
  qsum (map (fun x => f x + g x) l) = qsum (map f l) + qsum (map g l).
Proof.
  induction l as [|a l IH]; cbn [map]; rewrite ?qsum_cons.
  - change (qsum []) with (Q2Qc 0). ring.
  - rewrite IH. ring.
Qed.

(** The mean of numbers between two bounds lies between them. *)
Lemma mean_between (lo hi : Qc) (l : list Qc) :
  l <> [] -> Forall (fun x => lo <= x <= hi) l ->
  lo <= qsum l / of_nat (length l) <= hi.
Proof.
  intros Hne Hall.
  assert (Hpos : 0 < of_nat (length l)).
  { apply of_nat_pos. destruct l; [congruence | cbn; lia]. }
  rewrite <- (map_id l) at 1 3. rewrite Forall_forall in Hall.
  split.
  - replace lo with (of_nat (length l) * lo / of_nat (length l))
      by (field; apply Qc_pos_neq; exact Hpos).
    apply div_le_compat; [exact Hpos|]. rewrite <- (qsum_const lo l).
    apply qsum_le. intros x Hx. apply (Hall x Hx).
  - replace hi with (of_nat (length l) * hi / of_nat (length l))
      by (field; apply Qc_pos_neq; exact Hpos).
    apply div_le_compat; [exact Hpos|]. rewrite <- (qsum_const hi l).
    apply qsum_le. intros x Hx. apply (Hall x Hx).
Qed.

End Order.

(** ** Position-wise combination *)

Lemma map2_swap {A B C : Type} (f : A -> B -> C) (g : B -> A -> C) (l : list A) (l' : list B) :
  (forall a b, f a b = g b a) -> map2 f l l' = map2 g l' l.
Proof.
  intros H. revert l'. induction l as [|a l IH]; intros [|b l']; cbn [map2];
    try reflexivity.
  rewrite H, IH. reflexivity.
Qed.

Lemma map2_diag {A B : Type} (f : A -> A -> B) (l : list A) :
  map2 f l l = map (fun x => f x x) l.
Proof. induction l as [|a l IH]; cbn [map2 map]; [reflexivity|]. rewrite IH. reflexivity. Qed.

(** ** Mean IoU: symmetry, range, identical grids *)

Module MeanIoU_Properties.

Import MeanIoU MeanIoU_Facts.

Lemma iou_swap (p t : grid) (c : Z) : iou p t c = iou t p c.
Proof.
  unfold iou, intersection, union, tensor_and, tensor_or.
  rewrite (map2_swap (map2 andb) (map2 andb) (tensor_eq p c) (tensor_eq t c))
    by (intros a b; apply map2_swap; apply andb_comm).
  rewrite (map2_swap (map2 orb) (map2 orb) (tensor_eq p c) (tensor_eq t c))
    by (intros a b; apply map2_swap; apply orb_comm).
  reflexivity.
Qed.

(** For two grids of one shape the score does not change when
    prediction and ground truth are exchanged. *)
Theorem miou_symmetric (pred_masks true_masks : grid) (num_classes : Z)
        (Hshape : same_shape pred_masks true_masks) :
  compute_miou pred_masks true_masks num_classes
  = compute_miou true_masks pred_masks num_classes.
Proof.
  unfold compute_miou. f_equal. apply map_ext. intros c. apply iou_swap.
Qed.

(** The theorem at the grids of the worked example. *)
Lemma miou_symmetric_witness :
  same_shape [[0; 1]; [1; 1]] [[0; 0]; [1; 1]]
  /\ compute_miou [[0; 1]; [1; 1]] [[0; 0]; [1; 1]] 2
     = compute_miou [[0; 0]; [1; 1]] [[0; 1]; [1; 1]] 2.
Proof.
  assert (Hshape : same_shape [[0; 1]; [1; 1]] [[0; 0]; [1; 1]]) by reflexivity.
  split; [exact Hshape|].
  apply (miou_symmetric [[0; 1]; [1; 1]] [[0; 0]; [1; 1]] 2 Hshape).
Defined.

Lemma filter_length_le {A : Type} (f g : A -> bool) (l : list A) :
  (forall x, f x = true -> g x = true) ->
  (length (filter f l) <= length (filter g l))%nat.
Proof.
  intros H. induction l as [|a l IH]; [apply Nat.le_refl|].
  cbn [filter]. destruct (f a) eqn:Hf.
  - rewrite (H a Hf). cbn [length]. lia.
  - destruct (g a); cbn [length]; lia.
Qed.

Lemma overlap_bounds (p t : grid) (c : Z) :
  0 <= fst (overlap p t c) <= snd (overlap p t c).
Proof.
  unfold overlap, count. cbn [fst snd]. split; [lia|].
  apply Nat2Z.inj_le. apply filter_length_le.
  intros [a b] H. apply andb_true_iff in H. destruct H as [H _]. rewrite H. reflexivity.
Qed.

Lemma class_score_bounds (p t : grid) (c : Z) :
  snd (overlap p t c) <> 0 -> (0 <= class_score p t c <= 1)%Qc.
Proof.
  intros Hne. pose proof (overlap_bounds p t c) as [H0 H1].
  assert (Hpos : (0 < of_Z (snd (overlap p t c)))%Qc).
  { rewrite <- of_Z_0. apply of_Z_lt. lia. }
  unfold class_score. split.
  - apply div_nonneg; [exact Hpos|]. rewrite <- of_Z_0. apply of_Z_le. exact H0.
  - apply div_le_1; [exact Hpos|]. apply of_Z_le. exact H1.
Qed.

(** For two grids of one shape the result is NaN or a number between
    0 and 1. *)
Theorem miou_in_unit_interval (pred_masks true_masks : grid) (num_classes : Z)
        (Hshape : same_shape pred_masks true_masks) :
  compute_miou pred_masks true_masks num_classes = NaN
  \/ exists q, compute_miou pred_masks true_masks num_classes = Real q /\ (0 <= q <= 1)%Qc.
Proof.
  rewrite compute_miou_mean_defined. unfold mean_defined_iou.
  destruct (defined_classes pred_masks true_masks num_classes) as [|c cs] eqn:Hd;
    [left; reflexivity|].
  right. eexists. split; [reflexivity|].
  rewrite <- (length_map (class_score pred_masks true_masks) (c :: cs)).
  apply mean_between; [discriminate|].
  apply Forall_forall. intros x Hx. apply in_map_iff in Hx. destruct Hx as [c' [<- Hc']].
  apply class_score_bounds. rewrite <- Hd in Hc'. unfold defined_classes in Hc'.
  apply filter_In in Hc'. destruct Hc' as [_ Hc'].
  intros Hz. rewrite Hz in Hc'. discriminate.
Qed.

(** The theorem at the grids of the worked example. *)
Lemma miou_in_unit_interval_witness :
  same_shape [[0; 1]; [1; 1]] [[0; 0]; [1; 1]]
  /\ (compute_miou [[0; 1]; [1; 1]] [[0; 0]; [1; 1]] 2 = NaN
      \/ exists q, compute_miou [[0; 1]; [1; 1]] [[0; 0]; [1; 1]] 2 = Real q
                   /\ (0 <= q <= 1)%Qc).
Proof.
  assert (Hshape : same_shape [[0; 1]; [1; 1]] [[0; 0]; [1; 1]]) by reflexivity.
  split; [exact Hshape|].
  apply (miou_in_unit_interval [[0; 1]; [1; 1]] [[0; 0]; [1; 1]] 2 Hshape).
Defined.

Lemma mask_self (op : bool -> bool -> bool) (m : mask) :
  (forall b, op b b = b) -> map2 (map2 op) m m = m.
Proof.
  intros H. rewrite map2_diag. rewrite <- (map_id m) at 2. apply map_ext. intros r.
  rewrite map2_diag. rewrite <- (map_id r) at 2. apply map_ext. exact H.
Qed.

Lemma row_sum_nonneg (r : list bool) :
  0 <= fold_right (fun (b : bool) s => (if b then 1 else 0) + s) 0 r.
Proof. induction r as [|b r IH]; cbn [fold_right]; [lia|]. destruct b; lia. Qed.

Lemma tensor_sum_cons (r : list bool) (m : mask) :
  tensor_sum (r :: m)
  = fold_right (fun (b : bool) s => (if b then 1 else 0) + s) 0 r + tensor_sum m.
Proof. reflexivity. Qed.

Lemma tensor_sum_nonneg (m : mask) : 0 <= tensor_sum m.
Proof.
  induction m as [|r m IH]; [cbn; lia|].
  rewrite tensor_sum_cons. pose proof (row_sum_nonneg r). lia.
Qed.

Lemma row_sum_pos (c : Z) (row : list Z) :
  In c row ->
  0 < fold_right (fun (b : bool) s => (if b then 1 else 0) + s) 0 (map (fun v => v =? c) row).
Proof.
  induction row as [|v row IH]; intros Hc; [contradiction|].
  cbn [map fold_right]. pose proof (row_sum_nonneg (map (fun v => v =? c) row)).
  destruct Hc as [-> | Hc].
  - rewrite Z.eqb_refl. lia.
  - specialize (IH Hc). destruct (v =? c); lia.
Qed.

Lemma tensor_sum_pos (g : grid) (c : Z) (row : list Z) :
  In row g -> In c row -> 0 < tensor_sum (tensor_eq g c).
Proof.
  intros Hrow Hc. unfold tensor_eq. induction g as [|r g IH]; [contradiction|].
  cbn [map]. rewrite tensor_sum_cons.
  pose proof (tensor_sum_nonneg (map (map (fun v => v =? c)) g)) as Hrest.
  pose proof (row_sum_nonneg (map (fun v => v =? c) r)) as Hr.
  destruct Hrow as [-> | Hrow].
  - pose proof (row_sum_pos c row Hc). lia.
  - specialize (IH Hrow). lia.
Qed.

(** A grid compared with itself scores exactly 1 when every class of
    [0, C) occurs in it. *)
Theorem miou_of_identical_grids (masks : grid) (num_classes : Z)
        (Hclasses : 0 < num_classes)
        (Hall : forall c, 0 <= c < num_classes -> exists row, In row masks /\ In c row) :
  compute_miou masks masks num_classes = Real 1%Qc.
Proof.
  unfold compute_miou.
  rewrite (map_ext_in (iou masks masks) (fun _ => Real 1%Qc)).
  - unfold np_nanmean. unfold range.
    destruct (Z.to_nat num_classes) as [|n] eqn:Hn; [lia|].
    rewrite map_map. 
    replace (flat_map _ _) with (map (fun _ : nat => 1%Qc) (seq 0 (S n))).
    2:{ generalize (seq 0 (S n)). intros l. induction l as [|a l IH]; [reflexivity|].
        cbn [map flat_map app]. rewrite IH. reflexivity. }
    cbn [seq map]. apply Real_eq. 
    change (1%Qc :: map (fun _ : nat => 1%Qc) (seq 1 n))
      with (map (fun _ : nat => 1%Qc) (seq 0 (S n))).
    rewrite qsum_const, length_map.
    assert (Hpos : (of_nat (length (seq 0 (S n))) <> 0)%Qc).
    { apply Qc_pos_neq, of_nat_pos. rewrite length_seq. lia. }
    assert (Heq : (of_nat (length (seq 0 (S n))) * 1 / of_nat (length (seq 0 (S n))) = 1)%Qc)
      by (field; exact Hpos).
    rewrite Heq. reflexivity.
  - intros c Hc. apply in_range in Hc. destruct (Hall c Hc) as [row [Hrow Hin]].
    pose proof (tensor_sum_pos masks c row Hrow Hin) as Hpos.
    unfold iou, intersection, union, tensor_and, tensor_or.
    rewrite (mask_self andb) by (intros []; reflexivity).
    rewrite (mask_self orb) by (intros []; reflexivity).
    destruct (Z.eqb_spec (tensor_sum (tensor_eq masks c)) 0); [lia|].
    f_equal. field. apply Qc_pos_neq. rewrite <- of_Z_0. apply of_Z_lt. exact Hpos.
Qed.

(** The theorem on a grid holding the classes 0 and 1. *)
Lemma miou_of_identical_grids_witness :
  0 < 2
  /\ (forall c, 0 <= c < 2 -> exists row, In row [[0; 1]; [1; 1]] /\ In c row)
  /\ compute_miou [[0; 1]; [1; 1]] [[0; 1]; [1; 1]] 2 = Real 1%Qc.
Proof.
  assert (H2 : 0 < 2) by lia.
  assert (Hall : forall c, 0 <= c < 2 -> exists row, In row [[0; 1]; [1; 1]] /\ In c row).
  { intros c Hc. exists [0; 1]. split; [left; reflexivity|].
    assert (c = 0 \/ c = 1) as [-> | ->] by lia; cbn; auto. }
  split; [exact H2|]. split; [exact Hall|].
  apply (miou_of_identical_grids [[0; 1]; [1; 1]] 2 H2 Hall).
Defined.

End MeanIoU_Properties.

(** ** Average precision: range, degenerate samples, rejected input *)

Module AveragePrecision_Properties.

Import AveragePrecision AveragePrecision_Facts.
Open Scope Qc_scope.

Lemma eps_pos : 0 < eps.
Proof. reflexivity. Qed.

Lemma qsum_append (l l' : list Qc) : qsum (l ++ l') = qsum l + qsum l'.
Proof.
  induction l as [|x l IH]; cbn [app]; rewrite ?qsum_cons.
  - change (qsum []) with (Q2Qc 0). ring.
  - rewrite IH. ring.
Qed.

Lemma of_nat_add (n m : nat) : of_nat (n + m) = of_nat n + of_nat m.
Proof.
  induction n as [|n IH]; cbn [Nat.add].
  - rewrite of_nat_0. ring.
  - rewrite !of_nat_S, IH. ring.
Qed.

Lemma filter_firstn_mono {A : Type} (f : A -> bool) (l : list A) (k : nat) :
  (length (filter f (firstn k l)) <= length (filter f (firstn (S k) l)))%nat.
Proof.
  revert k. induction l as [|a l IH]; intros k.
  - rewrite !firstn_nil. apply Nat.le_refl.
  - destruct k as [|k].
    + cbn [firstn filter length]. lia.
    + rewrite !firstn_cons. cbn [filter]. specialize (IH k).
      destruct (f a); cbn [length]; lia.
Qed.

Lemma filter_firstn_le {A : Type} (f : A -> bool) (l : list A) (k : nat) :
  (length (filter f (firstn k l)) <= length (filter f l))%nat.
Proof.
  revert k. induction l as [|a l IH]; intros k.
  - rewrite firstn_nil. apply Nat.le_refl.
  - destruct k as [|k]; [cbn [firstn filter length]; lia|].
    rewrite firstn_cons. cbn [filter]. specialize (IH k).
    destruct (f a); cbn [length]; lia.
Qed.

(** The trapezoidal sum of a curve whose heights lie in [0, 1] and
    whose abscissae do not decrease is at least 0 and at most the
    width covered. *)
Lemma telescope (x : nat -> Qc) (m : nat) :
  qsum (map (fun k => x (S k) - x k) (seq 0 m)) = x m - x 0%nat.
Proof.
  induction m as [|m IH].
  - change (qsum (map _ (seq 0 0))) with (Q2Qc 0). ring.
  - rewrite seq_S, map_app, qsum_append, IH. cbn [map Nat.add]. rewrite qsum_cons.
    change (qsum []) with (Q2Qc 0). ring.
Qed.

Lemma half_sum_bounds (a b : Qc) :
  0 <= a <= 1 -> 0 <= b <= 1 -> 0 <= (a + b) / of_Z 2 <= 1.
Proof.
  intros [Ha0 Ha1] [Hb0 Hb1].
  assert (H2 : 0 < of_Z 2) by (rewrite <- of_Z_0; apply of_Z_lt; lia).
  split.
  - apply div_nonneg; [exact H2 | apply Qcplus_nonneg; assumption].
  - apply div_le_1; [exact H2|].
    replace (of_Z 2) with (1 + 1) by (apply Qc_is_canon; reflexivity).
    apply Qcplus_le_compat; assumption.
Qed.

Lemma trapezoid_bounds (y x : nat -> Qc) (n : nat) :
  (forall k, 0 <= y k <= 1) -> (forall k, x k <= x (S k)) ->
  0 <= trapezoid y x n <= x (n - 1)%nat - x 0%nat.
Proof.
  intros Hy Hx. unfold trapezoid.
  assert (Hterm : forall k,
             0 <= (x (S k) - x k) * ((y k + y (S k)) / of_Z 2) <= x (S k) - x k).
  { intros k. pose proof (half_sum_bounds _ _ (Hy k) (Hy (S k))) as [Hh0 Hh1].
    assert (Hd : 0 <= x (S k) - x k).
    { unfold Qcminus. apply (proj1 (Qcle_minus_iff _ _)). apply Hx. }
    split.
    - replace 0 with (0 * ((y k + y (S k)) / of_Z 2)) by ring.
      apply Qcmult_le_compat_r; assumption.
    - rewrite Qcmult_comm. rewrite <- (Qcmult_1_l (x (S k) - x k)) at 2.
      apply Qcmult_le_compat_r; assumption. }
  split.
  - rewrite <- (qsum_zero (fun _ : nat => 0) (seq 0 (n - 1))) by reflexivity.
    apply qsum_le. intros k _. apply Hterm.
  - rewrite <- telescope. apply qsum_le. intros k _. apply Hterm.
Qed.

Section Bounds.

Variable argsort : list Qc -> list nat.

Variables (real : tensor Z) (pred : tensor Qc).
Hypothesis Hwf : well_formed (real, pred).
Hypothesis Hrk : ranked argsort (real, pred).

Lemma classes_pos : (0 < num_classes pred)%nat.
Proof.
  destruct Hwf as [[B [C [H [W [Hs HC]]]]] _].
  destruct (num_classes_shape pred B C H W Hs) as [-> _]. exact HC.
Qed.

Lemma ranking_perm (c : nat) :
  (c < num_classes pred)%nat ->
  Permutation (argsort (class_probs pred c)) (seq 0 (length (data real))).
Proof.
  intros Hc. destruct Hwf as [[B [C [H [W [Hs HC]]]]] [Hlen _]].
  destruct (num_classes_shape pred B C H W Hs) as [HnC [HnP _]].
  destruct (permute_reshape_ok pred B C H W Hs HC) as [mp [_ [Hrows Hpc]]].
  destruct (Hrk c Hc) as [Hperm _].
  replace (length (data real)) with (length (class_probs pred c)); [exact Hperm|].
  rewrite Hlen, HnP, <- (Hpc c ltac:(lia)). unfold column. rewrite length_map. exact Hrows.
Qed.

Lemma tp_le_total (c k : nat) :
  (c < num_classes pred)%nat -> (tp argsort real pred c k <= total_positives real c)%nat.
Proof.
  intros Hc. unfold tp, total_positives.
  rewrite <- (filter_length_perm (positive c) _ _
                (reindex_perm 0%Z (data real) _ (ranking_perm c Hc))).
  apply filter_firstn_le.
Qed.

Lemma precision_bounds (c k : nat) : 0 <= precision_at argsort real pred c k <= 1.
Proof.
  unfold precision_at.
  pose proof (of_nat_nonneg (tp argsort real pred c k)) as Ht.
  pose proof (of_nat_nonneg (fp argsort real pred c k)) as Hf.
  assert (Hd : 0 < of_nat (tp argsort real pred c k) + of_nat (fp argsort real pred c k) + eps).
  { apply Qcle_lt_trans with
      (y := of_nat (tp argsort real pred c k) + of_nat (fp argsort real pred c k)).
    - apply Qcplus_nonneg; assumption.
    - apply lt_add_pos, eps_pos. }
  split; [apply div_nonneg; assumption|].
  apply div_le_1; [exact Hd|].
  rewrite <- Qcplus_assoc. apply le_add_nonneg.
  apply Qcplus_nonneg; [exact Hf | apply Qclt_le_weak, eps_pos].
Qed.

Lemma recall_denominator_pos (c : nat) : 0 < of_nat (total_positives real c) + eps.
Proof.
  apply Qcle_lt_trans with (y := of_nat (total_positives real c)).
  - apply of_nat_nonneg.
  - apply lt_add_pos, eps_pos.
Qed.

Lemma recall_bounds (c k : nat) :
  (c < num_classes pred)%nat -> 0 <= recall_at argsort real pred c k <= 1.
Proof.
  intros Hc. unfold recall_at. pose proof (recall_denominator_pos c) as Hd. split.
  - apply div_nonneg; [exact Hd | apply of_nat_nonneg].
  - apply div_le_1; [exact Hd|].
    apply Qcle_trans with (y := of_nat (total_positives real c)).
    + apply of_nat_le, tp_le_total. exact Hc.
    + apply le_add_nonneg, Qclt_le_weak, eps_pos.
Qed.

Lemma recall_monotone (c k : nat) :
  recall_at argsort real pred c k <= recall_at argsort real pred c (S k).
Proof.
  unfold recall_at. apply div_le_compat; [apply recall_denominator_pos|].
  apply of_nat_le. unfold tp. apply filter_firstn_mono.
Qed.

Lemma blended_between (f : nat -> nat -> Qc) (k : nat) (lo hi : Qc) :
  (forall c, (c < num_classes pred)%nat -> lo <= f c k <= hi) ->
  lo <= blended pred f k <= hi.
Proof.
  intros H. unfold blended.
  set (l := map (fun c => f c k) (seq 0 (num_classes pred))).
  replace (of_nat (num_classes pred)) with (of_nat (length l))
    by (unfold l; rewrite length_map, length_seq; reflexivity).
  apply mean_between; unfold l.
  - pose proof classes_pos. destruct (num_classes pred); [lia | discriminate].
  - apply Forall_forall. intros x Hx. apply in_map_iff in Hx. destruct Hx as [c [<- Hc]].
    apply in_seq in Hc. apply H. lia.
Qed.

Lemma blended_monotone (f : nat -> nat -> Qc) (k k' : nat) :
  (forall c, f c k <= f c k') -> blended pred f k <= blended pred f k'.
Proof.
  intros H. unfold blended. apply div_le_compat; [apply of_nat_pos, classes_pos|].
  apply qsum_le. intros c _. apply H.
Qed.

Lemma blended_ap_bounds : 0 <= blended_ap argsort real pred <= 1.
Proof.
  unfold blended_ap.
  pose proof (trapezoid_bounds (blended pred (precision_at argsort real pred))
                               (blended pred (recall_at argsort real pred))
                               (num_pixels pred)) as [H0 H1].
  - intros k. apply blended_between. intros c _. apply precision_bounds.
  - intros k. apply blended_monotone. intros c. apply recall_monotone.
  - split; [exact H0|]. apply (Qcle_trans _ _ _ H1).
    pose proof (blended_between (recall_at argsort real pred) (num_pixels pred - 1) 0 1
                  (fun c Hc => recall_bounds c _ Hc)) as [_ Hhi].
    pose proof (blended_between (recall_at argsort real pred) 0 0 1
                  (fun c Hc => recall_bounds c _ Hc)) as [Hlo _].
    apply (proj2 (Qcle_minus_iff _ _)).
    replace (1 + - (blended pred (recall_at argsort real pred) (num_pixels pred - 1)
                    - blended pred (recall_at argsort real pred) 0))
      with ((1 + - blended pred (recall_at argsort real pred) (num_pixels pred - 1))
            + blended pred (recall_at argsort real pred) 0) by ring.
    apply Qcplus_nonneg; [apply (proj1 (Qcle_minus_iff _ _)); exact Hhi | exact Hlo].
Qed.

Lemma blended_ap_few_pixels : (num_pixels pred <= 1)%nat -> blended_ap argsort real pred = 0.
Proof.
  intros H. unfold blended_ap, trapezoid.
  replace (num_pixels pred - 1)%nat with 0%nat by lia. reflexivity.
Qed.

End Bounds.

Section Score.

Variable argsort : list Qc -> list nat.

Lemma mean_ap_bounds (pairs : list (tensor Z * tensor Qc)) :
  Forall well_formed pairs -> Forall (ranked argsort) pairs ->
  0 <= mean_ap argsort pairs <= 1.
Proof.
  intros Hwf Hrk. unfold mean_ap. destruct pairs as [|s pairs].
  - split; [apply Qcle_refl | apply Qclt_le_weak; reflexivity].
  - set (l := s :: pairs) in *.
    rewrite <- (length_map (fun '(real, pred) => blended_ap argsort real pred) l).
    apply mean_between; [discriminate|].
    apply Forall_forall. intros x Hx. apply in_map_iff in Hx.
    destruct Hx as [[real pred] [<- Hin]]. rewrite Forall_forall in Hwf, Hrk.
    apply blended_ap_bounds; [apply (Hwf _ Hin) | apply (Hrk _ Hin)].
Qed.

(** On well-formed samples the score is a number between 0 and 1. *)
Theorem ap_in_unit_interval (real_masks : list (tensor Z)) (pred_probs : list (tensor Qc))
        (Hwf : Forall well_formed (combine real_masks pred_probs))
        (Hrk : Forall (ranked argsort) (combine real_masks pred_probs)) :
  exists score, compute_ap argsort real_masks pred_probs = Ok score /\ 0 <= score <= 1.
Proof.
  exists (mean_ap argsort (combine real_masks pred_probs)). split.
  - apply compute_ap_mean; assumption.
  - apply mean_ap_bounds; assumption.
Qed.

(** A sample with at most one pixel has a curve of at most one point,
    so no area: when no sample has two pixels the score is 0, whatever
    is predicted. *)
Theorem ap_of_single_pixel_samples
        (real_masks : list (tensor Z)) (pred_probs : list (tensor Qc))
        (Hwf : Forall well_formed (combine real_masks pred_probs))
        (Hrk : Forall (ranked argsort) (combine real_masks pred_probs))
        (Hsmall : Forall (fun s => (num_pixels (snd s) <= 1)%nat)
                         (combine real_masks pred_probs)) :
  compute_ap argsort real_masks pred_probs = Ok 0.
Proof.
  rewrite compute_ap_mean by assumption. f_equal. unfold mean_ap.
  destruct (combine real_masks pred_probs) as [|s pairs]; [reflexivity|].
  rewrite qsum_zero; [field; apply Qc_pos_neq, of_nat_pos; cbn; lia|].
  intros [real pred] Hin. rewrite Forall_forall in Hsmall.
  apply blended_ap_few_pixels. apply (Hsmall _ Hin).
Qed.

Lemma sample_ap_accepts (real : tensor Z) (pred : tensor Qc) (v : Qc) :
  sample_ap argsort real pred = Ok v ->
  exists B C H W,
    shape pred = [B; C; H; W] /\ (0 < C)%nat
    /\ Forall (fun l => (0 <= l < Z.of_nat C)%Z) (data real).
Proof.
  unfold sample_ap, permute_reshape, size_1, view_flat.
  destruct (shape pred) as [|B [|C [|H [|W [|x s]]]]]; try discriminate.
  cbn [nth]. destruct (Nat.eqb_spec C 0); [discriminate|]. cbn [bind].
  intros Hok. exists B, C, H, W. split; [reflexivity|]. split; [lia|].
  unfold one_hot in Hok. destruct (data real) as [|l ls]; [constructor|].
  destruct (existsb (fun v => (v <? 0)%Z) (l :: ls)) eqn:Hneg; [discriminate|].
  destruct (forallb (fun v => (v <? Z.of_nat C)%Z) (l :: ls)) eqn:Hlt; [|discriminate].
  apply Forall_forall. intros x Hx. split.
  - destruct (Z.ltb_spec x 0) as [Hx0|]; [|assumption].
    assert (existsb (fun v => (v <? 0)%Z) (l :: ls) = true); [|congruence].
    apply existsb_exists. exists x. split; [exact Hx | apply Z.ltb_lt; exact Hx0].
  - rewrite forallb_forall in Hlt. apply Z.ltb_lt. apply Hlt. exact Hx.
Qed.

Lemma ap_loop_accepts (pairs : list (tensor Z * tensor Qc)) (acc : Qc) (n : nat)
      (r : Qc * nat) :
  ap_loop argsort pairs acc n = Ok r ->
  Forall (fun s => exists v, sample_ap argsort (fst s) (snd s) = Ok v) pairs.
Proof.
  revert acc n. induction pairs as [|[real pred] pairs IH]; intros acc n H; [constructor|].
  cbn [ap_loop] in H. destruct (sample_ap argsort real pred) as [v|e] eqn:Hs; [|discriminate].
  cbn [bind] in H. constructor; [exists v; exact Hs | apply (IH _ _ H)].
Qed.

(** The function returns a score only if every pair it visits has a
    four-dimensional probability tensor with at least one class and
    labels that are all class indices: a label outside [0, C) anywhere
    makes the whole call raise. *)
Theorem ap_returns_only_on_valid_labels
        (real_masks : list (tensor Z)) (pred_probs : list (tensor Qc)) (score : Qc)
        (Hok : compute_ap argsort real_masks pred_probs = Ok score) :
  Forall (fun s => exists B C H W,
              shape (snd s) = [B; C; H; W] /\ (0 < C)%nat
              /\ Forall (fun l => (0 <= l < Z.of_nat C)%Z) (data (fst s)))
         (combine real_masks pred_probs).
Proof.
  unfold compute_ap in Hok.
  destruct (ap_loop argsort (combine real_masks pred_probs) 0 0%nat) as [r|e] eqn:Hl;
    [|discriminate].
  pose proof (ap_loop_accepts _ _ _ _ Hl) as Hall.
  rewrite Forall_forall in *. intros s Hs. destruct (Hall s Hs) as [v Hv].
  apply (sample_ap_accepts _ _ _ Hv).
Qed.

End Score.

(** A sample of one pixel and two classes. *)
Lemma pixel_sample_well_formed :
  well_formed (mkTensor [1; 1; 1]%nat [1%Z],
               mkTensor [1; 2; 1; 1]%nat [Q2Qc (1 # 4); Q2Qc (3 # 4)]).
Proof.
  split; [exists 1%nat, 2%nat, 1%nat, 1%nat; split; [reflexivity | lia]|].
  split; [reflexivity|]. cbn. apply Forall_cons; [lia | apply Forall_nil].
Qed.

Lemma pixel_sample_ranked :
  ranked insertion_argsort (mkTensor [1; 1; 1]%nat [1%Z],
                            mkTensor [1; 2; 1; 1]%nat [Q2Qc (1 # 4); Q2Qc (3 # 4)]).
Proof.
  intros c Hc. cbn in Hc.
  destruct c as [|[|c]]; [| | lia]; (split; [apply Permutation_refl|]);
    repeat constructor.
Qed.

Lemma example_samples :
  Forall well_formed (combine [example_real] [example_pred])
  /\ Forall (ranked insertion_argsort) (combine [example_real] [example_pred]).
Proof.
  split; (apply Forall_cons; [|apply Forall_nil]);
    [apply example_well_formed | apply example_ranked].
Qed.

Lemma ap_in_unit_interval_witness :
  Forall well_formed (combine [example_real] [example_pred])
  /\ Forall (ranked insertion_argsort) (combine [example_real] [example_pred])
  /\ exists score,
       compute_ap insertion_argsort [example_real] [example_pred] = Ok score
       /\ 0 <= score <= 1.
Proof.
  split; [exact (proj1 example_samples)|]. split; [exact (proj2 example_samples)|].
  apply (ap_in_unit_interval insertion_argsort [example_real] [example_pred]
           (proj1 example_samples) (proj2 example_samples)).
Defined.

Lemma ap_of_single_pixel_samples_witness :
  let real := mkTensor [1; 1; 1]%nat [1%Z] in
  let pred := mkTensor [1; 2; 1; 1]%nat [Q2Qc (1 # 4); Q2Qc (3 # 4)] in
  Forall well_formed (combine [real] [pred])
  /\ Forall (ranked insertion_argsort) (combine [real] [pred])
  /\ Forall (fun s => (num_pixels (snd s) <= 1)%nat) (combine [real] [pred])
  /\ compute_ap insertion_argsort [real] [pred] = Ok 0.
Proof.
  cbv zeta.
  assert (Hwf : Forall well_formed
                  (combine [mkTensor [1; 1; 1]%nat [1%Z]]
                           [mkTensor [1; 2; 1; 1]%nat [Q2Qc (1 # 4); Q2Qc (3 # 4)]])).
  { apply Forall_cons; [apply pixel_sample_well_formed | apply Forall_nil]. }
  assert (Hrk : Forall (ranked insertion_argsort)
                  (combine [mkTensor [1; 1; 1]%nat [1%Z]]
                           [mkTensor [1; 2; 1; 1]%nat [Q2Qc (1 # 4); Q2Qc (3 # 4)]])).
  { apply Forall_cons; [apply pixel_sample_ranked | apply Forall_nil]. }
  assert (Hsmall : Forall (fun s => (num_pixels (snd s) <= 1)%nat)
                     (combine [mkTensor [1; 1; 1]%nat [1%Z]]
                              [mkTensor [1; 2; 1; 1]%nat [Q2Qc (1 # 4); Q2Qc (3 # 4)]])).
  { apply Forall_cons; [cbn; lia | apply Forall_nil]. }
  split; [exact Hwf|]. split; [exact Hrk|]. split; [exact Hsmall|].
  apply (ap_of_single_pixel_samples insertion_argsort _ _ Hwf Hrk Hsmall).
Defined.

Lemma ap_returns_only_on_valid_labels_witness :
  compute_ap insertion_argsort [example_real] [example_pred]
  = Ok (mean_ap insertion_argsort (combine [example_real] [example_pred]))
  /\ Forall (fun s => exists B C H W,
                 shape (snd s) = [B; C; H; W] /\ (0 < C)%nat
                 /\ Forall (fun l => (0 <= l < Z.of_nat C)%Z) (data (fst s)))
            (combine [example_real] [example_pred]).
Proof.
  assert (Hok : compute_ap insertion_argsort [example_real] [example_pred]
                = Ok (mean_ap insertion_argsort (combine [example_real] [example_pred]))).
  { apply compute_ap_mean; [exact (proj1 example_samples) | exact (proj2 example_samples)]. }
  split; [exact Hok|].
  apply (ap_returns_only_on_valid_labels insertion_argsort _ _ _ Hok).
Defined.

End AveragePrecision_Properties.

(** ** Feature extraction: accounting and the two search modes *)

Module FeatureExtraction_Properties.

Import FeatureExtraction FeatureExtraction_Facts.
Open Scope string_scope.

Section Extraction.

Variable tree : string -> option (list node).
Variable featurize : string -> option (list Qc).

Lemma decoded_undecodable_length (files : list string) :
  (length (decoded featurize files) + length (undecodable featurize files))%nat
  = length files.
Proof.
  induction files as [|p files IH]; [reflexivity|].
  cbn [decoded undecodable flat_map filter]. fold (decoded featurize files).
  fold (undecodable featurize files).
  destruct (featurize p); cbn [app length]; lia.
Qed.

(** When the function returns, every file it selected is accounted for:
    it gave one feature row or one warning, and the number printed is
    the number of rows plus the number of warnings. *)
Theorem extraction_accounts_for_every_file
        (image_folder : string) (recursive : bool)
        (printed : list event) (rows : list (list Qc))
        (Hret : extract_features tree featurize image_folder recursive = (printed, Ok rows)) :
  exists files warned,
    image_files tree image_folder recursive = Ok files
    /\ printed = Processing (length files) image_folder :: map Warning warned
    /\ (length rows + length warned)%nat = length files
    /\ rows <> [].
Proof.
  destruct (image_files tree image_folder recursive) as [files|e] eqn:Hf.
  - rewrite (extract_features_cases tree featurize _ _ _ Hf) in Hret.
    destruct files as [|p files]; [discriminate|].
    destruct (decoded featurize (p :: files)) as [|r rs] eqn:Hd; [discriminate|].
    injection Hret as <- <-.
    exists (p :: files), (undecodable featurize (p :: files)).
    split; [reflexivity|]. split; [reflexivity|].
    split; [rewrite <- Hd; apply decoded_undecodable_length | discriminate].
  - unfold extract_features in Hret. rewrite Hf in Hret. discriminate.
Qed.

(** In a folder without subdirectories the two search modes select the
    same files in the same order, so the function returns the same. *)
Theorem modes_agree_without_subdirectories
        (image_folder : string) (entries : list node)
        (Hdir : tree image_folder = Some entries)
        (Hflat : forallb (fun n => negb (is_dir n)) entries = true) :
  image_files tree image_folder true = image_files tree image_folder false
  /\ extract_features tree featurize image_folder true
     = extract_features tree featurize image_folder false.
Proof.
  assert (Hfiles : image_files tree image_folder true = image_files tree image_folder false).
  { unfold image_files. rewrite Hdir. f_equal. unfold os_walk, walk_entry, os_listdir.
    cbn [flat_map].
    assert (Hnone : flat_map (walk_node image_folder) entries = []).
    { clear Hdir. induction entries as [|n es IH]; [reflexivity|].
      cbn [forallb] in Hflat. apply andb_true_iff in Hflat. destruct Hflat as [Hn Hes].
      cbn [flat_map]. rewrite (IH Hes). destruct n; [reflexivity | discriminate]. }
    rewrite Hnone. cbn [flat_map]. rewrite app_nil_r.
    rewrite (forallb_filter_id _ _ Hflat). reflexivity. }
  split; [exact Hfiles|]. unfold extract_features. rewrite Hfiles. reflexivity.
Qed.

End Extraction.

Lemma extraction_accounts_for_every_file_witness :
  extract_features (fun _ => Some example_images) example_featurize "d" false
  = ([Processing 2 "d"; Warning "d/a.PNG"], Ok [[of_Z 1; of_Z 2]])
  /\ exists files warned,
       image_files (fun _ => Some example_images) "d" false = Ok files
       /\ [Processing 2 "d"; Warning "d/a.PNG"]
          = Processing (length files) "d" :: map Warning warned
       /\ (length [[of_Z 1; of_Z 2]] + length warned)%nat = length files
       /\ [[of_Z 1; of_Z 2]] <> [].
Proof.
  assert (Hret : extract_features (fun _ => Some example_images) example_featurize "d" false
                 = ([Processing 2 "d"; Warning "d/a.PNG"], Ok [[of_Z 1; of_Z 2]]))
    by reflexivity.
  split; [exact Hret|].
  apply (extraction_accounts_for_every_file (fun _ => Some example_images) example_featurize
           "d" false _ _ Hret).
Defined.

Lemma modes_agree_without_subdirectories_witness :
  (fun _ : string => Some example_images) "d" = Some example_images
  /\ forallb (fun n => negb (is_dir n)) example_images = true
  /\ image_files (fun _ => Some example_images) "d" true
     = image_files (fun _ => Some example_images) "d" false.
Proof.
  split; [reflexivity|]. split; [reflexivity|].
  apply (modes_agree_without_subdirectories (fun _ => Some example_images) example_featurize
           "d" example_images eq_refl eq_refl).
Defined.

End FeatureExtraction_Properties.

(** ** FID and KID: folders, row order, identical sets, randomness *)

Module Distance_Properties.

Import FeatureExtraction FeatureExtraction_Facts Distance Distance_Facts.
Open Scope Qc_scope.

Section Folders.

Variable featurize : string -> option (list Qc).
Variable sqrtm : array2 -> sqrtm_array.
Variable rng : Type.
Variable choice : rng -> nat -> nat -> list nat * rng.

(** The real folder is searched with [os.walk], which yields nothing for
    a path that is not a directory: a missing real folder is reported
    by both distances as a folder without image files. *)
Theorem missing_real_folder_reads_as_empty
        (tree : string -> option (list node))
        (real_images_folder gen_images_folder : string)
        (num_subsets max_subset_size : Z) (g : rng)
        (Hmissing : tree real_images_folder = None) :
  calculate_fid tree featurize sqrtm real_images_folder gen_images_folder
  = Raise (ValueError ("Error: No image files found in " ++ real_images_folder ++ "."))
  /\ calculate_kid tree featurize choice real_images_folder gen_images_folder
                   num_subsets max_subset_size g
     = Raise (ValueError ("Error: No image files found in " ++ real_images_folder ++ ".")).
Proof.
  unfold calculate_fid, calculate_kid, extract_features, image_files.
  rewrite Hmissing. split; reflexivity.
Qed.

(** The generated folder is listed with [os.listdir], which raises for a
    path that is not a directory: once the real features are extracted,
    a missing generated folder makes both distances raise the OS error. *)
Theorem missing_generated_folder_raises_os_error
        (tree : string -> option (list node))
        (real_images_folder gen_images_folder : string)
        (num_subsets max_subset_size : Z) (g : rng) (real_features : array2)
        (Hreal : snd (extract_features tree featurize real_images_folder true)
                 = Ok real_features)
        (Hmissing : tree gen_images_folder = None) :
  calculate_fid tree featurize sqrtm real_images_folder gen_images_folder = Raise OSError
  /\ calculate_kid tree featurize choice real_images_folder gen_images_folder
                   num_subsets max_subset_size g
     = Raise OSError.
Proof.
  unfold calculate_fid, calculate_kid. rewrite Hreal. cbn [bind].
  unfold extract_features, image_files. rewrite Hmissing. split; reflexivity.
Qed.

Lemma extract_features_same_files (tree1 tree2 : string -> option (list node))
      (image_folder : string) (recursive : bool) :
  image_files tree1 image_folder recursive = image_files tree2 image_folder recursive ->
  extract_features tree1 featurize image_folder recursive
  = extract_features tree2 featurize image_folder recursive.
Proof. intros H. unfold extract_features. rewrite H. reflexivity. Qed.

(** Only the names at the top level of the generated folder matter: two
    file systems that agree on the real folder and on the names listed
    in the generated folder give the same FID and the same KID, whatever
    the subdirectories of the generated folder hold. *)
Theorem generated_subfolders_are_ignored
        (tree1 tree2 : string -> option (list node))
        (real_images_folder gen_images_folder : string)
        (num_subsets max_subset_size : Z) (g : rng)
        (Hreal : tree1 real_images_folder = tree2 real_images_folder)
        (Hgen : option_map os_listdir (tree1 gen_images_folder)
                = option_map os_listdir (tree2 gen_images_folder)) :
  calculate_fid tree1 featurize sqrtm real_images_folder gen_images_folder
  = calculate_fid tree2 featurize sqrtm real_images_folder gen_images_folder
  /\ calculate_kid tree1 featurize choice real_images_folder gen_images_folder
                   num_subsets max_subset_size g
     = calculate_kid tree2 featurize choice real_images_folder gen_images_folder
                     num_subsets max_subset_size g.
Proof.
  assert (Hr : extract_features tree1 featurize real_images_folder true
               = extract_features tree2 featurize real_images_folder true).
  { apply extract_features_same_files. unfold image_files. rewrite Hreal. reflexivity. }
  assert (Hg : extract_features tree1 featurize gen_images_folder false
               = extract_features tree2 featurize gen_images_folder false).
  { apply extract_features_same_files. unfold image_files.
    destruct (tree1 gen_images_folder), (tree2 gen_images_folder);
      cbn [option_map] in Hgen; try discriminate; [|reflexivity].
    injection Hgen as ->. reflexivity. }
  unfold calculate_fid, calculate_kid. rewrite Hr, Hg. split; reflexivity.
Qed.

End Folders.

Lemma missing_real_folder_reads_as_empty_witness :
  (fun _ : string => @None (list node)) "real" = None
  /\ calculate_fid (fun _ => None) example_featurize diagonal_sqrtm "real" "gen"
     = Raise (ValueError ("Error: No image files found in " ++ "real" ++ "."))%string.
Proof.
  split; [reflexivity|].
  apply (missing_real_folder_reads_as_empty example_featurize diagonal_sqrtm nat window_choice
           (fun _ => None) "real" "gen" 1%Z 2%Z 0%nat eq_refl).
Defined.

Lemma missing_generated_folder_raises_os_error_witness :
  let tree := fun p : string => if String.eqb p "d" then Some example_images else None in
  snd (extract_features tree example_featurize "d" true) = Ok [[of_Z 1; of_Z 2]]
  /\ tree "gen" = None
  /\ calculate_fid tree example_featurize diagonal_sqrtm "d" "gen" = Raise OSError.
Proof.
  cbv zeta.
  assert (Hreal : snd (extract_features
                         (fun p : string => if String.eqb p "d" then Some example_images
                                            else None)
                         example_featurize "d" true) = Ok [[of_Z 1; of_Z 2]]) by reflexivity.
  split; [exact Hreal|]. split; [reflexivity|].
  apply (missing_generated_folder_raises_os_error example_featurize diagonal_sqrtm nat
           window_choice _ "d" "gen" 1%Z 2%Z 0%nat _ Hreal eq_refl).
Defined.

Lemma generated_subfolders_are_ignored_witness :
  let tree1 := fun _ : string => Some [Dir "more" [File "x.png"]; File "a.png"] in
  let tree2 := fun p : string =>
                 if String.eqb p "gen" then Some [Dir "more" []; File "a.png"]
                 else Some [Dir "more" [File "x.png"]; File "a.png"] in
  tree1 "real" = tree2 "real"
  /\ option_map os_listdir (tree1 "gen") = option_map os_listdir (tree2 "gen")
  /\ calculate_fid tree1 example_featurize diagonal_sqrtm "real" "gen"
     = calculate_fid tree2 example_featurize diagonal_sqrtm "real" "gen".
Proof.
  cbv zeta. split; [reflexivity|]. split; [reflexivity|].
  apply (generated_subfolders_are_ignored example_featurize diagonal_sqrtm nat window_choice
           (fun _ : string => Some [Dir "more" [File "x.png"]; File "a.png"])
           (fun p : string =>
              if String.eqb p "gen" then Some [Dir "more" []; File "a.png"]
              else Some [Dir "more" [File "x.png"]; File "a.png"])
           "real" "gen" 1%Z 2%Z 0%nat eq_refl eq_refl).
Defined.

(** *** FID *)

Lemma of_Z_2 : of_Z 2 = 1 + 1.
Proof. apply Qc_is_canon. reflexivity. Qed.

Lemma rect_perm (n d : nat) (a a' : array2) :
  Permutation a a' -> rect n d a -> rect n d a'.
Proof.
  intros Hp [Hn Hrows]. split.
  - rewrite <- (Permutation_length Hp). exact Hn.
  - apply (Permutation_Forall Hp). exact Hrows.
Qed.

Lemma mean_feature_perm (a a' : array2) (j : nat) :
  Permutation a a' -> mean (feature a j) = mean (feature a' j).
Proof.
  intros Hp. unfold mean, feature.
  rewrite (qsum_perm _ _ (Permutation_map (fun r => nth j r 0) Hp)).
  rewrite !length_map, (Permutation_length Hp). reflexivity.
Qed.

Lemma mean_vector_perm (n d : nat) (a a' : array2) :
  Permutation a a' -> rect n d a -> (0 < n)%nat -> mean_vector a = mean_vector a'.
Proof.
  intros Hp Hr Hn. unfold mean_vector.
  rewrite (rect_shape1 n d a Hr Hn), (rect_shape1 n d a' (rect_perm n d a a' Hp Hr) Hn).
  apply map_ext. intros j. apply mean_feature_perm. exact Hp.
Qed.

Lemma sample_covariance_perm (n d : nat) (a a' : array2) :
  Permutation a a' -> rect n d a -> (0 < n)%nat ->
  sample_covariance a = sample_covariance a'.
Proof.
  intros Hp Hr Hn. unfold sample_covariance, covariance_matrix, shape0.
  rewrite (rect_shape1 n d a Hr Hn), (rect_shape1 n d a' (rect_perm n d a a' Hp Hr) Hn).
  rewrite (Permutation_length Hp).
  apply map_ext. intros i. apply map_ext. intros j. unfold covariance.
  rewrite <- !(mean_feature_perm a a' _ Hp). f_equal.
  apply qsum_perm. apply Permutation_map. exact Hp.
Qed.

Lemma vdot_difference_with_itself (u : list Qc) :
  vdot (map2 Qcminus u u) (map2 Qcminus u u) = 0.
Proof.
  unfold vdot. rewrite (map2_diag Qcminus), (map2_diag Qcmult), map_map.
  apply qsum_zero. intros x _. ring.
Qed.

Section Fid.

Variable sqrtm : array2 -> sqrtm_array.

(** The score does not depend on the order of the rows of either
    feature matrix. *)
Theorem fid_ignores_row_order (real_features gen_features real' gen' : array2)
        (Nr Ng D : nat)
        (Hreal : rect Nr D real_features) (Hgen : rect Ng D gen_features)
        (HNr : (2 <= Nr)%nat) (HNg : (2 <= Ng)%nat) (HD : (2 <= D)%nat)
        (Hpr : Permutation real_features real') (Hpg : Permutation gen_features gen') :
  fid_score sqrtm real' gen' = fid_score sqrtm real_features gen_features.
Proof.
  unfold fid_score.
  rewrite (np_cov_sample Nr D real' (rect_perm _ _ _ _ Hpr Hreal) HNr HD).
  rewrite (np_cov_sample Ng D gen' (rect_perm _ _ _ _ Hpg Hgen) HNg HD).
  rewrite (np_cov_sample Nr D real_features Hreal HNr HD).
  rewrite (np_cov_sample Ng D gen_features Hgen HNg HD).
  rewrite !mean_axis0_mean_vector.
  rewrite <- (mean_vector_perm Nr D _ _ Hpr Hreal) by lia.
  rewrite <- (mean_vector_perm Ng D _ _ Hpg Hgen) by lia.
  rewrite <- (sample_covariance_perm Nr D _ _ Hpr Hreal) by lia.
  rewrite <- (sample_covariance_perm Ng D _ _ Hpg Hgen) by lia.
  reflexivity.
Qed.

(** A feature matrix against itself scores 0, provided [sqrtm] returns
    the covariance as the root of its square (as the principal root of
    the square of a positive semi-definite matrix is). *)
Theorem fid_of_identical_sets (features : array2) (N D : nat)
        (Hrect : rect N D features) (HN : (2 <= N)%nat) (HD : (2 <= D)%nat)
        (Hroot : real_part (sqrtm (np_dot (sample_covariance features)
                                          (sample_covariance features)))
                 = sample_covariance features) :
  fid_score sqrtm features features = Ok 0.
Proof.
  unfold fid_score. rewrite (np_cov_sample N D features Hrect HN HD).
  set (root := sqrtm _) in *.
  replace (real_part (if np_iscomplexobj root then np_real root else root))
    with (real_part root) by (destruct root; reflexivity).
  rewrite Hroot, vdot_difference_with_itself. f_equal.
  unfold sample_covariance, covariance_matrix.
  rewrite (rect_shape1 N D features Hrect) by lia.
  rewrite (ew2_table Qcplus), (ew_table (fun v => of_Z 2 * v)), (ew2_table Qcminus).
  rewrite np_trace_table by lia.
  rewrite qsum_zero; [ring|]. intros i _. rewrite of_Z_2. ring.
Qed.

End Fid.

Lemma fid_ignores_row_order_witness :
  rect 4 2 square_real /\ rect 4 2 square_gen
  /\ (2 <= 4)%nat /\ (2 <= 2)%nat
  /\ Permutation square_real (rev square_real) /\ Permutation square_gen (rev square_gen)
  /\ fid_score diagonal_sqrtm (rev square_real) (rev square_gen)
     = fid_score diagonal_sqrtm square_real square_gen.
Proof.
  assert (H4 : (2 <= 4)%nat) by lia.
  assert (H2 : (2 <= 2)%nat) by lia.
  split; [exact (proj1 square_features_rect)|].
  split; [exact (proj2 square_features_rect)|].
  split; [exact H4|]. split; [exact H2|].
  split; [apply Permutation_rev|]. split; [apply Permutation_rev|].
  apply (fid_ignores_row_order diagonal_sqrtm square_real square_gen _ _ 4 4 2
           (proj1 square_features_rect) (proj2 square_features_rect) H4 H4 H2
           (Permutation_rev square_real) (Permutation_rev square_gen)).
Defined.

Lemma square_root_of_square :
  real_part (diagonal_sqrtm (np_dot (sample_covariance square_real)
                                    (sample_covariance square_real)))
  = sample_covariance square_real.
Proof.
  apply array2_eq.
  repeat (apply Forall2_cons || apply Forall2_nil); vm_compute; reflexivity.
Qed.

Lemma fid_of_identical_sets_witness :
  rect 4 2 square_real /\ (2 <= 4)%nat /\ (2 <= 2)%nat
  /\ real_part (diagonal_sqrtm (np_dot (sample_covariance square_real)
                                       (sample_covariance square_real)))
     = sample_covariance square_real
  /\ fid_score diagonal_sqrtm square_real square_real = Ok 0.
Proof.
  assert (H4 : (2 <= 4)%nat) by lia.
  assert (H2 : (2 <= 2)%nat) by lia.
  split; [exact (proj1 square_features_rect)|]. split; [exact H4|]. split; [exact H2|].
  split; [exact square_root_of_square|].
  apply (fid_of_identical_sets diagonal_sqrtm square_real 4 2
           (proj1 square_features_rect) H4 H2 square_root_of_square).
Defined.

(** *** KID *)

Lemma map_by_index {A : Type} (F : list Qc -> A) (x : array2) :
  map (fun i => F (nth i x [])) (seq 0 (length x)) = map F x.
Proof.
  rewrite <- (map_map (fun i => nth i x []) F), map_nth_seq. reflexivity.
Qed.

Lemma double_sum_by_index (f : list Qc -> list Qc -> Qc) (x y : array2) :
  qsum (map (fun i => qsum (map (fun j => f (nth i x []) (nth j y [])) (seq 0 (length y))))
            (seq 0 (length x)))
  = qsum (map (fun u => qsum (map (f u) y)) x).
Proof.
  rewrite <- (map_by_index (fun u => qsum (map (f u) y)) x). f_equal.
  apply map_ext. intros i. f_equal. apply (map_by_index (f (nth i x [])) y).
Qed.

Lemma double_sum_perm (f : list Qc -> list Qc -> Qc) (x x' y y' : array2) :
  Permutation x x' -> Permutation y y' ->
  qsum (map (fun u => qsum (map (f u) y)) x) = qsum (map (fun u => qsum (map (f u) y')) x').
Proof.
  intros Hx Hy.
  rewrite (qsum_perm _ _ (Permutation_map (fun u => qsum (map (f u) y)) Hx)).
  f_equal. apply map_ext. intros u. apply qsum_perm, Permutation_map, Hy.
Qed.

(** The estimate as sums over the rows themselves. *)
Lemma estimate_over_rows (n m : nat) (x y : array2) :
  length x = m -> length y = m ->
  estimate n m x y
  = (qsum (map (fun u => qsum (map (kernel n u) x)) x)
     + qsum (map (fun v => qsum (map (kernel n v) y)) y)
     - (qsum (map (fun u => kernel n u u) x) + qsum (map (fun v => kernel n v v) y)))
    / (of_nat m - 1)
    - of_Z 2 * qsum (map (fun u => qsum (map (kernel n u) y)) x) / of_nat m.
Proof.
  intros Hx Hy. unfold estimate.
  rewrite <- (double_sum_by_index (kernel n) x x), <- (double_sum_by_index (kernel n) y y),
          <- (double_sum_by_index (kernel n) x y).
  rewrite <- (map_by_index (fun u => kernel n u u) x), <- (map_by_index (fun v => kernel n v v) y).
  rewrite Hx, Hy, <- !qsum_map_plus. f_equal. f_equal. f_equal. f_equal.
  apply map_ext. intros i. apply qsum_map_plus.
Qed.

(** The estimate does not depend on the order of the sampled rows. *)
Lemma estimate_perm (n m : nat) (x x' y y' : array2) :
  Permutation x x' -> Permutation y y' -> length x = m -> length y = m ->
  estimate n m x y = estimate n m x' y'.
Proof.
  intros Hpx Hpy Hx Hy.
  rewrite (estimate_over_rows n m x y Hx Hy).
  rewrite (estimate_over_rows n m x' y')
    by (rewrite <- ?(Permutation_length Hpx), <- ?(Permutation_length Hpy); assumption).
  rewrite (double_sum_perm (kernel n) x x' x x' Hpx Hpx).
  rewrite (double_sum_perm (kernel n) y y' y y' Hpy Hpy).
  rewrite (double_sum_perm (kernel n) x x' y y' Hpx Hpy).
  rewrite (qsum_perm _ _ (Permutation_map (fun u => kernel n u u) Hpx)).
  rewrite (qsum_perm _ _ (Permutation_map (fun v => kernel n v v) Hpy)).
  reflexivity.
Qed.

Lemma full_sample_perm (N : nat) (idx : list nat) :
  sample_without_replacement N N idx -> Permutation idx (seq 0 N).
Proof.
  intros [Hlen [Hnd Hin]]. apply NoDup_Permutation_bis.
  - exact Hnd.
  - rewrite length_seq, Hlen. apply Nat.le_refl.
  - intros i Hi. rewrite Forall_forall in Hin. apply in_seq. specialize (Hin i Hi). lia.
Qed.

Lemma take_all_rows_perm (a : array2) (idx : list nat) :
  sample_without_replacement (length a) (length a) idx -> Permutation (take_rows a idx) a.
Proof.
  intros H. unfold take_rows.
  apply (AveragePrecision_Facts.reindex_perm [] a idx). apply full_sample_perm. exact H.
Qed.

Section Kid.

Variable rng : Type.
Variable choice : rng -> nat -> nat -> list nat * rng.

Hypothesis choice_without_replacement :
  forall g a size, (size <= a)%nat -> sample_without_replacement a size (fst (choice g a size)).

Variables (real_features gen_features : array2) (D : nat).
Hypothesis real_rect : rect (length real_features) D real_features.
Hypothesis gen_rect : rect (length gen_features) D gen_features.
Hypothesis D_pos : (0 < D)%nat.

(** When both sets have exactly [N] rows and [max_subset_size] is at
    least [N], every subset is the whole set in some order, and the
    score is the estimate on the two full sets divided by [N]: it
    depends neither on the random draws nor on [num_subsets]. *)
Theorem kid_on_full_sets_is_deterministic
        (N : nat) (num_subsets max_subset_size : Z) (g : rng)
        (Hreal : length real_features = N) (Hgen : length gen_features = N)
        (HN : (2 <= N)%nat) (Hmax : (Z.of_nat N <= max_subset_size)%Z)
        (Hsubsets : (0 < num_subsets)%Z) :
  kid_score choice real_features gen_features num_subsets max_subset_size g
  = Ok (estimate D N gen_features real_features / of_nat N).
Proof.
  assert (Hm : subset_size real_features gen_features max_subset_size = Z.of_nat N).
  { unfold subset_size. rewrite Hreal, Hgen. lia. }
  unfold kid_score, shape0.
  change (Z.min (Z.min (Z.of_nat (length real_features)) (Z.of_nat (length gen_features)))
                max_subset_size)
    with (subset_size real_features gen_features max_subset_size).
  rewrite Hm, Nat2Z.id.
  destruct (Z.ltb_spec (Z.of_nat N) 2); [lia|].
  rewrite (rect_shape1 _ D real_features real_rect) by lia.
  pose proof (kid_loop_spec rng choice choice_without_replacement real_features gen_features D
                real_rect gen_rect D_pos N D (Z.to_nat num_subsets) 0 g
                ltac:(lia) ltac:(lia) ltac:(lia)) as Hloop.
  pose proof (draws_sampled rng choice choice_without_replacement real_features gen_features
                N (Z.to_nat num_subsets) g ltac:(lia) ltac:(lia)) as Hdraws.
  destruct (kid_loop choice real_features gen_features N D (Z.to_nat num_subsets) 0 g)
    as [t g'].
  cbn [fst] in Hloop.
  destruct (Z.eqb_spec (num_subsets * Z.of_nat N) 0); [lia|].
  f_equal. rewrite Hloop.
  rewrite (map_ext_in _ (fun _ => estimate D N gen_features real_features)).
  2:{ intros d Hd. rewrite Forall_forall in Hdraws. destruct (Hdraws d Hd) as [Hr Hg].
      rewrite Hreal in Hr. rewrite Hgen in Hg.
      apply estimate_perm.
      - apply take_all_rows_perm. rewrite Hgen. exact Hg.
      - apply take_all_rows_perm. rewrite Hreal. exact Hr.
      - unfold take_rows. rewrite length_map. apply Hg.
      - unfold take_rows. rewrite length_map. apply Hr. }
  rewrite qsum_const, (draws_length rng choice).
  rewrite of_Z_mul.
  replace (of_Z num_subsets) with (of_nat (Z.to_nat num_subsets))
    by (unfold of_nat; rewrite Z2Nat.id by lia; reflexivity).
  fold (of_nat N). field. split; apply Qc_pos_neq, of_nat_pos; lia.
Qed.

(** With a subset size of at least 2 and no subset asked for, nothing
    is drawn: [num_subsets = 0] makes the final division raise, and a
    negative [num_subsets] returns 0. *)
Theorem kid_without_subsets (num_subsets max_subset_size : Z) (g : rng)
        (Hm : (2 <= subset_size real_features gen_features max_subset_size)%Z)
        (Hsubsets : (num_subsets <= 0)%Z) :
  kid_score choice real_features gen_features num_subsets max_subset_size g
  = if (num_subsets =? 0)%Z then Raise ZeroDivisionError else Ok 0.
Proof.
  clear choice_without_replacement real_rect gen_rect D_pos.
  unfold kid_score, shape0.
  change (Z.min (Z.min (Z.of_nat (length real_features)) (Z.of_nat (length gen_features)))
                max_subset_size)
    with (subset_size real_features gen_features max_subset_size).
  destruct (Z.ltb_spec (subset_size real_features gen_features max_subset_size) 2); [lia|].
  replace (Z.to_nat num_subsets) with 0%nat by lia. cbn [kid_loop].
  destruct (Z.eqb_spec num_subsets 0) as [-> | Hne].
  - reflexivity.
  - destruct (Z.eqb_spec (num_subsets * subset_size real_features gen_features max_subset_size)
                         0); [lia|].
    f_equal. unfold Qcdiv. ring.
Qed.

End Kid.

Lemma kid_on_full_sets_is_deterministic_witness :
  length square_real = 4%nat /\ length square_gen = 4%nat
  /\ (2 <= 4)%nat /\ (Z.of_nat 4 <= 1000)%Z /\ (0 < 100)%Z
  /\ kid_score window_choice square_real square_gen 100 1000 0%nat
     = Ok (estimate 2 4 square_gen square_real / of_nat 4).
Proof.
  assert (H4 : (2 <= 4)%nat) by lia.
  assert (Hmax : (Z.of_nat 4 <= 1000)%Z) by (cbn; lia).
  assert (Hs : (0 < 100)%Z) by lia.
  split; [reflexivity|]. split; [reflexivity|]. split; [exact H4|].
  split; [exact Hmax|]. split; [exact Hs|].
  apply (kid_on_full_sets_is_deterministic nat window_choice window_choice_without_replacement
           square_real square_gen 2
           (proj1 square_features_rect) (proj2 square_features_rect) ltac:(lia)
           4%nat 100%Z 1000%Z 0%nat eq_refl eq_refl H4 Hmax Hs).
Defined.

Lemma kid_without_subsets_witness :
  (2 <= subset_size square_real square_gen 1000)%Z /\ (0 <= 0)%Z
  /\ kid_score window_choice square_real square_gen 0 1000 0%nat = Raise ZeroDivisionError.
Proof.
  assert (Hm : (2 <= subset_size square_real square_gen 1000)%Z)
    by (vm_compute; discriminate).
  assert (Hs : (0 <= 0)%Z) by lia.
  split; [exact Hm|]. split; [exact Hs|].
  apply (kid_without_subsets nat window_choice square_real square_gen 0%Z 1000%Z 0%nat Hm Hs).
Defined.

End Distance_Properties.

(** ** Face verification *)

Module FaceVerification_Properties.

Import FaceVerification.
Open Scope Qc_scope.

Lemma filter_perm {A : Type} (f : A -> bool) (l l' : list A) :
  Permutation l l' -> Permutation (filter f l) (filter f l').
Proof.
  induction 1 as [|x l l' _ IH|x y l|l l' l'' _ IH1 _ IH2]; cbn [filter].
  - apply perm_nil.
  - destruct (f x); [apply perm_skip|]; exact IH.
  - destruct (f x), (f y); try apply Permutation_refl. apply perm_swap.
  - apply (Permutation_trans IH1 IH2).
Qed.

Section Fvv.

Variable face_encodings : rgb_image -> list (list Qc).
Variable sqrt : Qc -> Qc.

(** The list the loop builds: the first-face distances of the pairs in
    which both images show a face, in order. *)
Lemma fvv_distances_spec (image_pairs : list (rgb_image * gray_image)) :
  fvv_distances face_encodings sqrt image_pairs
  = map (first_face_distance face_encodings sqrt) (filter (both_faces face_encodings) image_pairs).
Proof.
  induction image_pairs as [|[img1 img2] rest IH]; [reflexivity|].
  cbn [fvv_distances filter].
  destruct (face_encodings img1) as [|e1 r1] eqn:H1.
  - replace (both_faces face_encodings (img1, img2)) with false
      by (unfold both_faces; cbn [fst snd]; rewrite H1; reflexivity).
    exact IH.
  - destruct (face_encodings (astype_uint8 (np_stack3 img2))) as [|e2 r2] eqn:H2.
    + replace (both_faces face_encodings (img1, img2)) with false
        by (unfold both_faces; cbn [fst snd]; rewrite H1, H2; reflexivity).
      exact IH.
    + replace (both_faces face_encodings (img1, img2)) with true
        by (unfold both_faces; cbn [fst snd]; rewrite H1, H2; reflexivity).
      cbn [map]. rewrite IH. f_equal.
      unfold first_face_distance. cbn [fst snd]. rewrite H1, H2. reflexivity.
Qed.

(** The function raises exactly when no pair shows a face in both
    images; otherwise it returns the mean, over the pairs that do, of
    the distance between the first face of each image. *)
Theorem fvv_is_mean_over_pairs_with_faces (image_pairs : list (rgb_image * gray_image)) :
  (compute_fvv face_encodings sqrt image_pairs
   = Raise (ValueError "No valid face pairs for comparison.")
   <-> Forall (fun p => both_faces face_encodings p = false) image_pairs)
  /\ compute_fvv face_encodings sqrt image_pairs
     = match filter (both_faces face_encodings) image_pairs with
       | [] => Raise (ValueError "No valid face pairs for comparison.")
       | valid => Ok (qsum (map (first_face_distance face_encodings sqrt) valid)
                      / of_nat (length valid))
       end.
Proof.
  assert (Hval : compute_fvv face_encodings sqrt image_pairs
                 = match filter (both_faces face_encodings) image_pairs with
                   | [] => Raise (ValueError "No valid face pairs for comparison.")
                   | valid => Ok (qsum (map (first_face_distance face_encodings sqrt) valid)
                                  / of_nat (length valid))
                   end).
  { unfold compute_fvv. rewrite fvv_distances_spec, length_map.
    destruct (filter (both_faces face_encodings) image_pairs); reflexivity. }
  split; [|exact Hval]. rewrite Hval. split.
  - intros H. apply Forall_forall. intros p Hp.
    destruct (both_faces face_encodings p) eqn:Hb; [|reflexivity].
    assert (Hin : In p (filter (both_faces face_encodings) image_pairs))
      by (apply filter_In; split; assumption).
    destruct (filter (both_faces face_encodings) image_pairs); [contradiction | discriminate].
  - intros H. rewrite filter_none; [reflexivity|]. apply Forall_forall. exact H.
Qed.

(** A pair without a face in one of its images is left out, not counted
    as a distance: the result is the same with or without it. *)
Theorem fvv_skips_pairs_without_faces
        (before after : list (rgb_image * gray_image)) (pair : rgb_image * gray_image)
        (Hnone : both_faces face_encodings pair = false) :
  compute_fvv face_encodings sqrt (before ++ pair :: after)
  = compute_fvv face_encodings sqrt (before ++ after).
Proof.
  unfold compute_fvv. rewrite !fvv_distances_spec, !filter_app. cbn [filter].
  rewrite Hnone. reflexivity.
Qed.

(** The result does not depend on the order of the pairs. *)
Theorem fvv_ignores_pair_order (image_pairs pairs' : list (rgb_image * gray_image))
        (Hperm : Permutation image_pairs pairs') :
  compute_fvv face_encodings sqrt image_pairs = compute_fvv face_encodings sqrt pairs'.
Proof.
  unfold compute_fvv. rewrite !fvv_distances_spec.
  pose proof (Permutation_map (first_face_distance face_encodings sqrt)
                (filter_perm (both_faces face_encodings) _ _ Hperm)) as Hp.
  rewrite (Permutation_length Hp), (qsum_perm _ _ Hp). reflexivity.
Qed.

End Fvv.

(** The second image reaches the face encoder with the shape it had and
    with three equal channels per pixel, each a byte. *)
Remark stacked_image_has_equal_byte_channels (img : gray_image) :
  map (@length (list Z)) (astype_uint8 (np_stack3 img)) = map (@length Z) img
  /\ Forall (Forall (fun px => exists b, (0 <= b < 256)%Z /\ px = [b; b; b]))
            (astype_uint8 (np_stack3 img)).
Proof.
  unfold astype_uint8, np_stack3. rewrite !map_map. split.
  - apply map_ext. intros r. rewrite !length_map. reflexivity.
  - apply Forall_forall. intros r Hr. apply in_map_iff in Hr. destruct Hr as [r0 [<- _]].
    rewrite map_map. apply Forall_forall. intros px Hpx. apply in_map_iff in Hpx.
    destruct Hpx as [v [<- _]]. exists (v mod 256)%Z. split; [|reflexivity].
    apply Z.mod_pos_bound. lia.
Qed.

Lemma fvv_skips_pairs_without_faces_witness :
  let face := [[[200; 10; 10]%Z]] in
  let dark := [[[0; 0; 0]%Z]] in
  both_faces example_face_encodings (dark, [[7%Z]]) = false
  /\ compute_fvv example_face_encodings example_sqrt ([(face, [[7%Z]])] ++ (dark, [[7%Z]]) :: [])
     = compute_fvv example_face_encodings example_sqrt ([(face, [[7%Z]])] ++ []).
Proof.
  cbv zeta. split; [reflexivity|].
  apply (fvv_skips_pairs_without_faces example_face_encodings example_sqrt
           [([[[200; 10; 10]%Z]], [[7%Z]])] [] ([[[0; 0; 0]%Z]], [[7%Z]]) eq_refl).
Defined.

Lemma fvv_ignores_pair_order_witness :
  let a := ([[[200; 10; 10]%Z]], [[7%Z]]) in
  let b := ([[[3; 4; 5]%Z]], [[9%Z]]) in
  Permutation [a; b] [b; a]
  /\ compute_fvv example_face_encodings example_sqrt [a; b]
     = compute_fvv example_face_encodings example_sqrt [b; a].
Proof.
  cbv zeta. split; [apply perm_swap|].
  apply (fvv_ignores_pair_order example_face_encodings example_sqrt _ _
           (perm_swap ([[[3; 4; 5]%Z]], [[9%Z]]) ([[[200; 10; 10]%Z]], [[7%Z]]) [])).
Defined.

End FaceVerification_Properties.

(** ** Mean IoU: labels that are no class *)

Module MeanIoU_Labels.

Import MeanIoU MeanIoU_Facts.

(** Pixels labelled outside [0, C) count for no class: for two grids
    of one shape, renaming such labels to other values outside [0, C),
    in both grids, changes nothing. *)
Theorem miou_ignores_labels_outside_classes
        (pred_masks true_masks : grid) (num_classes : Z) (rename : Z -> Z)
        (Hshape : same_shape pred_masks true_masks)
        (Hkeep : forall v, 0 <= v < num_classes -> rename v = v)
        (Hout : forall v, ~ 0 <= v < num_classes -> ~ 0 <= rename v < num_classes) :
  compute_miou (map (map rename) pred_masks) (map (map rename) true_masks) num_classes
  = compute_miou pred_masks true_masks num_classes.
Proof.
  assert (Heq : forall (g : grid) c, 0 <= c < num_classes ->
             tensor_eq (map (map rename) g) c = tensor_eq g c).
  { intros g c Hc. unfold tensor_eq. rewrite map_map. apply map_ext. intros r.
    rewrite map_map. apply map_ext. intros v.
    destruct (Z_lt_le_dec v 0) as [Hv|Hv]; [|destruct (Z_lt_le_dec v num_classes) as [Hv'|Hv']].
    - pose proof (Hout v ltac:(lia)).
      destruct (Z.eqb_spec (rename v) c), (Z.eqb_spec v c); try reflexivity; lia.
    - rewrite Hkeep by lia. reflexivity.
    - pose proof (Hout v ltac:(lia)).
      destruct (Z.eqb_spec (rename v) c), (Z.eqb_spec v c); try reflexivity; lia. }
  unfold compute_miou. f_equal. apply map_ext_in. intros c Hc. apply in_range in Hc.
  unfold iou, intersection, union. rewrite !(Heq _ c Hc). reflexivity.
Qed.

Lemma miou_ignores_labels_outside_classes_witness :
  let rename := fun v => if (0 <=? v) && (v <? 2) then v else 255 in
  same_shape [[0; 7]; [1; 9]] [[0; 0]; [8; 1]]
  /\ (forall v, 0 <= v < 2 -> rename v = v)
  /\ (forall v, ~ 0 <= v < 2 -> ~ 0 <= rename v < 2)
  /\ compute_miou (map (map rename) [[0; 7]; [1; 9]]) (map (map rename) [[0; 0]; [8; 1]]) 2
     = compute_miou [[0; 7]; [1; 9]] [[0; 0]; [8; 1]] 2.
Proof.
  cbv zeta.
  assert (Hkeep : forall v, 0 <= v < 2 -> (if (0 <=? v) && (v <? 2) then v else 255) = v).
  { intros v Hv. destruct (Z.leb_spec 0 v), (Z.ltb_spec v 2); cbn [andb]; lia. }
  assert (Hout : forall v, ~ 0 <= v < 2 ->
                           ~ 0 <= (if (0 <=? v) && (v <? 2) then v else 255) < 2).
  { intros v Hv. destruct (Z.leb_spec 0 v), (Z.ltb_spec v 2); cbn [andb]; lia. }
  assert (Hshape : same_shape [[0; 7]; [1; 9]] [[0; 0]; [8; 1]]) by reflexivity.
  split; [exact Hshape|]. split; [exact Hkeep|]. split; [exact Hout|].
  apply (miou_ignores_labels_outside_classes [[0; 7]; [1; 9]] [[0; 0]; [8; 1]] 2
           (fun v => if (0 <=? v) && (v <? 2) then v else 255) Hshape Hkeep Hout).
Defined.

End MeanIoU_Labels.

(** ** FID: translation of the features *)

Module Fid_Translation.

Import Distance Distance_Facts.
Open Scope Qc_scope.

Lemma nth_map2 {A B C : Type} (f : A -> B -> C) (l : list A) (l' : list B)
      (j : nat) (a : A) (b : B) (c : C) :
  (j < length l)%nat -> (j < length l')%nat ->
  nth j (map2 f l l') c = f (nth j l a) (nth j l' b).
Proof.
  revert l' j. induction l as [|x l IH]; intros [|y l'] j Hl Hl'; cbn [length] in *; try lia.
  destruct j as [|j]; cbn [map2 nth]; [reflexivity|]. apply IH; lia.
Qed.

Lemma translate_rect (n d : nat) (c : list Qc) (a : array2) :
  rect n d a -> length c = d -> rect n d (translate c a).
Proof.
  intros [Hn Hrows] Hc. split; [unfold translate; rewrite length_map; exact Hn|].
  apply Forall_forall. intros r Hr. unfold translate in Hr. apply in_map_iff in Hr.
  destruct Hr as [r0 [<- Hr0]]. rewrite Forall_forall in Hrows. specialize (Hrows r0 Hr0).
  clear -Hrows Hc. subst d. revert c Hc. induction r0 as [|x r0 IH]; intros [|y c] Hc;
    cbn [length map2] in *; try lia. rewrite (IH c); lia.
Qed.

Lemma translate_entry (n d : nat) (c : list Qc) (a : array2) (r : list Qc) (j : nat) :
  rect n d a -> length c = d -> In r a -> (j < d)%nat ->
  nth j (map2 Qcplus r c) 0 = nth j r 0 + nth j c 0.
Proof.
  intros [_ Hrows] Hc Hr Hj. rewrite Forall_forall in Hrows.
  apply nth_map2; [rewrite (Hrows r Hr) | rewrite Hc]; exact Hj.
Qed.

Lemma mean_translate (n d : nat) (c : list Qc) (a : array2) (j : nat) :
  rect n d a -> length c = d -> (0 < n)%nat -> (j < d)%nat ->
  mean (feature (translate c a) j) = mean (feature a j) + nth j c 0.
Proof.
  intros Hr Hc Hn Hj. unfold mean, feature, translate. rewrite !length_map, map_map.
  rewrite (map_ext_in _ (fun r => nth j r 0 + nth j c 0))
    by (intros r Hin; apply (translate_entry n d c a r j Hr Hc Hin Hj)).
  rewrite qsum_map_plus, qsum_const. destruct Hr as [Hlen _]. rewrite Hlen.
  field. apply Qc_pos_neq, of_nat_pos. exact Hn.
Qed.

Lemma sample_covariance_translate (n d : nat) (c : list Qc) (a : array2) :
  rect n d a -> length c = d -> (0 < n)%nat ->
  sample_covariance (translate c a) = sample_covariance a.
Proof.
  intros Hr Hc Hn. unfold sample_covariance, covariance_matrix, shape0.
  rewrite (rect_shape1 n d a Hr Hn), (rect_shape1 n d _ (translate_rect n d c a Hr Hc) Hn).
  replace (length (translate c a)) with (length a) by (unfold translate; rewrite length_map; reflexivity).
  apply map_ext_in. intros i Hi. apply in_seq in Hi.
  apply map_ext_in. intros j Hj. apply in_seq in Hj.
  unfold covariance. f_equal.
  rewrite (mean_translate n d c a i Hr Hc Hn) by lia.
  rewrite (mean_translate n d c a j Hr Hc Hn) by lia.
  unfold translate at 1. rewrite map_map. f_equal. apply map_ext_in. intros r Hin.
  rewrite (translate_entry n d c a r i Hr Hc Hin) by lia.
  rewrite (translate_entry n d c a r j Hr Hc Hin) by lia.
  ring.
Qed.

Section Fid.

Variable sqrtm : array2 -> sqrtm_array.

(** Moving every feature vector of both sets by the same vector leaves
    the score unchanged. *)
Theorem fid_translation_invariant (real_features gen_features : array2) (c : list Qc)
        (Nr Ng D : nat)
        (Hreal : rect Nr D real_features) (Hgen : rect Ng D gen_features)
        (HNr : (2 <= Nr)%nat) (HNg : (2 <= Ng)%nat) (HD : (2 <= D)%nat)
        (Hc : length c = D) :
  fid_score sqrtm (translate c real_features) (translate c gen_features)
  = fid_score sqrtm real_features gen_features.
Proof.
  unfold fid_score.
  rewrite (np_cov_sample Nr D _ (translate_rect _ _ c _ Hreal Hc) HNr HD).
  rewrite (np_cov_sample Ng D _ (translate_rect _ _ c _ Hgen Hc) HNg HD).
  rewrite (np_cov_sample Nr D real_features Hreal HNr HD).
  rewrite (np_cov_sample Ng D gen_features Hgen HNg HD).
  rewrite (sample_covariance_translate Nr D c _ Hreal Hc) by lia.
  rewrite (sample_covariance_translate Ng D c _ Hgen Hc) by lia.
  rewrite !mean_axis0_mean_vector.
  replace (map2 Qcminus (mean_vector (translate c real_features))
                        (mean_vector (translate c gen_features)))
    with (map2 Qcminus (mean_vector real_features) (mean_vector gen_features));
    [reflexivity|].
  unfold mean_vector.
  rewrite (rect_shape1 Nr D _ Hreal), (rect_shape1 Ng D _ Hgen) by lia.
  rewrite (rect_shape1 Nr D _ (translate_rect _ _ c _ Hreal Hc)) by lia.
  rewrite (rect_shape1 Ng D _ (translate_rect _ _ c _ Hgen Hc)) by lia.
  rewrite !map2_map_map. apply map_ext_in. intros j Hj. apply in_seq in Hj.
  rewrite (mean_translate Nr D c _ j Hreal Hc) by lia.
  rewrite (mean_translate Ng D c _ j Hgen Hc) by lia.
  ring.
Qed.

End Fid.

Lemma fid_translation_invariant_witness :
  rect 4 2 square_real /\ rect 4 2 square_gen
  /\ (2 <= 4)%nat /\ (2 <= 2)%nat /\ length [of_Z 5; of_Z 7] = 2%nat
  /\ fid_score diagonal_sqrtm (translate [of_Z 5; of_Z 7] square_real)
                              (translate [of_Z 5; of_Z 7] square_gen)
     = fid_score diagonal_sqrtm square_real square_gen.
Proof.
  assert (H4 : (2 <= 4)%nat) by lia.
  assert (H2 : (2 <= 2)%nat) by lia.
  split; [exact (proj1 square_features_rect)|].
  split; [exact (proj2 square_features_rect)|].
  split; [exact H4|]. split; [exact H2|]. split; [reflexivity|].
  apply (fid_translation_invariant diagonal_sqrtm square_real square_gen
           [of_Z 5; of_Z 7] 4 4 2
           (proj1 square_features_rect) (proj2 square_features_rect) H4 H4 H2 eq_refl).
Defined.

End Fid_Translation.

(** ** The precision-recall curve of a sample *)

Module Curve_Properties.

Import AveragePrecision AveragePrecision_Facts AveragePrecision_Properties.
Open Scope Qc_scope.

Lemma descending_steps (l : list Qc) (k : nat) :
  StronglySorted (fun a b => b <= a) l -> (S k < length l)%nat ->
  nth (S k) l 0 <= nth k l 0.
Proof.
  intros Hs. revert k. induction Hs as [|a l Hs IH Hall]; intros k Hk; [cbn in Hk; lia|].
  destruct k as [|k].
  - cbn [nth]. rewrite Forall_forall in Hall. apply Hall.
    destruct l as [|b l]; [cbn in Hk; lia | left; reflexivity].
  - cbn [nth length] in *. apply IH. lia.
Qed.

Section Curve.

Variable argsort : list Qc -> list nat.
Variables (real : tensor Z) (pred : tensor Qc).
Hypothesis Hwf : well_formed (real, pred).
Hypothesis Hrk : ranked argsort (real, pred).

Lemma ranked_probs_length (c : nat) :
  (c < num_classes pred)%nat -> length (ranked_probs argsort pred c) = num_pixels pred.
Proof.
  intros Hc. unfold ranked_probs. rewrite length_map.
  rewrite (Permutation_length (ranking_perm argsort real pred Hwf Hrk c Hc)), length_seq.
  destruct Hwf as [_ [Hlen _]]. exact Hlen.
Qed.

(** The three arrays the function returns for the sample, rank by rank:
    the means over the classes of precision, of recall and of the ranked
    probabilities. *)
Lemma curve_spec :
  exists real_one_hot pred_flat,
    one_hot (view_flat real) (size_1 pred) = Ok real_one_hot
    /\ permute_reshape pred = Ok pred_flat
    /\ precision_recall_curve_torch argsort real_one_hot pred_flat
       = Ok (map (blended pred (precision_at argsort real pred)) (seq 0 (num_pixels pred)),
             map (blended pred (recall_at argsort real pred)) (seq 0 (num_pixels pred)),
             map (blended pred (fun c k => nth k (ranked_probs argsort pred c) 0))
                 (seq 0 (num_pixels pred))).
Proof.
  pose proof ranked_probs_length as Hrl.
  destruct Hwf as [[B [C [H [W [Hs HC]]]]] [Hlen Hlab]].
  destruct (num_classes_shape pred B C H W Hs) as [HnC [HnP Hs1]].
  rewrite HnC in Hlab, Hrl. rewrite HnP in Hlen, Hrl.
  destruct (permute_reshape_ok pred B C H W Hs HC) as [mp [Hp [Hrows Hpc]]].
  destruct (one_hot_ok (data real) C HC Hlab) as [mr [Hr [Hsz Hrc]]].
  assert (Hprobs : forall c, (c < C)%nat -> length (class_probs pred c) = (B * (H * W))%nat).
  { intros c Hc. rewrite <- (Hpc c Hc). unfold column. rewrite length_map. exact Hrows. }
  assert (Hperm : forall c, (c < C)%nat ->
             Permutation (argsort (class_probs pred c)) (seq 0 (B * (H * W)))).
  { intros c Hc. rewrite <- (Hprobs c Hc). apply (Hrk c). cbn [snd]. lia. }
  exists mr, mp. unfold view_flat. rewrite Hs1. split; [exact Hr|]. split; [exact Hp|].
  unfold precision_recall_curve_torch. rewrite Hsz.
  rewrite (class_curves_spec argsort real pred mr mp (B * (H * W))).
  2:{ intros c Hc. apply in_seq in Hc.
      apply class_curve_spec;
        [apply Hrc | apply Hpc | exact Hlen | apply Hprobs | apply Hperm]; lia. }
  cbn [bind].
  rewrite (stack_mean_spec (precision_at argsort real pred)) by exact HC.
  rewrite (stack_mean_spec (recall_at argsort real pred)) by exact HC.
  cbn [bind].
  rewrite (map_ext_in (ranked_probs argsort pred)
             (fun c => map (fun k => nth k (ranked_probs argsort pred c) 0)
                           (seq 0 (B * (H * W))))).
  2:{ intros c Hc. apply in_seq in Hc. rewrite <- (Hrl c ltac:(lia)).
      symmetry. apply map_nth_seq. }
  rewrite (stack_mean_spec (fun c k => nth k (ranked_probs argsort pred c) 0)) by exact HC.
  cbn [bind]. unfold blended. rewrite HnC, HnP. reflexivity.
Qed.

(** For a well-formed sample the function returns three arrays with one
    entry per pixel; along the ranks the recall never decreases and the
    threshold never increases, and precision and recall stay between 0
    and 1. *)
Theorem curve_is_monotone :
  exists real_one_hot pred_flat precision recall thresholds,
    one_hot (view_flat real) (size_1 pred) = Ok real_one_hot
    /\ permute_reshape pred = Ok pred_flat
    /\ precision_recall_curve_torch argsort real_one_hot pred_flat
       = Ok (precision, recall, thresholds)
    /\ length precision = num_pixels pred
    /\ length recall = num_pixels pred
    /\ length thresholds = num_pixels pred
    /\ (forall k, (S k < num_pixels pred)%nat -> nth k recall 0 <= nth (S k) recall 0)
    /\ (forall k, (S k < num_pixels pred)%nat -> nth (S k) thresholds 0 <= nth k thresholds 0)
    /\ Forall (fun x => 0 <= x <= 1) precision
    /\ Forall (fun x => 0 <= x <= 1) recall.
Proof.
  destruct curve_spec as [mr [mp [Hr [Hp Hc]]]].
  exists mr, mp. do 3 eexists.
  split; [exact Hr|]. split; [exact Hp|]. split; [exact Hc|].
  rewrite !length_map, !length_seq.
  split; [reflexivity|]. split; [reflexivity|]. split; [reflexivity|].
  split; [|split; [|split]].
  - intros k Hk. rewrite !nth_map_seq by lia.
    apply (blended_monotone real pred Hwf). intros c. apply recall_monotone.
  - intros k Hk. rewrite !nth_map_seq by lia.
    unfold blended. apply div_le_compat; [apply of_nat_pos, (classes_pos real pred Hwf)|].
    apply qsum_le. intros c Hc'. apply in_seq in Hc'.
    apply descending_steps; [apply (Hrk c); cbn [snd]; lia|].
    rewrite ranked_probs_length by lia. exact Hk.
  - apply Forall_forall. intros x Hx. apply in_map_iff in Hx. destruct Hx as [k [<- _]].
    apply (blended_between real pred Hwf). intros c _.
    apply (precision_bounds argsort real pred).
  - apply Forall_forall. intros x Hx. apply in_map_iff in Hx. destruct Hx as [k [<- _]].
    apply (blended_between real pred Hwf). intros c Hc'.
    apply (recall_bounds argsort real pred Hwf Hrk). exact Hc'.
Qed.

End Curve.

Lemma curve_is_monotone_witness :
  well_formed (example_real, example_pred)
  /\ ranked insertion_argsort (example_real, example_pred)
  /\ exists real_one_hot pred_flat precision recall thresholds,
       one_hot (view_flat example_real) (size_1 example_pred) = Ok real_one_hot
       /\ permute_reshape example_pred = Ok pred_flat
       /\ precision_recall_curve_torch insertion_argsort real_one_hot pred_flat
          = Ok (precision, recall, thresholds)
       /\ length precision = num_pixels example_pred
       /\ length recall = num_pixels example_pred
       /\ length thresholds = num_pixels example_pred
       /\ (forall k, (S k < num_pixels example_pred)%nat ->
                     nth k recall 0 <= nth (S k) recall 0)
       /\ (forall k, (S k < num_pixels example_pred)%nat ->
                     nth (S k) thresholds 0 <= nth k thresholds 0)
       /\ Forall (fun x => 0 <= x <= 1) precision
       /\ Forall (fun x => 0 <= x <= 1) recall.
Proof.
  split; [exact example_well_formed|]. split; [exact example_ranked|].
  apply (curve_is_monotone insertion_argsort example_real example_pred
           example_well_formed example_ranked).
Defined.

End Curve_Properties.
